(** * The message loop of the messaging module

    A shallow embedding of [MessageLoop] (synchronous [sendMessage],
    deferred [postMessage], message hooks, [clearData], [flush], the
    exception handler and the deferred clean-up of hook arrays), and
    the properties of the dispatch engine proved on it.

    User code (hooks, handlers, exception handlers) is re-entrant: it
    may call back into the message loop while the loop is running it.
    It is represented by scripts of calls to the public entry points,
    interpreted with fuel. *)

From stdpp Require Import base list gmap strings sorting.

Set Default Proof Using "Type".

(** ** Data model *)

(** Handlers are opaque objects compared by reference: a handler is
    represented by its identity, a [nat]. *)

(** [MessageHook] is either a function or an object with a
    [messageHook] method; both are compared by reference. *)
Inductive MessageHook :=
| HookFn (id : nat)
| HookObj (id : nat).

Global Instance MessageHook_eq_dec : EqDecision MessageHook.
Proof. solve_decision. Defined.

(** [class Message]: the [type], the [isConflatable] getter, and an
    identity for the instance. [conflate] is user code, see [Env]. *)
Record Message := mkMessage {
  msg_id : nat;
  type : string;
  isConflatable : bool }.

(** Values thrown by user code, and the [TypeError] the engine itself
    raises when it reads a property of [undefined]. *)
Inductive Error :=
| UserError (n : nat)
| TypeError.

(** What a call into user code does in the end. Functions whose result
    is [void] return [Return true]. *)
Inductive outcome :=
| Return (b : bool)
| Throw (e : Error).

(** [ExceptionHandler]: the default one is [console.error]. *)
Inductive ExceptionHandler :=
| ConsoleError
| CustomHandler (id : nat).

(** [interface PostedMessage]: a mutable pair, compared by reference
    with the sentinel, hence the identity [eid]. *)
Record PostedMessage := mkPosted {
  eid : nat;
  handler : option nat;
  msg : option Message }.

(** The two functions the module passes to [schedule]. *)
Inductive Callback :=
| RunMessageLoop
| CleanupDirtySet.

(** A callback queued by [schedule]: [resolved.then(() => !rejected && fn())]
    with the [rejected] flag its cancel function sets. *)
Record Task := mkTask {
  tid : nat;
  callback : Callback;
  rejected : bool }.

(** The public entry points, as user code calls them. *)
Inductive action :=
| ASend (h : nat) (m : Message)
| APost (h : nat) (m : Message)
| AInstall (h : nat) (k : MessageHook)
| ARemove (h : nat) (k : MessageHook)
| AClear (h : nat)
| AFlush
| ASetExceptionHandler (eh : ExceptionHandler).

(** A piece of user code: the calls it makes, then how it ends. *)
Record script := mkScript {
  actions : list action;
  final : outcome }.

(** The user code the engine calls back. *)
Record Env := mkEnv {
  hookBody : MessageHook -> nat -> Message -> script;
  processMessage : nat -> Message -> script;
  handleException : nat -> Error -> script;
  conflate : Message -> Message -> outcome }.

(** The observable calls into user code and their results, each with
    the nesting depth of the engine call that made it. *)
Inductive event :=
| EvHook (d : nat) (k : MessageHook) (h : nat) (m : Message)
| EvHookRet (d : nat) (k : MessageHook) (o : outcome)
| EvProcess (d : nat) (h : nat) (m : Message)
| EvProcessRet (d : nat) (h : nat) (o : outcome)
| EvExc (d : nat) (eh : ExceptionHandler) (e : Error)
| EvExcRet (d : nat) (o : outcome)
| EvConflate (d : nat) (posted other : Message) (o : outcome).

Definition ev_depth (e : event) : nat :=
  match e with
  | EvHook d _ _ _ | EvHookRet d _ _ | EvProcess d _ _ | EvProcessRet d _ _
  | EvExc d _ _ | EvExcRet d _ | EvConflate d _ _ _ => d
  end.

(** The module state of [namespace MessageLoop]. [tasks] is the host's
    queue of callbacks scheduled through [schedule]; [nextId] numbers
    the objects the module allocates; [trace] records the calls made
    into user code. A hook array is identified with its handler: the
    array of a handler is created once and then only mutated in place. *)
Record state := mkState {
  pending : option nat;
  tasks : list Task;
  nextId : nat;
  messageQueue : list PostedMessage;
  messageHooks : gmap nat (list (option MessageHook));
  dirtySet : list nat;
  exceptionHandler : ExceptionHandler;
  flushGuard : bool;
  trace : list event }.

Definition initial : state :=
  mkState None [] 0 [] ∅ [] ConsoleError false [].

Definition set_pending (v : option nat) (st : state) : state :=
  mkState v (tasks st) (nextId st) (messageQueue st) (messageHooks st)
          (dirtySet st) (exceptionHandler st) (flushGuard st) (trace st).
Definition set_tasks (v : list Task) (st : state) : state :=
  mkState (pending st) v (nextId st) (messageQueue st) (messageHooks st)
          (dirtySet st) (exceptionHandler st) (flushGuard st) (trace st).
Definition set_nextId (v : nat) (st : state) : state :=
  mkState (pending st) (tasks st) v (messageQueue st) (messageHooks st)
          (dirtySet st) (exceptionHandler st) (flushGuard st) (trace st).
Definition set_messageQueue (v : list PostedMessage) (st : state) : state :=
  mkState (pending st) (tasks st) (nextId st) v (messageHooks st)
          (dirtySet st) (exceptionHandler st) (flushGuard st) (trace st).
Definition set_messageHooks (v : gmap nat (list (option MessageHook)))
    (st : state) : state :=
  mkState (pending st) (tasks st) (nextId st) (messageQueue st) v
          (dirtySet st) (exceptionHandler st) (flushGuard st) (trace st).
Definition set_dirtySet (v : list nat) (st : state) : state :=
  mkState (pending st) (tasks st) (nextId st) (messageQueue st)
          (messageHooks st) v (exceptionHandler st) (flushGuard st) (trace st).
Definition set_exceptionHandler (v : ExceptionHandler) (st : state) : state :=
  mkState (pending st) (tasks st) (nextId st) (messageQueue st)
          (messageHooks st) (dirtySet st) v (flushGuard st) (trace st).
Definition set_flushGuard (v : bool) (st : state) : state :=
  mkState (pending st) (tasks st) (nextId st) (messageQueue st)
          (messageHooks st) (dirtySet st) (exceptionHandler st) v (trace st).
Definition log (e : event) (st : state) : state :=
  mkState (pending st) (tasks st) (nextId st) (messageQueue st)
          (messageHooks st) (dirtySet st) (exceptionHandler st)
          (flushGuard st) (trace st ++ [e]).

(** ** Results of engine calls: a state and error monad *)

Inductive status (A : Type) :=
| Done (a : A)
| Thrown (e : Error)
| OutOfFuel.
Arguments Done {A} a.
Arguments Thrown {A} e.
Arguments OutOfFuel {A}.

Definition M (A : Type) : Type := state -> state * status A.

Definition ret {A} (a : A) : M A := fun st => (st, Done a).

Definition bind {A B} (c : M A) (f : A -> M B) : M B :=
  fun st =>
    match c st with
    | (st1, Done a) => f a st1
    | (st1, Thrown e) => (st1, Thrown e)
    | (st1, OutOfFuel) => (st1, OutOfFuel)
    end.

(** A step that only updates the state. *)
Definition upd (f : state -> state) : M unit := fun st => (f st, Done tt).

Notation "x <- c ;; k" := (bind c (fun x => k))
  (at level 100, c at next level, right associativity).
Notation "c ;;; k" := (bind c (fun _ => k))
  (at level 100, right associativity).

(** ** The scheduling primitive and the pure entry points *)

(** [schedule(fn)]: queue the callback, return its cancel function. *)
Definition schedule (fn : Callback) (st : state) : state * nat :=
  let t := nextId st in
  (set_nextId (S t) (set_tasks (tasks st ++ [mkTask t fn false]) st), t).

(** Calling the function [schedule] returned: [rejected = true]. *)
Definition reject (t : nat) (ts : list Task) : list Task :=
  map (fun x => if tid x =? t then mkTask (tid x) (callback x) true else x) ts.

Definition cancel (t : nat) (st : state) : state :=
  set_tasks (reject t (tasks st)) st.

(** [Array.prototype.indexOf] on a hook array. *)
Fixpoint indexOf (k : MessageHook) (arr : list (option MessageHook))
    : option nat :=
  match arr with
  | [] => None
  | x :: r => if decide (x = Some k) then Some 0 else S <$> indexOf k r
  end.

Definition installMessageHook (h : nat) (k : MessageHook) (st : state)
    : state :=
  match messageHooks st !! h with
  | Some hooks =>
      match indexOf k hooks with
      | Some _ => st
      | None => set_messageHooks (<[h := hooks ++ [Some k]]> (messageHooks st)) st
      end
  | None => set_messageHooks (<[h := [Some k]]> (messageHooks st)) st
  end.

(** [Set.prototype.add]. *)
Definition set_add (h : nat) (s : list nat) : list nat :=
  if decide (h ∈ s) then s else s ++ [h].

Definition scheduleCleanup (h : nat) (st : state) : state :=
  let st1 :=
    match dirtySet st with
    | [] => fst (schedule CleanupDirtySet st)
    | _ :: _ => st
    end in
  set_dirtySet (set_add h (dirtySet st1)) st1.

Definition removeMessageHook (h : nat) (k : MessageHook) (st : state)
    : state :=
  match messageHooks st !! h with
  | None => st
  | Some hooks =>
      match indexOf k hooks with
      | None => st
      | Some i =>
          scheduleCleanup h
            (set_messageHooks (<[h := <[i := None]> hooks]> (messageHooks st)) st)
      end
  end.

(** Modelled from the spec: [ArrayExt.fill(hooks, null)] of the
    algorithm package, which is not part of the sources at hand; it
    tombstones every slot of the array. *)
Definition fill_null (hooks : list (option MessageHook))
    : list (option MessageHook) :=
  replicate (length hooks) None.

(** The body of the loop of [clearData] over the queue. *)
Definition clearPosted (h : nat) (p : PostedMessage) : PostedMessage :=
  if decide (handler p = Some h) then mkPosted (eid p) None None else p.

Definition clearData (h : nat) (st : state) : state :=
  let st1 :=
    match messageHooks st !! h with
    | Some (x :: r) =>
        scheduleCleanup h
          (set_messageHooks (<[h := fill_null (x :: r)]> (messageHooks st)) st)
    | _ => st
    end in
  set_messageQueue (map (clearPosted h) (messageQueue st1)) st1.

Definition setExceptionHandler (eh : ExceptionHandler) (st : state)
    : state * ExceptionHandler :=
  (set_exceptionHandler eh st, exceptionHandler st).

Definition getExceptionHandler (st : state) : ExceptionHandler :=
  exceptionHandler st.

Definition enqueueMessage (h : nat) (m : Message) (st : state) : state :=
  let st1 :=
    set_nextId (S (nextId st))
      (set_messageQueue
         (messageQueue st ++ [mkPosted (nextId st) (Some h) (Some m)]) st) in
  match pending st1 with
  | Some _ => st1
  | None =>
      let '(st2, t) := schedule RunMessageLoop st1 in
      set_pending (Some t) st2
  end.

(** Modelled from the spec: [ArrayExt.removeAllWhere(hooks, isNull)] of
    the algorithm package, which is not part of the sources at hand; it
    removes every tombstoned slot from the array in place. *)
Definition removeAllNull (hooks : list (option MessageHook))
    : list (option MessageHook) :=
  filter (fun x => x ≠ None) hooks.

Definition cleanupHooks (h : nat) (st : state) : state :=
  match messageHooks st !! h with
  | Some hooks =>
      set_messageHooks (<[h := removeAllNull hooks]> (messageHooks st)) st
  | None => st
  end.

Definition cleanupDirtySet (st : state) : state :=
  set_dirtySet [] (foldl (fun s h => cleanupHooks h s) st (dirtySet st)).

(** ** The entry points that call user code

    [run d body] runs a piece of user code at nesting depth [d]; [gas]
    bounds the iterations of the [while (true)] loop. *)
Section Engine.
Variable E : Env.
Variable run : nat -> script -> M bool.
Variable gas : nat.

(** [exceptionHandler(err)] as the catch blocks call it. *)
Definition invokeExceptionHandler (d : nat) (err : Error) : M unit :=
  fun st =>
    let eh := exceptionHandler st in
    let st1 := log (EvExc d eh err) st in
    match eh with
    | ConsoleError => (log (EvExcRet d (Return true)) st1, Done tt)
    | CustomHandler n =>
        match run (S d) (handleException E n err) st1 with
        | (st2, Done b) => (log (EvExcRet d (Return b)) st2, Done tt)
        | (st2, Thrown e) => (log (EvExcRet d (Throw e)) st2, Thrown e)
        | (st2, OutOfFuel) => (st2, OutOfFuel)
        end
    end.

Definition invokeHook (d : nat) (k : MessageHook) (h : nat) (m : Message)
    : M bool :=
  fun st =>
    match run (S d) (hookBody E k h m) (log (EvHook d k h m) st) with
    | (st2, Done b) => (log (EvHookRet d k (Return b)) st2, Done b)
    | (st2, Thrown e) =>
        (invokeExceptionHandler d e ;;; ret true)
          (log (EvHookRet d k (Throw e)) st2)
    | (st2, OutOfFuel) => (st2, OutOfFuel)
    end.

Definition invokeHandler (d : nat) (h : nat) (m : Message) : M unit :=
  fun st =>
    match run (S d) (processMessage E h m) (log (EvProcess d h m) st) with
    | (st2, Done b) => (log (EvProcessRet d h (Return b)) st2, Done tt)
    | (st2, Thrown e) =>
        invokeExceptionHandler d e (log (EvProcessRet d h (Throw e)) st2)
    | (st2, OutOfFuel) => (st2, OutOfFuel)
    end.

(** The slot [hooks[i]] of the array of [h], read when the iteration
    gets there. *)
Definition hookAt (h i : nat) (st : state) : option MessageHook :=
  match messageHooks st !! h with
  | Some hooks => match hooks !! i with Some x => x | None => None end
  | None => None
  end.

(** Modelled from the spec: [every(retro(hooks), hook => ...)] with
    [every] and [retro] of the algorithm package, which is not part
    of the sources at hand: the array is walked from its last index
    at the start of the walk down to 0, and the walk stops at the
    first [false]. [n] is the number of slots still to visit. *)
Fixpoint everyRetro (n : nat) (d : nat) (h : nat) (m : Message) : M bool :=
  match n with
  | 0 => ret true
  | S i =>
      fun st =>
        match hookAt h i st with
        | Some k =>
            (passed <- invokeHook d k h m ;;
             if passed then everyRetro i d h m else ret false) st
        | None => everyRetro i d h m st
        end
  end.

Definition sendMessage (d : nat) (h : nat) (m : Message) : M unit :=
  fun st =>
    match messageHooks st !! h with
    | None | Some [] => invokeHandler d h m st
    | Some hooks =>
        (passed <- everyRetro (length hooks) d h m ;;
         if passed then invokeHandler d h m else ret tt) st
    end.

(** The predicate [postMessage] passes to [some], up to the call of
    [conflate]: the posted message to conflate with, if any. *)
Definition conflationTarget (h : nat) (m : Message) (posted : PostedMessage)
    : option Message :=
  if decide (handler posted = Some h) then
    match msg posted with
    | Some pm =>
        if String.eqb (type pm) (type m) && isConflatable pm
        then Some pm else None
    | None => None
    end
  else None.

(** Modelled from the spec: [some(messageQueue, posted => ...)] with
    [some] of the algorithm package and the iterator of [LinkedList],
    which are not part of the sources at hand: the queue is visited
    from its first entry on, and the visit stops at the first entry
    for which the predicate holds. *)
Fixpoint someConflate (d : nat) (h : nat) (m : Message)
    (q : list PostedMessage) : M bool :=
  match q with
  | [] => ret false
  | posted :: q' =>
      match conflationTarget h m posted with
      | Some pm =>
          fun st =>
            match conflate E pm m with
            | Return b =>
                (if b then ret true else someConflate d h m q')
                  (log (EvConflate d pm m (Return b)) st)
            | Throw e => (log (EvConflate d pm m (Throw e)) st, Thrown e)
            end
      | None => someConflate d h m q'
      end
  end.

Definition postMessage (d : nat) (h : nat) (m : Message) : M unit :=
  fun st =>
    if negb (isConflatable m) then (enqueueMessage h m st, Done tt)
    else
      (conflated <- someConflate d h m (messageQueue st) ;;
       if conflated then ret tt else upd (enqueueMessage h m)) st.

(** The [while (true)] loop of [runMessageLoop]. [removeFirst()] on
    an empty list returns [undefined], and reading [posted.handler]
    then throws a [TypeError]. *)
Fixpoint loop (g : nat) (d : nat) (sentinel : nat) : M unit :=
  match g with
  | 0 => fun st => (st, OutOfFuel)
  | S g' =>
      fun st =>
        match messageQueue st with
        | [] => (st, Thrown TypeError)
        | posted :: rest =>
            let st1 := set_messageQueue rest st in
            if eid posted =? sentinel then (st1, Done tt)
            else
              match handler posted, msg posted with
              | Some h, Some m =>
                  (sendMessage d h m ;;; loop g' d sentinel) st1
              | _, _ => loop g' d sentinel st1
              end
        end
  end.

Definition runMessageLoop (d : nat) : M unit :=
  fun st =>
    let st1 := set_pending None st in
    match messageQueue st1 with
    | [] => (st1, Done tt)
    | _ :: _ =>
        let sentinel := nextId st1 in
        loop gas d sentinel
          (set_nextId (S sentinel)
             (set_messageQueue
                (messageQueue st1 ++ [mkPosted sentinel None None]) st1))
    end.

Definition flush (d : nat) : M unit :=
  fun st =>
    match flushGuard st, pending st with
    | false, Some t =>
        (runMessageLoop d ;;; upd (set_flushGuard false))
          (set_flushGuard true (set_pending None (cancel t st)))
    | _, _ => (st, Done tt)
    end.

Definition doAction (d : nat) (a : action) : M unit :=
  match a with
  | ASend h m => sendMessage d h m
  | APost h m => postMessage d h m
  | AInstall h k => upd (installMessageHook h k)
  | ARemove h k => upd (removeMessageHook h k)
  | AClear h => upd (clearData h)
  | AFlush => flush d
  | ASetExceptionHandler eh => upd (fun st => fst (setExceptionHandler eh st))
  end.

Fixpoint runActions (d : nat) (acts : list action) : M unit :=
  match acts with
  | [] => ret tt
  | a :: r => doAction d a ;;; runActions d r
  end.
End Engine.

(** User code at depth [d]: its calls in order, then its result. A
    call that throws ends the script with that exception. *)
Fixpoint runScript (E : Env) (fuel : nat) (d : nat) (s : script) : M bool :=
  match fuel with
  | 0 => fun st => (st, OutOfFuel)
  | S f =>
      runActions E (runScript E f) f d (actions s) ;;;
      (fun st =>
         match final s with
         | Return b => (st, Done b)
         | Throw e => (st, Thrown e)
         end)
  end.

(** One turn of the host: the first scheduled callback runs, unless its
    cancel function was called. *)
Definition runMicrotask (E : Env) (fuel : nat) : M unit :=
  fun st =>
    match tasks st with
    | [] => (st, Done tt)
    | t :: ts =>
        let st1 := set_tasks ts st in
        if rejected t then (st1, Done tt)
        else
          match callback t with
          | RunMessageLoop => runMessageLoop E (runScript E fuel) fuel 0 st1
          | CleanupDirtySet => (cleanupDirtySet st1, Done tt)
          end
    end.

(** ** The application and the host *)

(** What the application does with the module from outside any engine
    call: a call of an entry point, or a turn of the host in which the
    first scheduled callback runs. An exception that reaches the top
    ends the call or the turn, not the application. *)
Inductive step :=
| Call (a : action)
| Tick.

Definition runStep (E : Env) (fuel : nat) (s : step) : M unit :=
  match s with
  | Call a => doAction E (runScript E fuel) fuel 0 a
  | Tick => runMicrotask E fuel
  end.

Fixpoint runSteps (E : Env) (fuel : nat) (ss : list step) (st : state)
    : state :=
  match ss with
  | [] => st
  | s :: r => runSteps E fuel r (fst (runStep E fuel s st))
  end.

(** ** Reading a trace *)

(** The events of depth exactly [d]: the calls an engine call running
    at depth [d] made itself. *)
Definition at_depth (d : nat) (tr : list event) : list event :=
  filter (λ e, ev_depth e = d) tr.

(** The hooks called, the results of the hooks, and the messages
    handed to [processMessage], in the order of the trace. *)
Definition hook_calls (tr : list event) : list MessageHook :=
  omap (λ e, match e with EvHook _ k _ _ => Some k | _ => None end) tr.
Definition hook_rets (tr : list event) : list (MessageHook * outcome) :=
  omap (λ e, match e with EvHookRet _ k o => Some (k, o) | _ => None end) tr.
Definition deliveries (tr : list event) : list (nat * Message) :=
  omap (λ e, match e with EvProcess _ h m => Some (h, m) | _ => None end) tr.

(** The exceptions handed to the exception handler. *)
Definition routed (tr : list event) : list (ExceptionHandler * Error) :=
  omap (λ e, match e with EvExc _ eh e => Some (eh, e) | _ => None end) tr.

(** The exceptions raised by hooks and handlers, in order. *)
Definition faults (tr : list event) : list Error :=
  omap (λ e, match e with
             | EvHookRet _ _ (Throw e) | EvProcessRet _ _ (Throw e) => Some e
             | _ => None
             end) tr.

(** Several events logged in a row. *)
Definition log_all (evs : list event) (st : state) : state :=
  foldl (λ s e, log e s) st evs.

(** The live hooks of an array, newest first. *)
Definition newest_first (arr : list (option MessageHook)) : list MessageHook :=
  reverse (omap id arr).

(** The messages of the entries that are live, with their handlers. *)
Definition live_entries (q : list PostedMessage) : list (nat * Message) :=
  omap (λ p, match handler p, msg p with
             | Some h, Some m => Some (h, m)
             | _, _ => None
             end) q.

(** A posted message that declines to conflate with [m], and the
    events of a row of calls of [conflate] with one outcome. *)
Definition declines (E : Env) (m : Message) (pm : Message) : Prop :=
  conflate E pm m = Return false.

Definition conflate_events (d : nat) (m : Message) (pms : list Message)
    (o : outcome) : list event :=
  map (λ pm, EvConflate d pm m o) pms.

(** How a call of user code ends that is logged with outcome [o]. *)
Definition ran_as (o : outcome) : status bool :=
  match o with
  | Return b => Done b
  | Throw e => Thrown e
  end.

(** ** What one call shows at its own depth *)

(** [exceptionHandler(err)]: the call, and its return if it returns. *)
Inductive exc_trace (d : nat) (eh : ExceptionHandler) (e : Error)
    : list event → status unit → Prop :=
| exc_returns b :
    exc_trace d eh e [EvExc d eh e; EvExcRet d (Return b)] (Done tt)
| exc_throws e' :
    exc_trace d eh e [EvExc d eh e; EvExcRet d (Throw e')] (Thrown e')
| exc_fuel :
    exc_trace d eh e [EvExc d eh e] OutOfFuel.

(** The verdict [invokeHook] derives from a hook that threw. *)
Definition as_passed (r : status unit) : status bool :=
  match r with
  | Done _ => Done true
  | Thrown e => Thrown e
  | OutOfFuel => OutOfFuel
  end.

(** [invokeHook]: the hook returns, or throws and the exception handler
    is called. *)
Inductive hook_trace (d : nat) (k : MessageHook) (h : nat) (m : Message)
    : list event → status bool → Prop :=
| hook_returns b :
    hook_trace d k h m [EvHook d k h m; EvHookRet d k (Return b)] (Done b)
| hook_faults e eh tr r :
    exc_trace d eh e tr r →
    hook_trace d k h m (EvHook d k h m :: EvHookRet d k (Throw e) :: tr)
      (as_passed r)
| hook_fuel :
    hook_trace d k h m [EvHook d k h m] OutOfFuel.

(** [invokeHandler], likewise. *)
Inductive handler_trace (d : nat) (h : nat) (m : Message)
    : list event → status unit → Prop :=
| handler_returns b :
    handler_trace d h m [EvProcess d h m; EvProcessRet d h (Return b)] (Done tt)
| handler_faults e eh tr r :
    exc_trace d eh e tr r →
    handler_trace d h m (EvProcess d h m :: EvProcessRet d h (Throw e) :: tr) r
| handler_fuel :
    handler_trace d h m [EvProcess d h m] OutOfFuel.

(** The hook chain: the hooks called, in order, what the calls show,
    and the verdict. The chain goes on after a hook that passed. *)
Inductive chain_trace (d : nat) (h : nat) (m : Message)
    : list MessageHook → list event → status bool → Prop :=
| chain_nil :
    chain_trace d h m [] [] (Done true)
| chain_pass k ks tr1 tr2 r :
    hook_trace d k h m tr1 (Done true) →
    chain_trace d h m ks tr2 r →
    chain_trace d h m (k :: ks) (tr1 ++ tr2) r
| chain_stop k tr r :
    hook_trace d k h m tr r → r ≠ Done true →
    chain_trace d h m [k] tr r.

(** A whole [sendMessage]: the chain, then the handler if it passed. *)
Inductive send_trace (d : nat) (h : nat) (m : Message)
    : list MessageHook → list event → status unit → Prop :=
| send_passed ks tr1 tr2 r :
    chain_trace d h m ks tr1 (Done true) →
    handler_trace d h m tr2 r →
    send_trace d h m ks (tr1 ++ tr2) r
| send_vetoed ks tr :
    chain_trace d h m ks tr (Done false) →
    send_trace d h m ks tr (Done tt)
| send_thrown ks tr e :
    chain_trace d h m ks tr (Thrown e) →
    send_trace d h m ks tr (Thrown e)
| send_fuel ks tr :
    chain_trace d h m ks tr OutOfFuel →
    send_trace d h m ks tr OutOfFuel.

(** What the loop shows at its own depth when it runs to its
    sentinel: one [sendMessage] for each live entry, in order. *)
Definition sends_of (d : nat) (entries : list (nat * Message))
    (top : list event) : Prop :=
  ∃ trs,
    top = concat trs ∧
    Forall2 (λ hm tr, ∃ ks, send_trace d hm.1 hm.2 ks tr (Done tt)) entries trs.

(** ** Invariants under re-entrant user code *)

(** What is known where an event is logged: the handler is one a
    message may be sent to, and a hook that is called is in a slot. *)
Definition site (sendable : nat -> Prop) (st : state) (e : event) : Prop :=
  match e with
  | EvHook _ k h _ => sendable h ∧ ∃ i, hookAt h i st = Some k
  | EvProcess _ h _ => sendable h
  | _ => True
  end.

(** A script, and user code as a whole, whose calls are all [allowed]. *)
Definition allowed_script (allowed : action -> Prop) (s : script) : Prop :=
  Forall allowed (actions s).

Definition env_allowed (allowed : action -> Prop) (E : Env) : Prop :=
  (∀ k h m, allowed_script allowed (hookBody E k h m)) ∧
  (∀ h m, allowed_script allowed (processMessage E h m)) ∧
  (∀ n e, allowed_script allowed (handleException E n e)).

(** The elementary updates an invariant has to withstand, packaged.
    The loop runs inside user code only through [flush]. *)
Record preserved (E : Env) (dmin : nat) (I : state -> Prop)
    (allowed : action -> Prop) (sendable : nat -> Prop) : Prop := {
  p_hook : ∀ k h m, allowed_script allowed (hookBody E k h m);
  p_process : ∀ h m, allowed_script allowed (processMessage E h m);
  p_exc : ∀ n e, allowed_script allowed (handleException E n e);
  p_send : ∀ h (m : Message), allowed (ASend h m) → sendable h;
  p_log : ∀ st e, dmin ≤ ev_depth e → site sendable st e → I st → I (log e st);
  p_install : ∀ st h k,
    allowed (AInstall h k) → I st → I (installMessageHook h k st);
  p_remove : ∀ st h k,
    allowed (ARemove h k) → I st → I (removeMessageHook h k st);
  p_clear : ∀ st h, allowed (AClear h) → I st → I (clearData h st);
  p_setexc : ∀ st eh,
    allowed (ASetExceptionHandler eh) → I st → I (set_exceptionHandler eh st);
  p_enqueue : ∀ st h m, allowed (APost h m) → I st → I (enqueueMessage h m st);
  p_queue : allowed AFlush → ∀ st p rest h,
    I st → messageQueue st = p :: rest → handler p = Some h → sendable h;
  p_pop : allowed AFlush → ∀ st p rest,
    messageQueue st = p :: rest → I st → I (set_messageQueue rest st);
  p_flush : allowed AFlush → ∀ st t,
    flushGuard st = false → pending st = Some t → I st →
    I (set_flushGuard true (set_pending None (cancel t st))) ∧
    (∀ st2, I st2 → I (set_flushGuard false st2));
  p_begin : allowed AFlush → ∀ st,
    pending st = None → I st → I (set_pending None st);
  p_sentinel : allowed AFlush → ∀ st,
    I st →
    I (set_nextId (S (nextId st))
         (set_messageQueue (messageQueue st ++ [mkPosted (nextId st) None None]) st))
}.

(** The trace was [tr0] and has only grown since, by events of depth
    [dmin] at least. *)
Definition extends (tr0 : list event) (dmin : nat) (st : state) : Prop :=
  ∃ new, trace st = tr0 ++ new ∧ Forall (λ e, dmin ≤ ev_depth e) new.

(** A hook array as it is found later, before any clean-up: no shorter,
    and every slot as it was or tombstoned. *)
Definition decayed (arr0 arr : list (option MessageHook)) : Prop :=
  length arr0 ≤ length arr ∧
  ∀ i x, arr0 !! i = Some x → arr !! i = Some x ∨ arr !! i = Some None.

Definition tombstoned_from (arr0 : list (option MessageHook)) (h : nat)
    (st : state) : Prop :=
  ∃ arr, messageHooks st !! h = Some arr ∧ decayed arr0 arr.

(** No hook is twice in the array of a handler: what [indexOf] in
    [installMessageHook] maintains. *)
Definition hooks_distinct (st : state) : Prop :=
  ∀ h arr, messageHooks st !! h = Some arr → NoDup (omap id arr).

(** [k] is in no slot of the array of [h], and since the trace was
    [tr0] it was not called for [h]. *)
Definition unhooked (h : nat) (k : MessageHook) (tr0 : list event)
    (st : state) : Prop :=
  (Some k ∉ default [] (messageHooks st !! h)) ∧
  ∃ new, trace st = tr0 ++ new ∧ ∀ d m, EvHook d k h m ∉ new.

(** Calls that do not send or post a message to [h]. *)
Definition spares (h : nat) (a : action) : Prop :=
  match a with
  | ASend h' _ | APost h' _ => h' ≠ h
  | _ => True
  end.

(** No entry of the queue is for [h], and since the trace was [tr0] no
    message was handed to [h]. *)
Definition silent (h : nat) (tr0 : list event) (st : state) : Prop :=
  (∀ p, p ∈ messageQueue st → handler p ≠ Some h) ∧
  ∃ new, trace st = tr0 ++ new ∧ ∀ d m, EvProcess d h m ∉ new.

(** The callbacks that will run the loop: scheduled, not cancelled. *)
Definition is_live_loop (t : Task) : bool :=
  match callback t with
  | RunMessageLoop => negb (rejected t)
  | CleanupDirtySet => false
  end.

Definition live_loops (ts : list Task) : list nat :=
  map tid (filter (λ t, is_live_loop t = true) ts).

(** The pending handle is the cancel function of the one loop run that
    is scheduled, and it is [null] when none is. *)
Definition sched_ok (st : state) : Prop :=
  live_loops (tasks st) = match pending st with Some t => [t] | None => [] end.

(** An entry as it is found later in the queue: as it was, or with both
    fields cleared. *)
Definition cleared (p : PostedMessage) : PostedMessage :=
  mkPosted (eid p) None None.

Definition faded (p0 p : PostedMessage) : Prop := p = p0 ∨ p = cleared p0.

(** While user code runs during a loop run with sentinel [s]: the
    entries still to process are in front of the sentinel, in place,
    and what was enqueued since is behind it. *)
Definition behind_sentinel (s : nat) (rem0 : list PostedMessage)
    (st : state) : Prop :=
  ∃ rem added,
    messageQueue st = rem ++ mkPosted s None None :: added ∧
    Forall2 faded rem0 rem ∧
    Forall (λ p, s < eid p) added ∧
    s < nextId st.

(** ** Scenarios *)

Definition msgA : Message := mkMessage 1 "update" false.
Definition msgB : Message := mkMessage 2 "update" false.
Definition msgC : Message := mkMessage 3 "update" false.

(** Conflatable messages of one type. *)
Definition cmsg (n : nat) : Message := mkMessage n "resize" true.

(** Hooks and handlers that do nothing and let every message pass. *)
Definition E_plain : Env :=
  mkEnv (λ _ _ _, mkScript [] (Return true))
        (λ _ _, mkScript [] (Return true))
        (λ _ _, mkScript [] (Return true))
        (λ _ _, Return true).

(** Hook 2 vetoes every message. *)
Definition E_veto : Env :=
  mkEnv (λ k _ _, match k with
                  | HookFn 2 => mkScript [] (Return false)
                  | _ => mkScript [] (Return true)
                  end)
        (λ _ _, mkScript [] (Return true))
        (λ _ _, mkScript [] (Return true))
        (λ _ _, Return true).

(** [msgA] posted to handler 7, [msgB] to handler 8, [msgC] to
    handler 7. *)
Definition st_two_handlers : state :=
  fst (postMessage E_plain 0 7 msgC
         (fst (postMessage E_plain 0 8 msgB
                 (fst (postMessage E_plain 0 7 msgA initial))))).

(** Hook 1 throws; exception handler 0 throws what it is given. *)
Definition E_rethrow : Env :=
  mkEnv (λ k _ _, match k with
                  | HookFn 1 => mkScript [] (Throw (UserError 1))
                  | _ => mkScript [] (Return true)
                  end)
        (λ _ _, mkScript [] (Return true))
        (λ _ e, mkScript [] (Throw e))
        (λ _ _, Return false).

(** Hook 1 installed on handler 7, exception handler 0 set. *)
Definition st_rethrow : state :=
  installMessageHook 7 (HookFn 1)
    (fst (setExceptionHandler (CustomHandler 0) initial)).

(** A posted message conflates only if it is the one posted second. *)
Definition E_conflate : Env :=
  mkEnv (λ _ _ _, mkScript [] (Return true))
        (λ _ _, mkScript [] (Return true))
        (λ _ _, mkScript [] (Return true))
        (λ pm _, Return (msg_id pm =? 2)).

(** Two conflatable messages of one type queued for handler 7. *)
Definition st_two_posted : state :=
  fst (postMessage E_conflate 0 7 (cmsg 2)
         (fst (postMessage E_conflate 0 7 (cmsg 1) initial))).

(** Hook 2 removes itself while it runs. *)
Definition E_self_remove : Env :=
  mkEnv (λ k h _, match k with
                  | HookFn 2 => mkScript [ARemove h (HookFn 2)] (Return true)
                  | _ => mkScript [] (Return true)
                  end)
        (λ _ _, mkScript [] (Return true))
        (λ _ _, mkScript [] (Return true))
        (λ _ _, Return true).

(** Hooks 1, 2, 3 installed in this order on handler 7. *)
Definition st_three_hooks : state :=
  installMessageHook 7 (HookFn 3)
    (installMessageHook 7 (HookFn 2)
       (installMessageHook 7 (HookFn 1) initial)).

(** The handler, given [msgA], posts [msgB], calls [flush()], and posts
    [msgC]. *)
Definition E_flush_inside : Env :=
  mkEnv (λ _ _ _, mkScript [] (Return true))
        (λ h m, if msg_id m =? 1
                then mkScript [APost h msgB; AFlush; APost h msgC] (Return true)
                else mkScript [] (Return true))
        (λ _ _, mkScript [] (Return true))
        (λ _ _, Return false).

(** The same handler without the call of [flush()]. *)
Definition E_post_inside : Env :=
  mkEnv (λ _ _ _, mkScript [] (Return true))
        (λ h m, if msg_id m =? 1
                then mkScript [APost h msgB; APost h msgC] (Return true)
                else mkScript [] (Return true))
        (λ _ _, mkScript [] (Return true))
        (λ _ _, Return false).

(** [msgA] posted to handler 7: the queue holds it and a loop run is
    scheduled. *)
Definition st_posted : state :=
  fst (postMessage E_flush_inside 0 7 msgA initial).

(** ** The message classes of the module *)

(** [class Message] and [class ConflatableMessage extends Message]. *)
Inductive MessageClass :=
| BaseMessage
| ConflatableMessage.

(** The [isConflatable] getter and the [conflate] method of each class. *)
Definition class_isConflatable (c : MessageClass) : bool :=
  match c with
  | BaseMessage => false
  | ConflatableMessage => true
  end.

Definition class_conflate (c : MessageClass) (other : Message) : bool :=
  match c with
  | BaseMessage => false
  | ConflatableMessage => true
  end.

(** [new Message(type)] and [new ConflatableMessage(type)]; [id] is the
    identity of the new object. *)
Definition new_message (c : MessageClass) (id : nat) (ty : string) : Message :=
  mkMessage id ty (class_isConflatable c).

(** The class of a message when only these two classes are used, and
    user code in which [conflate] is the method of the class. *)
Definition class_of (m : Message) : MessageClass :=
  if isConflatable m then ConflatableMessage else BaseMessage.

Definition stock_classes (E : Env) : Prop :=
  ∀ pm other, conflate E pm other = Return (class_conflate (class_of pm) other).

(** Several messages posted in a row to one handler. *)
Definition postAll (E : Env) (d h : nat) (ms : list Message) (st : state)
    : state :=
  foldl (λ s m, fst (postMessage E d h m s)) st ms.

(** ** Invariants of a loop run and of the schedule *)

(** An invariant that withstands every elementary update user code can
    cause without running the loop. *)
Record withstands (I : state -> Prop) : Prop := {
  w_log : ∀ st e, I st → I (log e st);
  w_install : ∀ st h k, I st → I (installMessageHook h k st);
  w_remove : ∀ st h k, I st → I (removeMessageHook h k st);
  w_clear : ∀ st h, I st → I (clearData h st);
  w_setexc : ∀ st eh, I st → I (set_exceptionHandler eh st);
  w_enqueue : ∀ st h m, I st → I (enqueueMessage h m st)
}.

(** The entries in the queue are objects made before now: the next
    object made is none of them. *)
Definition fresh (st : state) : Prop :=
  Forall (λ p, eid p < nextId st) (messageQueue st).

(** During a loop run with sentinel [s]: the pending handle is set
    exactly when an entry made after the sentinel is in the queue. *)
Definition run_pending (s : nat) (st : state) : Prop :=
  (pending st = None → Forall (λ p, eid p ≤ s) (messageQueue st)) ∧
  (pending st ≠ None → Exists (λ p, s < eid p) (messageQueue st)).

Definition in_run (s : nat) (rem0 : list PostedMessage) (st : state) : Prop :=
  behind_sentinel s rem0 st ∧ run_pending s st.

(** What a loop run that began in [st] has done when it is over in
    [st']: it took off the queue the entries [st] had, each one as it
    was found then ([seen]), sent the message of each live one at its
    own depth, in order, and left in the queue what was posted
    meanwhile, with the next run scheduled exactly if there is any. *)
Definition ran_to_sentinel (d : nat) (st st' : state) : Prop :=
  ∃ new seen,
    trace st' = trace st ++ new ∧
    Forall2 faded (messageQueue st) seen ∧
    sends_of d (live_entries seen) (at_depth d new) ∧
    Forall (λ p, nextId st < eid p) (messageQueue st') ∧
    (pending st' = None ↔ messageQueue st' = []).

(** An entry as it is found later in the queue when user code clears
    the data of the handlers in [c] only: as it was, or cleared by a
    [clearData] of its handler. *)
Definition faded_by (c : nat → Prop) (p0 p : PostedMessage) : Prop :=
  p = p0 ∨ (p = cleared p0 ∧ ∃ h, handler p0 = Some h ∧ c h).

(** An entry as a [postMessage] user code is allowed to call made it,
    or cleared since. *)
Definition posted_by (allowed : action → Prop) (p : PostedMessage) : Prop :=
  (handler p = None ∧ msg p = None) ∨
  ∃ h m, handler p = Some h ∧ msg p = Some m ∧ allowed (APost h m).

(** An invariant that withstands the elementary updates of the calls
    user code is allowed to make. *)
Record withstands_if (allowed : action → Prop) (I : state → Prop) : Prop := {
  wi_log : ∀ st e, I st → I (log e st);
  wi_install : ∀ st h k,
    allowed (AInstall h k) → I st → I (installMessageHook h k st);
  wi_remove : ∀ st h k,
    allowed (ARemove h k) → I st → I (removeMessageHook h k st);
  wi_clear : ∀ st h, allowed (AClear h) → I st → I (clearData h st);
  wi_setexc : ∀ st eh,
    allowed (ASetExceptionHandler eh) → I st → I (set_exceptionHandler eh st);
  wi_enqueue : ∀ st h m, allowed (APost h m) → I st → I (enqueueMessage h m st)
}.

(** While user code, making the calls [allowed] only, runs during a
    loop run with sentinel [s] that began with [n0] callbacks scheduled:
    the entries still to process are in front of the sentinel, in place,
    each as it was or cleared by a [clearData] of its handler that user
    code is allowed to call; behind the sentinel are the entries
    enqueued since, in the order they were made, each by a [postMessage]
    user code is allowed to call; the pending handle is set exactly when
    there is one; and every object made since the sentinel is one of
    these entries or a callback scheduled since. *)
Definition exact_run (allowed : action → Prop) (n0 s : nat)
    (rem0 : list PostedMessage) (st : state) : Prop :=
  ∃ rem added,
    messageQueue st = rem ++ mkPosted s None None :: added ∧
    Forall2 (faded_by (λ h, allowed (AClear h))) rem0 rem ∧
    Forall (λ p, s < eid p ∧ eid p < nextId st) added ∧
    StronglySorted lt (map eid added) ∧
    Forall (posted_by allowed) added ∧
    (pending st = None ↔ added = []) ∧
    n0 ≤ length (tasks st) ∧
    nextId st + n0 = S s + length added + length (tasks st).

(** The objects a loop run makes for itself: its sentinel, unless it
    finds the queue empty. *)
Definition sentinels (st : state) : nat :=
  match messageQueue st with
  | [] => 0
  | _ :: _ => 1
  end.

(** What a loop run that began in [st] has done when it is over in
    [st'], user code making the calls [allowed] only. It took off the
    queue the entries [st] had, each one as it was found then ([seen]:
    as it was in [st], or cleared by a [clearData] of its handler that
    user code is allowed to call), and sent the message of each live one
    at its own depth, in order. The queue holds entries made during the
    run, in the order they were made, each by a [postMessage] user code
    is allowed to call; and every object made during the run is the
    sentinel, one of these entries or a callback scheduled during the
    run: no entry enqueued during the run was taken off. The next run
    is scheduled exactly if the queue is not empty. *)
Definition ran_exactly (allowed : action → Prop) (d : nat)
    (st st' : state) : Prop :=
  ∃ new seen,
    trace st' = trace st ++ new ∧
    Forall2 (faded_by (λ h, allowed (AClear h))) (messageQueue st) seen ∧
    sends_of d (live_entries seen) (at_depth d new) ∧
    Forall (λ p, nextId st < eid p ∧ eid p < nextId st') (messageQueue st') ∧
    StronglySorted lt (map eid (messageQueue st')) ∧
    Forall (posted_by allowed) (messageQueue st') ∧
    (pending st' = None ↔ messageQueue st' = []) ∧
    length (tasks st) ≤ length (tasks st') ∧
    nextId st' + length (tasks st) =
      nextId st + sentinels st + length (messageQueue st') + length (tasks st').

(** The callbacks that will clean the dirty set up. *)
Definition is_live_cleanup (t : Task) : bool :=
  match callback t with
  | CleanupDirtySet => negb (rejected t)
  | RunMessageLoop => false
  end.

Definition live_cleanups (ts : list Task) : list Task :=
  filter (λ t, is_live_cleanup t = true) ts.

(** Every hook array with a tombstone is in the dirty set. *)
Definition tombstones_dirty (st : state) : Prop :=
  ∀ h arr, messageHooks st !! h = Some arr → None ∈ arr → h ∈ dirtySet st.

(** The scheduled callbacks are distinct objects, the pending handle
    cancels the one loop run that is scheduled, and one clean-up is
    scheduled exactly when the dirty set is not empty. *)
Definition sched_tidy (st : state) : Prop :=
  NoDup (map tid (tasks st)) ∧
  Forall (λ t, tid t < nextId st) (tasks st) ∧
  sched_ok st ∧
  length (live_cleanups (tasks st))
    = match dirtySet st with [] => 0 | _ :: _ => 1 end.

Definition tidy (st : state) : Prop := sched_tidy st ∧ tombstones_dirty st.

(** The live hooks of a handler, in the order a send calls them. *)
Definition live_hooks (h : nat) (st : state) : list MessageHook :=
  newest_first (default [] (messageHooks st !! h)).

(** User code that leaves the exception handler alone. *)
Definition keeps_handler (a : action) : Prop :=
  ∀ eh, a ≠ ASetExceptionHandler eh.

(** The entries of [q0] are all in the queue still, in place, as they
    were or cleared, with what was enqueued since behind them. *)
Definition queue_kept (q0 : list PostedMessage) (st : state) : Prop :=
  ∃ rem added, messageQueue st = rem ++ added ∧ Forall2 faded q0 rem.

(** What a loop run that began in [st] leaves in [st'] when an
    exception ends it: it took some entries off the queue ([taken]),
    and the others are still there, in place, as they were or cleared,
    with the sentinel of the run and what was posted meanwhile behind
    them; the pending handle is [null] unless something was posted. *)
Definition cut_short (st st' : state) : Prop :=
  ∃ taken left left' added,
    messageQueue st = taken ++ left ∧ taken ≠ [] ∧
    messageQueue st' = left' ++ mkPosted (nextId st) None None :: added ∧
    Forall2 faded left left' ∧
    Forall (λ p, nextId st < eid p) added ∧
    (pending st' = None ↔ added = []).

(** A loop run is scheduled whenever the queue is not empty. *)
Definition served (st : state) : Prop :=
  messageQueue st ≠ [] → pending st ≠ None.

(** The state between two steps of an application that leaves
    [console.error] in place and calls [flush()] from outside user code
    only. *)
Definition settled (st : state) : Prop :=
  served st ∧ fresh st ∧ sched_ok st ∧
  flushGuard st = false ∧ exceptionHandler st = ConsoleError.

(** User code that neither calls [flush()] nor replaces the exception
    handler. *)
Definition tame (a : action) : Prop := a ≠ AFlush ∧ keeps_handler a.

(** Every step comes to an end within the fuel. *)
Fixpoint steps_return (E : Env) (fuel : nat) (ss : list step) (st : state)
    : Prop :=
  match ss with
  | [] => True
  | s :: r =>
      snd (runStep E fuel s st) ≠ OutOfFuel ∧
      steps_return E fuel r (fst (runStep E fuel s st))
  end.

(** ** Further scenarios *)

(** Messages of the two classes of the module only. *)
Definition E_stock : Env :=
  mkEnv (λ _ _ _, mkScript [] (Return true))
        (λ _ _, mkScript [] (Return true))
        (λ _ _, mkScript [] (Return true))
        (λ pm other, Return (class_conflate (class_of pm) other)).

(** Hook 1 throws, and every handler posts a message and throws. *)
Definition E_faulty : Env :=
  mkEnv (λ k _ _, match k with
                  | HookFn 1 => mkScript [] (Throw (UserError 1))
                  | _ => mkScript [] (Return true)
                  end)
        (λ h m, mkScript [APost h msgB] (Throw (UserError 2)))
        (λ _ _, mkScript [] (Return true))
        (λ _ _, Return false).

(** With [st_rethrow] (handler 7 has a hook that throws and the
    exception handler throws too), [msgA] posted to handler 7 and
    [msgB] to handler 8. *)
Definition st_rethrow_posted : state :=
  fst (postMessage E_rethrow 0 8 msgB
         (fst (postMessage E_rethrow 0 7 msgA st_rethrow))).

(** * Proofs *)

(** ** Preservation of invariants by re-entrant user code

    A state invariant [I] that every elementary update of the engine
    preserves is preserved by every entry point, whatever the user code
    called back does, provided the user code only makes [allowed]
    calls. [sendable] bounds the handlers a message may be sent to,
    and [site] tells what is known where an event is logged. *)

Section Preserve.
Variable E : Env.
Variable dmin : nat.
Variable I : state -> Prop.
Variable allowed : action -> Prop.
Variable sendable : nat -> Prop.

Hypothesis E_hook : ∀ k h m, allowed_script allowed (hookBody E k h m).
Hypothesis E_process : ∀ h m, allowed_script allowed (processMessage E h m).
Hypothesis E_exc : ∀ n e, allowed_script allowed (handleException E n e).
Hypothesis A_send : ∀ h m, allowed (ASend h m) → sendable h.
Hypothesis I_log : ∀ st e,
  dmin ≤ ev_depth e → site sendable st e → I st → I (log e st).
Hypothesis I_install : ∀ st h k,
  allowed (AInstall h k) → I st → I (installMessageHook h k st).
Hypothesis I_remove : ∀ st h k,
  allowed (ARemove h k) → I st → I (removeMessageHook h k st).
Hypothesis I_clear : ∀ st h, allowed (AClear h) → I st → I (clearData h st).
Hypothesis I_setexc : ∀ st eh,
  allowed (ASetExceptionHandler eh) → I st → I (set_exceptionHandler eh st).
Hypothesis I_enqueue : ∀ st h m,
  allowed (APost h m) → I st → I (enqueueMessage h m st).
(** The loop runs inside user code only through [flush]. *)
Hypothesis I_queue : allowed AFlush → ∀ st p rest h,
  I st → messageQueue st = p :: rest → handler p = Some h → sendable h.
Hypothesis I_pop : allowed AFlush → ∀ st p rest,
  messageQueue st = p :: rest → I st → I (set_messageQueue rest st).
Hypothesis I_flush : allowed AFlush → ∀ st t,
  flushGuard st = false → pending st = Some t → I st →
  I (set_flushGuard true (set_pending None (cancel t st))) ∧
  (∀ st2, I st2 → I (set_flushGuard false st2)).
Hypothesis I_begin : allowed AFlush → ∀ st,
  pending st = None → I st → I (set_pending None st).
Hypothesis I_sentinel : allowed AFlush → ∀ st,
  I st →
  I (set_nextId (S (nextId st))
       (set_messageQueue (messageQueue st ++ [mkPosted (nextId st) None None]) st)).

Section Step.
Variable run : nat -> script -> M bool.
Variable gas : nat.
Hypothesis run_ok : ∀ d s st,
  dmin ≤ d → allowed_script allowed s → I st → I (fst (run d s st)).

Lemma invokeExceptionHandler_ok d err st :
  dmin ≤ d → I st → I (fst (invokeExceptionHandler E run d err st)).
Proof using All.
  intros Hd HI. unfold invokeExceptionHandler.
  assert (H1 : I (log (EvExc d (exceptionHandler st) err) st))
    by (apply I_log; simpl; auto).
  destruct (exceptionHandler st) as [|n]; simpl.
  - apply I_log; simpl; auto.
  - pose proof (run_ok (S d) (handleException E n err) _
                  ltac:(lia) (E_exc n err) H1) as H2.
    destruct (run (S d) (handleException E n err) _) as [st2 [b|e|]];
      simpl in *; auto; apply I_log; simpl; auto.
Qed.

Lemma invokeHook_ok d k h m st :
  dmin ≤ d → sendable h → (∃ i, hookAt h i st = Some k) → I st →
  I (fst (invokeHook E run d k h m st)).
Proof using All.
  intros Hd Hs Hk HI. unfold invokeHook.
  assert (H1 : I (log (EvHook d k h m) st)) by (apply I_log; simpl; auto).
  pose proof (run_ok (S d) (hookBody E k h m) _
                ltac:(lia) (E_hook k h m) H1) as H2.
  destruct (run (S d) (hookBody E k h m) _) as [st2 [b|e|]];
    simpl in *; auto.
  - apply I_log; simpl; auto.
  - unfold bind.
    pose proof (invokeExceptionHandler_ok d e
                  (log (EvHookRet d k (Throw e)) st2) Hd
                  ltac:(apply I_log; simpl; auto)) as H3.
    destruct (invokeExceptionHandler E run d e _) as [st3 [[]|e'|]];
      simpl in *; auto.
Qed.

Lemma invokeHandler_ok d h m st :
  dmin ≤ d → sendable h → I st → I (fst (invokeHandler E run d h m st)).
Proof using All.
  intros Hd Hs HI. unfold invokeHandler.
  assert (H1 : I (log (EvProcess d h m) st)) by (apply I_log; simpl; auto).
  pose proof (run_ok (S d) (processMessage E h m) _
                ltac:(lia) (E_process h m) H1) as H2.
  destruct (run (S d) (processMessage E h m) _) as [st2 [b|e|]];
    simpl in *; auto.
  - apply I_log; simpl; auto.
  - apply invokeExceptionHandler_ok; auto. apply I_log; simpl; auto.
Qed.

Lemma everyRetro_ok n d h m st :
  dmin ≤ d → sendable h → I st → I (fst (everyRetro E run n d h m st)).
Proof using All.
  intros Hd Hs. revert st. induction n as [|i IH]; intros st HI; simpl; auto.
  destruct (hookAt h i st) as [k|] eqn:Hk; auto.
  unfold bind.
  pose proof (invokeHook_ok d k h m st Hd Hs (ex_intro _ i Hk) HI) as H1.
  destruct (invokeHook E run d k h m st) as [st1 [[|]|e|]]; simpl in *; auto.
Qed.

Lemma sendMessage_ok d h m st :
  dmin ≤ d → sendable h → I st → I (fst (sendMessage E run d h m st)).
Proof using All.
  intros Hd Hs HI. unfold sendMessage.
  destruct (messageHooks st !! h) as [[|x r]|];
    try (apply invokeHandler_ok; auto).
  unfold bind.
  pose proof (everyRetro_ok (length (x :: r)) d h m st Hd Hs HI) as H1.
  destruct (everyRetro E run _ d h m st) as [st1 [[|]|e|]]; simpl in *; auto.
  apply invokeHandler_ok; auto.
Qed.

Lemma someConflate_ok d h m q st :
  dmin ≤ d → I st → I (fst (someConflate E d h m q st)).
Proof using I_log.
  intros Hd. revert st. induction q as [|p q IH]; intros st HI; simpl; auto.
  destruct (conflationTarget h m p) as [pm|]; auto.
  destruct (conflate E pm m) as [[|]|e]; simpl;
    try apply IH; apply I_log; simpl; auto.
Qed.

Lemma postMessage_ok d h m st :
  dmin ≤ d → allowed (APost h m) → I st →
  I (fst (postMessage E d h m st)).
Proof using I_log I_enqueue.
  intros Hd Ha HI. unfold postMessage.
  destruct (isConflatable m); simpl; auto.
  unfold bind.
  pose proof (someConflate_ok d h m (messageQueue st) st Hd HI) as H1.
  destruct (someConflate E d h m _ st) as [st1 [[|]|e|]]; simpl in *; auto.
Qed.

Lemma loop_ok g d s st :
  allowed AFlush → dmin ≤ d → I st → I (fst (loop E run g d s st)).
Proof using All.
  intros Ha Hd. revert st. induction g as [|g IH]; intros st HI; simpl; auto.
  destruct (messageQueue st) as [|p rest] eqn:Hq; simpl; auto.
  pose proof (I_pop Ha st p rest Hq HI) as H1.
  destruct (eid p =? s); simpl; auto.
  destruct (handler p) as [h|] eqn:Hh; auto.
  destruct (msg p) as [m|]; auto.
  unfold bind.
  pose proof (sendMessage_ok d h m _ Hd (I_queue Ha st p rest h HI Hq Hh) H1)
    as H2.
  destruct (sendMessage E run d h m _) as [st2 [[]|e|]]; simpl in *; auto.
Qed.

Lemma runMessageLoop_ok d st :
  allowed AFlush → dmin ≤ d → I (set_pending None st) →
  I (fst (runMessageLoop E run gas d st)).
Proof using All.
  intros Ha Hd H1. unfold runMessageLoop.
  destruct (messageQueue (set_pending None st)) eqn:Hq; [simpl; auto|].
  apply loop_ok; auto. rewrite <- Hq. apply (I_sentinel Ha _ H1).
Qed.

Lemma flush_ok d st :
  dmin ≤ d → allowed AFlush → I st → I (fst (flush E run gas d st)).
Proof using All.
  intros Hd Ha HI. unfold flush.
  destruct (flushGuard st) eqn:Hg; auto.
  destruct (pending st) as [t|] eqn:Hp; auto.
  destruct (I_flush Ha st t Hg Hp HI) as [H1 H2].
  unfold bind.
  pose proof (runMessageLoop_ok d
                (set_flushGuard true (set_pending None (cancel t st))) Ha Hd
                (I_begin Ha
                   (set_flushGuard true (set_pending None (cancel t st)))
                   eq_refl H1)) as H3.
  destruct (runMessageLoop E run gas d _) as [st2 [[]|e|]]; simpl in *; auto.
Qed.

Lemma doAction_ok d a st :
  dmin ≤ d → allowed a → I st → I (fst (doAction E run gas d a st)).
Proof using All.
  intros Hd Ha HI. destruct a; simpl; auto.
  - apply sendMessage_ok; eauto.
  - apply postMessage_ok; auto.
  - apply flush_ok; auto.
Qed.

Lemma runActions_ok d acts st :
  dmin ≤ d → Forall allowed acts → I st →
  I (fst (runActions E run gas d acts st)).
Proof using All.
  intros Hd Ha. revert st.
  induction Ha as [|a r Ha _ IH]; intros st HI; simpl; auto.
  unfold bind. pose proof (doAction_ok d a st Hd Ha HI) as H1.
  destruct (doAction E run gas d a st) as [st1 [[]|e|]]; simpl in *; auto.
Qed.
End Step.

Lemma runScript_ok fuel : ∀ d s st,
  dmin ≤ d → allowed_script allowed s → I st →
  I (fst (runScript E fuel d s st)).
Proof using All.
  induction fuel as [|f IH]; intros d s st Hd Hs HI; simpl; auto.
  unfold bind.
  pose proof (runActions_ok (runScript E f) f IH d (actions s) st Hd Hs HI)
    as H1.
  destruct (runActions E (runScript E f) f d (actions s) st)
    as [st1 [[]|e|]]; simpl in *; auto.
  destruct (final s); auto.
Qed.
End Preserve.

Section Preserved.
Context {E : Env} {dmin : nat} {I : state -> Prop}
        {allowed : action -> Prop} {sendable : nat -> Prop}.
Hypothesis P : preserved E dmin I allowed sendable.

Ltac from_P lem :=
  destruct P; eapply lem; eauto; intros; eapply runScript_ok; eauto.

Lemma pres_runScript fuel d s st :
  dmin ≤ d → allowed_script allowed s → I st →
  I (fst (runScript E fuel d s st)).
Proof using P. destruct P; eapply runScript_ok; eauto. Qed.

Lemma pres_invokeExceptionHandler f d err st :
  dmin ≤ d → I st →
  I (fst (invokeExceptionHandler E (runScript E f) d err st)).
Proof using P. from_P invokeExceptionHandler_ok. Qed.

Lemma pres_invokeHook f d k h m st :
  dmin ≤ d → sendable h → (∃ i, hookAt h i st = Some k) → I st →
  I (fst (invokeHook E (runScript E f) d k h m st)).
Proof using P. from_P invokeHook_ok. Qed.

Lemma pres_invokeHandler f d h m st :
  dmin ≤ d → sendable h → I st →
  I (fst (invokeHandler E (runScript E f) d h m st)).
Proof using P. from_P invokeHandler_ok. Qed.

Lemma pres_everyRetro f n d h m st :
  dmin ≤ d → sendable h → I st →
  I (fst (everyRetro E (runScript E f) n d h m st)).
Proof using P. from_P everyRetro_ok. Qed.

Lemma pres_sendMessage f d h m st :
  dmin ≤ d → sendable h → I st →
  I (fst (sendMessage E (runScript E f) d h m st)).
Proof using P. from_P sendMessage_ok. Qed.

Lemma pres_postMessage d h m st :
  dmin ≤ d → allowed (APost h m) → I st → I (fst (postMessage E d h m st)).
Proof using P. destruct P; eapply postMessage_ok; eauto. Qed.

Lemma pres_loop f g d s st :
  allowed AFlush → dmin ≤ d → I st →
  I (fst (loop E (runScript E f) g d s st)).
Proof using P. from_P loop_ok. Qed.

Lemma pres_runMessageLoop f g d st :
  allowed AFlush → dmin ≤ d → I (set_pending None st) →
  I (fst (runMessageLoop E (runScript E f) g d st)).
Proof using P. from_P runMessageLoop_ok. Qed.

Lemma pres_flush f g d st :
  dmin ≤ d → allowed AFlush → I st →
  I (fst (flush E (runScript E f) g d st)).
Proof using P. from_P flush_ok. Qed.

Lemma pres_doAction f g d a st :
  dmin ≤ d → allowed a → I st →
  I (fst (doAction E (runScript E f) g d a st)).
Proof using P. from_P doAction_ok. Qed.

Lemma pres_runActions f g d acts st :
  dmin ≤ d → Forall allowed acts → I st →
  I (fst (runActions E (runScript E f) g d acts st)).
Proof using P. from_P runActions_ok. Qed.
End Preserved.

(** ** Frame properties of the elementary updates *)

Ltac unfold_ops :=
  unfold installMessageHook, removeMessageHook, clearData, enqueueMessage,
    scheduleCleanup, schedule, cancel, setExceptionHandler, cleanupHooks in *.

Ltac frame := intros; unfold_ops; repeat case_match; simplify_eq/=; try done.

Lemma trace_installMessageHook h k st :
  trace (installMessageHook h k st) = trace st.
Proof. frame. Qed.
Lemma trace_removeMessageHook h k st :
  trace (removeMessageHook h k st) = trace st.
Proof. frame. Qed.
Lemma trace_clearData h st : trace (clearData h st) = trace st.
Proof. frame. Qed.
Lemma trace_enqueueMessage h m st : trace (enqueueMessage h m st) = trace st.
Proof. frame. Qed.

Lemma messageHooks_enqueueMessage h m st :
  messageHooks (enqueueMessage h m st) = messageHooks st.
Proof. frame. Qed.

Lemma messageQueue_installMessageHook h k st :
  messageQueue (installMessageHook h k st) = messageQueue st.
Proof. frame. Qed.
Lemma messageQueue_removeMessageHook h k st :
  messageQueue (removeMessageHook h k st) = messageQueue st.
Proof. frame. Qed.

Lemma allowed_script_True s : allowed_script (λ _, True) s.
Proof. unfold allowed_script. by apply Forall_forall. Qed.

Lemma env_allowed_E_plain (allowed : action → Prop) : env_allowed allowed E_plain.
Proof. repeat split; intros; apply Forall_nil_2. Qed.

(** ** Nesting discipline of the trace

    An engine call at depth [d] only appends events, all of depth at
    least [d]; the events of depth exactly [d] are the calls it made
    itself. *)

Lemma extends_refl st d : extends (trace st) d st.
Proof. exists []. by rewrite app_nil_r. Qed.

Lemma extends_log tr0 dmin e st :
  dmin ≤ ev_depth e → extends tr0 dmin st → extends tr0 dmin (log e st).
Proof.
  intros He (new & Ht & Hn). exists (new ++ [e]). simpl. rewrite Ht.
  split; [by rewrite app_assoc|]. apply Forall_app. split; [done|].
  by apply Forall_singleton.
Qed.

Lemma extends_frame tr0 dmin st st' :
  trace st' = trace st → extends tr0 dmin st → extends tr0 dmin st'.
Proof. intros Heq (new & Ht & Hn). exists new. by rewrite Heq. Qed.

Lemma extends_weaken tr0 d1 d2 st :
  d1 ≤ d2 → extends tr0 d2 st → extends tr0 d1 st.
Proof.
  intros Hle (new & Ht & Hn). exists new. split; [done|].
  eapply Forall_impl; [exact Hn|]. simpl. lia.
Qed.

Lemma extends_trans tr0 d st1 st2 :
  extends tr0 d st1 → extends (trace st1) d st2 → extends tr0 d st2.
Proof.
  intros (n1 & H1 & F1) (n2 & H2 & F2). exists (n1 ++ n2).
  rewrite H2, H1, app_assoc. split; [done|]. by apply Forall_app.
Qed.

Lemma preserved_extends E tr0 dmin :
  preserved E dmin (extends tr0 dmin) (λ _, True) (λ _, True).
Proof.
  split; try done; try (intros; apply allowed_script_True);
    try (intros; eapply extends_frame; [|eassumption]; by frame).
  intros. by apply extends_log.
Qed.

Lemma runScript_extends E f d s st :
  extends (trace st) d (fst (runScript E f d s st)).
Proof.
  apply (pres_runScript (preserved_extends E (trace st) d)); auto.
  - apply allowed_script_True.
  - apply extends_refl.
Qed.

Lemma sendMessage_extends E f d h m st :
  extends (trace st) d (fst (sendMessage E (runScript E f) d h m st)).
Proof.
  apply (pres_sendMessage (preserved_extends E (trace st) d)); auto.
  apply extends_refl.
Qed.

Lemma runMessageLoop_extends E f g d st :
  extends (trace st) d (fst (runMessageLoop E (runScript E f) g d st)).
Proof.
  unfold runMessageLoop.
  destruct (messageQueue (set_pending None st)) eqn:Hq;
    [apply (extends_refl (set_pending None st))|].
  apply (pres_loop (preserved_extends E (trace st) d)); auto.
  apply (extends_refl (set_pending None st)).
Qed.

Lemma at_depth_app d t1 t2 :
  at_depth d (t1 ++ t2) = at_depth d t1 ++ at_depth d t2.
Proof. apply filter_app. Qed.

Lemma at_depth_deeper d tr :
  Forall (λ e, S d ≤ ev_depth e) tr → at_depth d tr = [].
Proof.
  induction 1 as [|e tr He _ IH]; [done|].
  unfold at_depth in *. rewrite filter_cons, IH.
  destruct (decide (ev_depth e = d)); [lia|done].
Qed.

Lemma at_depth_here d e tr :
  ev_depth e = d → at_depth d (e :: tr) = e :: at_depth d tr.
Proof. intros H. unfold at_depth. rewrite filter_cons. by rewrite decide_True. Qed.

(** ** What one call shows at its own depth *)

Ltac top_events H :=
  repeat first
    [ rewrite at_depth_app
    | rewrite (at_depth_deeper _ _ H)
    | rewrite at_depth_here by reflexivity
    | rewrite app_nil_r ];
  simpl.

Section TopLevel.
Variable E : Env.
Variable f : nat.
Variable d : nat.

Lemma invokeExceptionHandler_top err st :
  ∃ new,
    trace (fst (invokeExceptionHandler E (runScript E f) d err st))
      = trace st ++ new ∧
    exc_trace d (exceptionHandler st) err (at_depth d new)
      (snd (invokeExceptionHandler E (runScript E f) d err st)).
Proof.
  unfold invokeExceptionHandler.
  destruct (exceptionHandler st) as [|n] eqn:Heh; simpl.
  - eexists [_; _]. split; [by rewrite <- app_assoc|].
    top_events I. constructor.
  - destruct (runScript_extends E f (S d) (handleException E n err)
                (log (EvExc d (CustomHandler n) err) st))
      as (new & Ht & Hn).
    destruct (runScript E f (S d) _ _) as [st2 [b|e|]]; simpl in *;
      rewrite Ht, <- ?app_assoc; simpl.
    + eexists (_ :: new ++ [_]). split; [done|]. top_events Hn. constructor.
    + eexists (_ :: new ++ [_]). split; [done|]. top_events Hn. constructor.
    + eexists (_ :: new). split; [done|]. top_events Hn. constructor.
Qed.

Lemma invokeHook_top k h m st :
  ∃ new,
    trace (fst (invokeHook E (runScript E f) d k h m st)) = trace st ++ new ∧
    hook_trace d k h m (at_depth d new)
      (snd (invokeHook E (runScript E f) d k h m st)).
Proof.
  unfold invokeHook.
  destruct (runScript_extends E f (S d) (hookBody E k h m)
              (log (EvHook d k h m) st)) as (new & Ht & Hn).
  destruct (runScript E f (S d) _ _) as [st2 [b|e|]]; simpl in *.
  - eexists (_ :: new ++ [_]). rewrite Ht, <- ?app_assoc.
    split; [done|]. top_events Hn. constructor.
  - unfold bind.
    destruct (invokeExceptionHandler_top e (log (EvHookRet d k (Throw e)) st2))
      as (new2 & Ht2 & Hx).
    destruct (invokeExceptionHandler E (runScript E f) d e _)
      as [st3 r]; simpl in *.
    exists (EvHook d k h m :: new ++ EvHookRet d k (Throw e) :: new2).
    split.
    + destruct r as [[]|?|]; simpl; rewrite Ht2, Ht, <- ?app_assoc; done.
    + top_events Hn.
      replace (snd _) with (as_passed r) by (by destruct r as [[]|?|]).
      by econstructor.
  - eexists (_ :: new). rewrite Ht, <- ?app_assoc.
    split; [done|]. top_events Hn. constructor.
Qed.

Lemma invokeHandler_top h m st :
  ∃ new,
    trace (fst (invokeHandler E (runScript E f) d h m st)) = trace st ++ new ∧
    handler_trace d h m (at_depth d new)
      (snd (invokeHandler E (runScript E f) d h m st)).
Proof.
  unfold invokeHandler.
  destruct (runScript_extends E f (S d) (processMessage E h m)
              (log (EvProcess d h m) st)) as (new & Ht & Hn).
  destruct (runScript E f (S d) _ _) as [st2 [b|e|]]; simpl in *.
  - eexists (_ :: new ++ [_]). rewrite Ht, <- ?app_assoc.
    split; [done|]. top_events Hn. constructor.
  - destruct (invokeExceptionHandler_top e
                (log (EvProcessRet d h (Throw e)) st2)) as (new2 & Ht2 & Hx).
    exists (EvProcess d h m :: new ++ EvProcessRet d h (Throw e) :: new2).
    split.
    + rewrite Ht2. simpl. rewrite Ht, <- ?app_assoc. done.
    + top_events Hn. by econstructor.
  - eexists (_ :: new). rewrite Ht, <- ?app_assoc.
    split; [done|]. top_events Hn. constructor.
Qed.
End TopLevel.

(** ** Hook arrays only decay while user code runs

    Between two clean-ups, the slots of a hook array are never moved
    and never revived: a slot keeps its hook or becomes [null], and
    the array can only grow at its end. *)

Lemma decayed_refl arr : decayed arr arr.
Proof. split; auto. Qed.

Lemma decayed_trans a b c : decayed a b → decayed b c → decayed a c.
Proof.
  intros [L1 H1] [L2 H2]. split; [lia|]. intros i x Hx.
  destruct (H1 i x Hx) as [Hb|Hb]; destruct (H2 i _ Hb); auto.
Qed.

Lemma decayed_push arr k : decayed arr (arr ++ [Some k]).
Proof.
  split; [rewrite length_app; lia|]. intros i x Hx. left.
  rewrite lookup_app_l; [done|]. by eapply lookup_lt_Some.
Qed.

Lemma decayed_tombstone (arr : list (option MessageHook)) i :
  decayed arr (<[i := None]> arr).
Proof.
  split; [by rewrite length_insert|]. intros j x Hx.
  destruct (decide (i = j)) as [->|Hne].
  - right. apply list_lookup_insert_eq. by eapply lookup_lt_Some.
  - left. by rewrite list_lookup_insert_ne.
Qed.

Lemma decayed_fill arr : decayed arr (fill_null arr).
Proof.
  unfold fill_null. split; [by rewrite length_replicate|]. intros i x Hx.
  right. apply lookup_replicate_2. by eapply lookup_lt_Some.
Qed.

Lemma newest_first_snoc arr x :
  newest_first (arr ++ [x]) =
  match x with Some k => k :: newest_first arr | None => newest_first arr end.
Proof.
  unfold newest_first. rewrite omap_app. simpl.
  destruct x; simpl; [by rewrite reverse_snoc|by rewrite app_nil_r].
Qed.

Lemma decayed_newest_first arr0 arr n :
  decayed arr0 arr → n ≤ length arr0 →
  newest_first (take n arr) `sublist_of` newest_first (take n arr0).
Proof.
  intros [HL HD]. induction n as [|n IH]; intros Hn; [done|].
  destruct (lookup_lt_is_Some_2 arr0 n ltac:(lia)) as [x Hx].
  destruct (HD n x Hx) as [Hy|Hy];
    rewrite (take_S_r _ _ _ Hx), (take_S_r _ _ _ Hy), !newest_first_snoc.
  - destruct x; [apply sublist_skip|]; apply IH; lia.
  - destruct x; [apply sublist_cons|]; apply IH; lia.
Qed.

Lemma tombstoned_from_refl arr h st :
  messageHooks st !! h = Some arr → tombstoned_from arr h st.
Proof. intros H. exists arr. split; [done|apply decayed_refl]. Qed.

Lemma tombstoned_from_frame arr0 h st st' :
  messageHooks st' = messageHooks st →
  tombstoned_from arr0 h st → tombstoned_from arr0 h st'.
Proof. intros Heq (arr & H & D). exists arr. by rewrite Heq. Qed.

Lemma tombstoned_from_set arr0 h h' arr arr' st st' :
  messageHooks st !! h' = Some arr →
  messageHooks st' = <[h' := arr']> (messageHooks st) →
  decayed arr arr' →
  tombstoned_from arr0 h st → tombstoned_from arr0 h st'.
Proof.
  intros Hh' Heq Hd (a & Ha & Da). unfold tombstoned_from. rewrite Heq.
  destruct (decide (h' = h)) as [->|Hne].
  - rewrite lookup_insert_eq. exists arr'. split; [done|].
    eapply decayed_trans; [exact Da|]. by simplify_eq.
  - rewrite lookup_insert_ne; [|done]. by exists a.
Qed.

Lemma messageHooks_scheduleCleanup h st :
  messageHooks (scheduleCleanup h st) = messageHooks st.
Proof. frame. Qed.

Lemma tombstoned_install arr0 h h' k st :
  tombstoned_from arr0 h st → tombstoned_from arr0 h (installMessageHook h' k st).
Proof.
  intros HT. unfold installMessageHook.
  destruct (messageHooks st !! h') as [hooks|] eqn:Hh'.
  - destruct (indexOf k hooks); [done|].
    eapply tombstoned_from_set; [exact Hh'|done|apply decayed_push|done].
  - destruct HT as (a & Ha & Da). exists a. simpl.
    rewrite lookup_insert_ne; [done|]. congruence.
Qed.

Lemma tombstoned_remove arr0 h h' k st :
  tombstoned_from arr0 h st → tombstoned_from arr0 h (removeMessageHook h' k st).
Proof.
  intros HT. unfold removeMessageHook.
  destruct (messageHooks st !! h') as [hooks|] eqn:Hh'; [|done].
  destruct (indexOf k hooks) as [i|]; [|done].
  eapply tombstoned_from_frame; [apply messageHooks_scheduleCleanup|].
  eapply tombstoned_from_set; [exact Hh'|done|apply decayed_tombstone|done].
Qed.

Lemma tombstoned_clear arr0 h h' st :
  tombstoned_from arr0 h st → tombstoned_from arr0 h (clearData h' st).
Proof.
  intros HT. unfold clearData.
  eapply tombstoned_from_frame; [reflexivity|].
  destruct (messageHooks st !! h') as [[|x r]|] eqn:Hh'; try done.
  eapply tombstoned_from_frame; [apply messageHooks_scheduleCleanup|].
  eapply tombstoned_from_set; [exact Hh'|done|apply decayed_fill|done].
Qed.

Lemma preserved_tombstoned E dmin arr0 h :
  preserved E dmin (tombstoned_from arr0 h) (λ _, True) (λ _, True).
Proof.
  split; try done; try (intros; apply allowed_script_True).
  - intros. by apply tombstoned_install.
  - intros. by apply tombstoned_remove.
  - intros. by apply tombstoned_clear.
  - intros. eapply tombstoned_from_frame; [|eassumption].
    apply messageHooks_enqueueMessage.
Qed.

(** ** The hook chain of one [sendMessage] *)
Section Chain.
Variable E : Env.
Variable f : nat.
Variable d : nat.
Variable h : nat.
Variable m : Message.

Lemma hookAt_lookup st arr i x :
  messageHooks st !! h = Some arr → arr !! i = Some x → hookAt h i st = x.
Proof. intros H1 H2. unfold hookAt. by rewrite H1, H2. Qed.

Lemma hookAt_decayed st arr0 i x k :
  tombstoned_from arr0 h st → arr0 !! i = Some x →
  hookAt h i st = Some k → x = Some k.
Proof.
  intros (arr & Ha & _ & HD) Hx Hk.
  destruct (HD i x Hx) as [Hy|Hy];
    rewrite (hookAt_lookup st arr i _ Ha Hy) in Hk; congruence.
Qed.

(** The walk over the last [n] slots still to visit. *)
Lemma everyRetro_top n : ∀ st arr st' r,
  messageHooks st !! h = Some arr → n ≤ length arr →
  everyRetro E (runScript E f) n d h m st = (st', r) →
  ∃ new ks,
    trace st' = trace st ++ new ∧
    tombstoned_from arr h st' ∧
    ks `sublist_of` newest_first (take n arr) ∧
    chain_trace d h m ks (at_depth d new) r ∧
    (r = Done true → ∀ i k, i < n → hookAt h i st' = Some k → k ∈ ks).
Proof.
  induction n as [|i IH]; intros st arr st' r Harr Hn Hrun; simpl in Hrun.
  - injection Hrun as <- <-. exists [], [].
    rewrite app_nil_r. repeat split.
    + by apply tombstoned_from_refl.
    + apply sublist_nil_l.
    + constructor.
    + intros _ j k Hj. lia.
  - destruct (lookup_lt_is_Some_2 arr i ltac:(lia)) as [x Hx].
    rewrite (hookAt_lookup st arr i x Harr Hx) in Hrun.
    rewrite (take_S_r _ _ _ Hx), newest_first_snoc.
    destruct x as [k|].
    + unfold bind in Hrun.
      destruct (invokeHook_top E f d k h m st) as (new1 & Ht1 & Hh1).
      assert (HT1 : tombstoned_from arr h
                      (fst (invokeHook E (runScript E f) d k h m st))).
      { apply (pres_invokeHook (preserved_tombstoned E d arr h));
          auto using tombstoned_from_refl.
        exists i. by apply (hookAt_lookup st arr i (Some k)). }
      destruct (invokeHook E (runScript E f) d k h m st) as [st1 r1];
        simpl in *.
      destruct r1 as [[|]|e|].
      * destruct HT1 as (arr1 & Harr1 & HD1).
        destruct (IH st1 arr1 st' r Harr1 ltac:(destruct HD1; lia) Hrun)
          as (new2 & ks & Ht2 & HT2 & Hsub & Hch & Hall).
        exists (new1 ++ new2), (k :: ks). repeat split.
        -- by rewrite Ht2, Ht1, app_assoc.
        -- destruct HT2 as (arr2 & Harr2 & HD2). exists arr2.
           split; [done|]. by eapply decayed_trans.
        -- apply sublist_skip. etrans; [exact Hsub|].
           apply decayed_newest_first; [done|lia].
        -- rewrite at_depth_app. by eapply chain_pass.
        -- intros Hr j k' Hj Hk'.
           destruct (decide (j = i)) as [->|Hne].
           ++ assert (Some k = Some k') as [= <-]; [|left].
              eapply (hookAt_decayed st' arr i); [|exact Hx|exact Hk'].
              destruct HT2 as (arr2 & Harr2 & HD2). exists arr2.
              split; [done|]. by eapply decayed_trans.
           ++ right. eapply (Hall Hr j); [lia|done].
      * injection Hrun as <- <-. exists new1, [k]. repeat split; auto.
        -- apply sublist_skip, sublist_nil_l.
        -- by apply chain_stop.
        -- done.
      * injection Hrun as <- <-. exists new1, [k]. repeat split; auto.
        -- apply sublist_skip, sublist_nil_l.
        -- by apply chain_stop.
        -- done.
      * injection Hrun as <- <-. exists new1, [k]. repeat split; auto.
        -- apply sublist_skip, sublist_nil_l.
        -- by apply chain_stop.
        -- done.
    + destruct (IH st arr st' r Harr ltac:(lia) Hrun)
        as (new & ks & Ht & HT & Hsub & Hch & Hall).
      exists new, ks. repeat split; auto.
      intros Hr j k' Hj Hk'.
      destruct (decide (j = i)) as [->|Hne]; [|eapply (Hall Hr j); [lia|done]].
      by pose proof (hookAt_decayed st' arr i None k' HT Hx Hk').
Qed.

Lemma sendMessage_extends_eq st st' r :
  sendMessage E (runScript E f) d h m st = (st', r) →
  ∃ new, trace st' = trace st ++ new.
Proof.
  intros Hrun. destruct (sendMessage_extends E f d h m st) as (new & Hn & _).
  rewrite Hrun in Hn. eauto.
Qed.

Lemma exc_trace_no_process eh e tr r h' m' :
  exc_trace d eh e tr r → EvProcess d h' m' ∉ tr.
Proof.
  intros H Hin. inversion H; subst;
    repeat (apply elem_of_cons in Hin as [Hin|Hin]; [done|]);
    by apply elem_of_nil in Hin.
Qed.

Lemma hook_trace_no_process k tr r h' m' :
  hook_trace d k h m tr r → EvProcess d h' m' ∉ tr.
Proof.
  intros H Hin. inversion H as [|? ? ? ? Hx|]; subst;
    repeat (apply elem_of_cons in Hin as [Hin|Hin]; [done|]);
    [by apply elem_of_nil in Hin| |by apply elem_of_nil in Hin].
  by apply (exc_trace_no_process _ _ _ _ h' m') in Hx.
Qed.

Lemma chain_trace_no_process ks tr r h' m' :
  chain_trace d h m ks tr r → EvProcess d h' m' ∉ tr.
Proof.
  induction 1 as [|k ks tr1 tr2 r Hh _ IH|k tr r Hh _].
  - apply not_elem_of_nil.
  - apply (hook_trace_no_process _ _ _ h' m') in Hh.
    intros [?|?]%elem_of_app; done.
  - by apply (hook_trace_no_process _ _ _ h' m') in Hh.
Qed.

(** The structure of one [sendMessage]: the hooks called are live
    hooks of the array as it was at the start, newest first; what the
    call shows at its own depth is the chain followed, if the chain
    passed, by the handler; and when the handler was called, no hook
    that is still installed afterwards was skipped. *)
Lemma sendMessage_top st st' r :
  sendMessage E (runScript E f) d h m st = (st', r) →
  ∃ new ks,
    trace st' = trace st ++ new ∧
    ks `sublist_of` newest_first (default [] (messageHooks st !! h)) ∧
    send_trace d h m ks (at_depth d new) r ∧
    (EvProcess d h m ∈ at_depth d new →
     ∀ i k, i < length (default [] (messageHooks st !! h)) →
            hookAt h i st' = Some k → k ∈ ks).
Proof.
  unfold sendMessage. intros Hrun.
  destruct (messageHooks st !! h) as [arr|] eqn:Harr; simpl.
  2:{ destruct (invokeHandler_top E f d h m st) as (new & Ht & Hh).
      rewrite Hrun in Ht, Hh. simpl in *. exists new, []. repeat split; auto.
      - apply (send_passed d h m [] [] _ r); [constructor|done].
      - intros _ i k Hi. lia. }
  destruct arr as [|x rest].
  { destruct (invokeHandler_top E f d h m st) as (new & Ht & Hh).
    rewrite Hrun in Ht, Hh. simpl in *. exists new, []. repeat split; auto.
    - apply (send_passed d h m [] [] _ r); [constructor|done].
    - intros _ i k Hi. lia. }
  unfold bind in Hrun. remember (x :: rest) as arr eqn:Earr.
  destruct (everyRetro E (runScript E f) (length arr) d h m st)
    as [st1 r1] eqn:Hev.
  destruct (everyRetro_top (length arr) st arr st1 r1 Harr (le_n _) Hev)
    as (new1 & ks & Ht1 & HT1 & Hsub & Hch & Hall).
  rewrite firstn_all in Hsub.
  destruct r1 as [[|]|e|].
  - destruct (invokeHandler_top E f d h m st1) as (new2 & Ht2 & Hh).
    assert (HT2 : ∀ a, messageHooks st1 !! h = Some a →
              tombstoned_from a h
                (fst (invokeHandler E (runScript E f) d h m st1))).
    { intros a Ha.
      apply (pres_invokeHandler (preserved_tombstoned E d a h));
        auto using tombstoned_from_refl. }
    rewrite Hrun in Ht2, Hh, HT2. simpl in *.
    exists (new1 ++ new2), ks. repeat split; auto.
    + by rewrite Ht2, Ht1, app_assoc.
    + rewrite at_depth_app. by eapply send_passed.
    + intros _ i k Hi Hk. apply (Hall eq_refl i k Hi).
      destruct HT1 as (arr1 & Harr1 & HD1).
      destruct (lookup_lt_is_Some_2 arr1 i ltac:(destruct HD1; lia))
        as [y Hy].
      rewrite (hookAt_lookup st1 arr1 i y Harr1 Hy).
      by apply (hookAt_decayed st' arr1 i y k (HT2 arr1 Harr1)).
  - injection Hrun as <- <-. exists new1, ks. repeat split; auto.
    + by apply send_vetoed.
    + intros Hin. by apply (chain_trace_no_process _ _ _ h m) in Hch.
  - injection Hrun as <- <-. exists new1, ks. repeat split; auto.
    + by apply send_thrown.
    + intros Hin. by apply (chain_trace_no_process _ _ _ h m) in Hch.
  - injection Hrun as <- <-. exists new1, ks. repeat split; auto.
    + by apply send_fuel.
    + intros Hin. by apply (chain_trace_no_process _ _ _ h m) in Hch.
Qed.
End Chain.

(** ** Reading a trace *)

Lemma hook_calls_app t1 t2 : hook_calls (t1 ++ t2) = hook_calls t1 ++ hook_calls t2.
Proof. apply omap_app. Qed.
Lemma hook_rets_app t1 t2 : hook_rets (t1 ++ t2) = hook_rets t1 ++ hook_rets t2.
Proof. apply omap_app. Qed.
Lemma deliveries_app t1 t2 : deliveries (t1 ++ t2) = deliveries t1 ++ deliveries t2.
Proof. apply omap_app. Qed.

Section Reading.
Variable d : nat.
Variable h : nat.
Variable m : Message.

Lemma exc_trace_reading eh e tr r :
  exc_trace d eh e tr r →
  hook_calls tr = [] ∧ hook_rets tr = [] ∧ deliveries tr = [] ∧
  routed tr = [(eh, e)].
Proof. by inversion 1. Qed.

Lemma hook_trace_reading k tr r :
  hook_trace d k h m tr r →
  hook_calls tr = [k] ∧ deliveries tr = [] ∧
  ((∃ b, hook_rets tr = [(k, Return b)] ∧ r = Done b ∧
         tr = [EvHook d k h m; EvHookRet d k (Return b)]) ∨
   (∃ e, hook_rets tr = [(k, Throw e)]) ∨
   (hook_rets tr = [] ∧ r = OutOfFuel)).
Proof.
  inversion 1 as [b|e eh tr' r' Hx|]; subst; simpl.
  - repeat split. left. by exists b.
  - destruct (exc_trace_reading _ _ _ _ Hx) as (-> & -> & -> & _).
    repeat split. right. left. by exists e.
  - repeat split. right. by right.
Qed.

Lemma handler_trace_reading tr r :
  handler_trace d h m tr r →
  hook_calls tr = [] ∧ hook_rets tr = [] ∧ deliveries tr = [(h, m)].
Proof.
  inversion 1 as [b|e eh tr' r' Hx|]; subst; simpl; try done.
  by destruct (exc_trace_reading _ _ _ _ Hx) as (-> & -> & -> & _).
Qed.

Lemma chain_trace_reading ks tr r :
  chain_trace d h m ks tr r → hook_calls tr = ks ∧ deliveries tr = [].
Proof.
  induction 1 as [|k ks tr1 tr2 r Hh _ [IH1 IH2]|k tr r Hh _]; [done| |].
  - destruct (hook_trace_reading _ _ _ Hh) as (Hc & Hd & _).
    by rewrite hook_calls_app, deliveries_app, Hc, Hd, IH1, IH2.
  - by destruct (hook_trace_reading _ _ _ Hh) as (Hc & Hd & _).
Qed.

(** A chain in which every hook called returned [true] passed. *)
Lemma chain_trace_all_true ks tr r :
  chain_trace d h m ks tr r →
  hook_rets tr = map (λ k, (k, Return true)) ks → r = Done true.
Proof.
  induction 1 as [|k ks tr1 tr2 r Hh _ IH|k tr r Hh Hr]; [done| |].
  - destruct (hook_trace_reading _ _ _ Hh)
      as (_ & _ & [(b & Hb & _)|[(e & He)|(Hf & ?)]]); [| |done].
    + rewrite hook_rets_app, Hb. simpl. intros [= _ Hrest]. auto.
    + rewrite hook_rets_app, He. simpl. intros [=].
  - destruct (hook_trace_reading _ _ _ Hh)
      as (_ & _ & [(b & Hb & -> & _)|[(e & He)|(Hf & ?)]]).
    + rewrite Hb. simpl. intros [= ->]. done.
    + rewrite He. simpl. intros [=].
    + rewrite Hf. simpl. intros [=].
Qed.

Lemma exc_trace_no_veto eh e tr r k :
  exc_trace d eh e tr r → EvHookRet d k (Return false) ∉ tr.
Proof.
  intros H Hin. inversion H; subst;
    repeat (apply elem_of_cons in Hin as [Hin|Hin]; [done|]);
    by apply elem_of_nil in Hin.
Qed.

Lemma hook_trace_veto k k' tr r :
  hook_trace d k h m tr r → EvHookRet d k' (Return false) ∈ tr →
  tr = [EvHook d k h m; EvHookRet d k' (Return false)] ∧ r = Done false.
Proof.
  intros H Hin. inversion H as [b|e eh tr' r' Hx|]; subst;
    repeat (apply elem_of_cons in Hin as [Hin|Hin]; [by simplify_eq|]).
  - by apply elem_of_nil in Hin.
  - by apply (exc_trace_no_veto _ _ _ _ k') in Hx.
  - by apply elem_of_nil in Hin.
Qed.

Lemma handler_trace_no_veto tr r k :
  handler_trace d h m tr r → EvHookRet d k (Return false) ∉ tr.
Proof.
  intros H Hin. inversion H as [b|e eh tr' r' Hx|]; subst;
    repeat (apply elem_of_cons in Hin as [Hin|Hin]; [done|]);
    [by apply elem_of_nil in Hin| |by apply elem_of_nil in Hin].
  by apply (exc_trace_no_veto _ _ _ _ k) in Hx.
Qed.

(** The hook that returned [false] is the end of the chain. *)
Lemma chain_trace_veto ks tr r k :
  chain_trace d h m ks tr r → EvHookRet d k (Return false) ∈ tr →
  last tr = Some (EvHookRet d k (Return false)) ∧ r = Done false.
Proof.
  induction 1 as [|k0 ks tr1 tr2 r Hh _ IH|k0 tr r Hh _]; intros Hin.
  - by apply elem_of_nil in Hin.
  - apply elem_of_app in Hin as [Hin|Hin].
    + by destruct (hook_trace_veto _ _ _ _ Hh Hin) as [_ ?].
    + destruct (IH Hin) as [Hl ->]. split; [|done].
      by rewrite last_app, Hl.
  - by destruct (hook_trace_veto _ _ _ _ Hh Hin) as [-> ->].
Qed.

(** What a whole [sendMessage] shows at its own depth. *)
Lemma send_trace_reading ks top r :
  send_trace d h m ks top r →
  hook_calls top = ks ∧
  (∀ k, EvHookRet d k (Return false) ∈ top →
        last top = Some (EvHookRet d k (Return false)) ∧
        r = Done tt ∧ deliveries top = []) ∧
  (hook_rets top = map (λ k, (k, Return true)) ks →
   deliveries top = [(h, m)]) ∧
  (ks = [] → deliveries top = [(h, m)]).
Proof.
  intros Hsend.
  inversion Hsend as [? tr1 tr2 ? Hc Hh| ? ? Hc| ? ? ? Hc| ? ? Hc]; subst;
    destruct (chain_trace_reading _ _ _ Hc) as [Hk Hd1].
  - destruct (handler_trace_reading _ _ Hh) as (Hk2 & Hr2 & Hd2).
    rewrite hook_calls_app, deliveries_app, Hk, Hk2, Hd1, Hd2, app_nil_r.
    repeat split; auto.
    all: apply elem_of_app in H as [Hin|Hin];
      [by destruct (chain_trace_veto _ _ _ _ Hc Hin)
      |by apply (handler_trace_no_veto _ _ k) in Hh].
  - repeat split; auto.
    + by destruct (chain_trace_veto _ _ _ _ Hc H).
    + intros Hr. by pose proof (chain_trace_all_true _ _ _ Hc Hr).
    + intros ->. inversion Hc.
  - repeat split; auto.
    + by destruct (chain_trace_veto _ _ _ _ Hc H).
    + by destruct (chain_trace_veto _ _ _ _ Hc H).
    + intros Hr. by pose proof (chain_trace_all_true _ _ _ Hc Hr).
    + intros ->. inversion Hc.
  - repeat split; auto.
    + by destruct (chain_trace_veto _ _ _ _ Hc H).
    + by destruct (chain_trace_veto _ _ _ _ Hc H).
    + intros Hr. by pose proof (chain_trace_all_true _ _ _ Hc Hr).
    + intros ->. inversion Hc.
Qed.

Lemma deliveries_at_depth d' new h' m' :
  (h', m') ∈ deliveries (at_depth d' new) → EvProcess d' h' m' ∈ at_depth d' new.
Proof.
  intros Hin. unfold deliveries in Hin.
  apply list_elem_of_omap in Hin as (e & He & Hm).
  destruct e; simplify_eq.
  assert (d0 = d') as ->; [|done].
  unfold at_depth in He. by apply list_elem_of_filter in He as [? _].
Qed.
End Reading.

Lemma faults_app t1 t2 : faults (t1 ++ t2) = faults t1 ++ faults t2.
Proof. apply omap_app. Qed.
Lemma routed_app t1 t2 : routed (t1 ++ t2) = routed t1 ++ routed t2.
Proof. apply omap_app. Qed.

Ltac elem_cases H :=
  repeat (apply elem_of_cons in H as [H|H]; [try done; simplify_eq; try done|]);
  try (by apply elem_of_nil in H).

(** ** Exceptions in a trace *)
Section Exceptions.
Variable d : nat.
Variable h : nat.
Variable m : Message.

(** An exception handler that throws ends the call it serves. *)
Lemma exc_trace_throw eh e tr r e' :
  exc_trace d eh e tr r → EvExcRet d (Throw e') ∈ tr →
  r = Thrown e' ∧ last tr = Some (EvExcRet d (Throw e')).
Proof. intros H Hin. inversion H; subst; elem_cases Hin. Qed.

Lemma exc_trace_thrown eh e tr e' :
  exc_trace d eh e tr (Thrown e') → EvExcRet d (Throw e') ∈ tr.
Proof. inversion 1; subst. right. left. Qed.

Lemma hook_trace_throw k tr r e' :
  hook_trace d k h m tr r → EvExcRet d (Throw e') ∈ tr →
  r = Thrown e' ∧ last tr = Some (EvExcRet d (Throw e')).
Proof.
  intros H Hin. inversion H as [b|e eh tr' r' Hx|]; subst; elem_cases Hin.
  destruct (exc_trace_throw _ _ _ _ _ Hx Hin) as [-> Hl].
  split; [done|]. inversion Hx; subst; done.
Qed.

Lemma hook_trace_thrown k tr e' :
  hook_trace d k h m tr (Thrown e') → EvExcRet d (Throw e') ∈ tr.
Proof.
  inversion 1 as [b|e eh tr' r' Hx Heq|]; subst.
  destruct r' as [[]|e''|]; simplify_eq/=.
  do 2 right. by eapply exc_trace_thrown.
Qed.

Lemma hook_trace_routed k tr r :
  hook_trace d k h m tr r → map snd (routed tr) = faults tr.
Proof.
  inversion 1 as [b|e eh tr' r' Hx|]; subst; simpl; try done.
  inversion Hx; subst; done.
Qed.

Lemma handler_trace_throw tr r e' :
  handler_trace d h m tr r → EvExcRet d (Throw e') ∈ tr →
  r = Thrown e' ∧ last tr = Some (EvExcRet d (Throw e')).
Proof.
  intros H Hin. inversion H as [b|e eh tr' r' Hx|]; subst; elem_cases Hin.
  destruct (exc_trace_throw _ _ _ _ _ Hx Hin) as [-> Hl].
  split; [done|]. inversion Hx; subst; done.
Qed.

Lemma handler_trace_thrown tr e' :
  handler_trace d h m tr (Thrown e') → EvExcRet d (Throw e') ∈ tr.
Proof.
  inversion 1 as [b|e eh tr' r' Hx Heq|]; subst.
  do 2 right. by eapply exc_trace_thrown.
Qed.

Lemma handler_trace_routed tr r :
  handler_trace d h m tr r → map snd (routed tr) = faults tr.
Proof.
  inversion 1 as [b|e eh tr' r' Hx|]; subst; simpl; try done.
  inversion Hx; subst; done.
Qed.

Lemma chain_trace_throw ks tr r e' :
  chain_trace d h m ks tr r → EvExcRet d (Throw e') ∈ tr →
  r = Thrown e' ∧ last tr = Some (EvExcRet d (Throw e')).
Proof.
  induction 1 as [|k ks tr1 tr2 r Hh _ IH|k tr r Hh _]; intros Hin.
  - by apply elem_of_nil in Hin.
  - apply elem_of_app in Hin as [Hin|Hin].
    + by destruct (hook_trace_throw _ _ _ _ Hh Hin).
    + destruct (IH Hin) as [-> Hl]. split; [done|]. by rewrite last_app, Hl.
  - by apply (hook_trace_throw k).
Qed.

Lemma chain_trace_thrown ks tr e' :
  chain_trace d h m ks tr (Thrown e') → EvExcRet d (Throw e') ∈ tr.
Proof.
  intros H. remember (Thrown e') as r eqn:Hr.
  induction H as [|k ks tr1 tr2 r Hh _ IH|k tr r Hh _]; subst; [done| |].
  - apply elem_of_app. right. by apply IH.
  - by eapply hook_trace_thrown.
Qed.

Lemma chain_trace_routed ks tr r :
  chain_trace d h m ks tr r → map snd (routed tr) = faults tr.
Proof.
  induction 1 as [|k ks tr1 tr2 r Hh _ IH|k tr r Hh _]; [done| |].
  - rewrite routed_app, faults_app, map_app, IH.
    by rewrite (hook_trace_routed _ _ _ Hh).
  - by eapply hook_trace_routed.
Qed.

(** A chain that was vetoed holds a hook that returned [false]. *)
Lemma chain_trace_vetoed ks tr :
  chain_trace d h m ks tr (Done false) →
  ∃ k, (k, Return false) ∈ hook_rets tr.
Proof.
  intros H. remember (Done false) as r eqn:Hr.
  induction H as [|k ks tr1 tr2 r Hh _ IH|k tr r Hh _]; subst; [done| |].
  - destruct (IH eq_refl) as [k' Hk']. exists k'.
    rewrite hook_rets_app. apply elem_of_app. by right.
  - inversion Hh as [b|e eh tr' r' Hx Heq Hr'|]; simplify_eq.
    + exists k. simpl. by left.
    + by destruct r' as [[]|?|].
Qed.

Lemma send_trace_exceptions ks top r :
  send_trace d h m ks top r →
  map snd (routed top) = faults top ∧
  (∀ e', EvExcRet d (Throw e') ∈ top →
         r = Thrown e' ∧ last top = Some (EvExcRet d (Throw e'))) ∧
  (∀ e', r = Thrown e' → EvExcRet d (Throw e') ∈ top) ∧
  (r = Done tt → (∀ k, (k, Return false) ∉ hook_rets top) →
   deliveries top = [(h, m)]).
Proof.
  intros Hsend.
  inversion Hsend as [? tr1 tr2 ? Hc Hh| ? ? Hc| ? ? ? Hc| ? ? Hc]; subst.
  - split; [|split; [|split]].
    + rewrite routed_app, faults_app, map_app.
      by rewrite (chain_trace_routed _ _ _ Hc), (handler_trace_routed _ _ Hh).
    + intros e' [Hin|Hin]%elem_of_app.
      * by destruct (chain_trace_throw _ _ _ _ Hc Hin).
      * destruct (handler_trace_throw _ _ _ Hh Hin) as [-> Hl].
        split; [done|]. by rewrite last_app, Hl.
    + intros e' ->. apply elem_of_app. right. by apply handler_trace_thrown.
    + intros _ _. rewrite deliveries_app.
      destruct (chain_trace_reading _ _ _ _ _ _ Hc) as [_ ->].
      by destruct (handler_trace_reading _ _ _ _ _ Hh) as (_ & _ & ->).
  - split; [|split; [|split]].
    + by eapply chain_trace_routed.
    + intros e' Hin. by destruct (chain_trace_throw _ _ _ _ Hc Hin).
    + done.
    + intros _ Hno. destruct (chain_trace_vetoed _ _ Hc) as [k Hk].
      by destruct (Hno k).
  - split; [|split; [|split]].
    + by eapply chain_trace_routed.
    + intros e' Hin.
      destruct (chain_trace_throw _ _ _ _ Hc Hin) as [[= ->] Hl]. done.
    + intros e' [= ->]. by eapply chain_trace_thrown.
    + done.
  - split; [|split; [|split]].
    + by eapply chain_trace_routed.
    + intros e' Hin. by destruct (chain_trace_throw _ _ _ _ Hc Hin).
    + done.
    + done.
Qed.
End Exceptions.

(** ** The walk over the hook array *)

Lemma runScript_final E f d s st st' b :
  runScript E f d s st = (st', Done b) → final s = Return b.
Proof.
  destruct f as [|f]; simpl; [done|]. unfold bind.
  destruct (runActions E (runScript E f) f d (actions s) st)
    as [st1 [[]|e|]]; try done.
  destruct (final s); [|done]. by intros [= _ ->].
Qed.

Lemma decayed_slot (a b : list (option MessageHook)) i k :
  decayed a b → i < length a → b !! i = Some (Some k) → a !! i = Some (Some k).
Proof.
  intros [_ H] Hi Hb. destruct (lookup_lt_is_Some_2 a i Hi) as [x Hx].
  destruct (H i x Hx) as [Hy|Hy]; congruence.
Qed.

Lemma decayed_antisym (a b : list (option MessageHook)) :
  decayed a b → decayed b a → a = b.
Proof.
  intros [L1 H1] [L2 H2]. apply list_eq. intros i.
  destruct (a !! i) as [x|] eqn:Hx.
  - destruct (H1 i x Hx) as [Hy|Hy]; [done|].
    destruct (H2 i _ Hy) as [Hz|Hz]; congruence.
  - apply lookup_ge_None in Hx. symmetry. apply lookup_ge_None. lia.
Qed.

Lemma drop_take_snoc {A} (l : list A) s n x :
  s ≤ n → l !! n = Some x → drop s (take (S n) l) = drop s (take n l) ++ [x].
Proof.
  intros Hs Hx. rewrite (take_S_r _ _ _ Hx). apply drop_app_le.
  rewrite length_take. apply lookup_lt_Some in Hx. lia.
Qed.

Lemma drop_take_all {A} (l : list A) s n : n ≤ s → drop s (take n l) = [].
Proof. intros Hs. apply drop_ge. rewrite length_take. lia. Qed.

Lemma decayed_newest_first_drop arr0 arr s n :
  decayed arr0 arr → n ≤ length arr0 →
  newest_first (drop s (take n arr))
    `sublist_of` newest_first (drop s (take n arr0)).
Proof.
  intros [HL HD]. induction n as [|n IH]; intros Hn.
  { by rewrite !drop_take_all by lia. }
  destruct (decide (s ≤ n)) as [Hs|Hs]; [|by rewrite !drop_take_all by lia].
  destruct (lookup_lt_is_Some_2 arr0 n ltac:(lia)) as [x Hx].
  destruct (HD n x Hx) as [Hy|Hy];
    rewrite (drop_take_snoc _ _ _ _ Hs Hx), (drop_take_snoc _ _ _ _ Hs Hy),
      !newest_first_snoc.
  - destruct x; [apply sublist_skip|]; apply IH; lia.
  - destruct x; [apply sublist_cons|]; apply IH; lia.
Qed.

Section Walk.
Variable E : Env.
Variable f : nat.
Variable d : nat.
Variable h : nat.
Variable m : Message.

(** The outcome logged for a hook is the outcome of a run of its code. *)
Lemma invokeHook_ran k st new :
  trace (fst (invokeHook E (runScript E f) d k h m st)) = trace st ++ new →
  ∀ k' o, EvHookRet d k' o ∈ at_depth d new →
          ∃ sa sb, runScript E f (S d) (hookBody E k' h m) sa = (sb, ran_as o).
Proof.
  unfold invokeHook.
  destruct (runScript_extends E f (S d) (hookBody E k h m)
              (log (EvHook d k h m) st)) as (new0 & Ht & Hn).
  destruct (runScript E f (S d) (hookBody E k h m) (log (EvHook d k h m) st))
    as [st2 [b0|e|]] eqn:Hrun; simpl in *.
  - rewrite Ht, <- !app_assoc. intros <-%app_inv_head k' o. simpl.
    top_events Hn. intros Hin. elem_cases Hin. eauto.
  - unfold bind.
    destruct (invokeExceptionHandler_top E f d e
                (log (EvHookRet d k (Throw e)) st2)) as (new2 & Ht2 & Hx).
    destruct (invokeExceptionHandler E (runScript E f) d e _) as [st3 r];
      simpl in *.
    assert (Hall : ∀ new', trace st3 = trace st ++ new' →
              ∀ k' o, EvHookRet d k' o ∈ at_depth d new' →
                      k' = k ∧ o = Throw e).
    { rewrite Ht2. simpl. rewrite Ht, <- !app_assoc.
      intros new' <-%app_inv_head k' o. simpl. top_events Hn. intros Hin.
      apply elem_of_cons in Hin as [?|Hin]; [done|].
      apply elem_of_cons in Hin as [?|Hin]; [by simplify_eq|].
      destruct (exc_trace_reading d _ _ _ _ Hx) as (_ & Hr & _).
      assert (Hk : (k', o) ∈ hook_rets (at_depth d new2)).
      { apply list_elem_of_omap. by exists (EvHookRet d k' o). }
      rewrite Hr in Hk. by apply elem_of_nil in Hk. }
    destruct r as [[]|?|]; simpl; intros Hnew k' o Hin;
      destruct (Hall _ Hnew k' o Hin) as [-> ->]; eauto.
  - rewrite Ht, <- !app_assoc. intros <-%app_inv_head k' o. simpl.
    top_events Hn. intros Hin. elem_cases Hin.
Qed.

Lemma invokeHook_reads k st :
  ∃ new,
    trace (fst (invokeHook E (runScript E f) d k h m st)) = trace st ++ new ∧
    hook_calls (at_depth d new) = [k] ∧
    deliveries (at_depth d new) = [] ∧
    (∀ k' o, EvHookRet d k' o ∈ at_depth d new →
             ∃ sa sb, runScript E f (S d) (hookBody E k' h m) sa
                      = (sb, ran_as o)) ∧
    (snd (invokeHook E (runScript E f) d k h m st) ≠ OutOfFuel →
     map fst (hook_rets (at_depth d new)) = [k]).
Proof.
  destruct (invokeHook_top E f d k h m st) as (new & Ht & Hh).
  destruct (hook_trace_reading d h m _ _ _ Hh) as (Hc & Hd & Hr).
  exists new. split; [done|]. split; [done|]. split; [done|]. split.
  - exact (invokeHook_ran k st new Ht).
  - intros Hf. destruct Hr as [(b & -> & _)|[(e & ->)|[_ Hr]]]; done.
Qed.

Lemma last_cons_Some {A} (x : A) l y :
  last l = Some y → last (x :: l) = Some y.
Proof. destruct l; [done|]. by rewrite last_cons_cons. Qed.

(** The walk over the last [n] slots still to visit: it stops at a slot
    [s], whose hook is the last one called, or goes down to slot 0; the
    hooks called are those found live in the slots from [n - 1] down to
    [s], each verdict logged is what the body of the hook returned. *)
Lemma everyRetro_walk n : ∀ st arr st' r,
  messageHooks st !! h = Some arr → n ≤ length arr →
  everyRetro E (runScript E f) n d h m st = (st', r) →
  ∃ new s,
    trace st' = trace st ++ new ∧
    tombstoned_from arr h st' ∧
    s ≤ n ∧
    hook_calls (at_depth d new)
      `sublist_of` newest_first (drop s (take n arr)) ∧
    (∀ arr', messageHooks st' !! h = Some arr' →
       ∀ i k, s ≤ i → i < n → arr' !! i = Some (Some k) →
              k ∈ hook_calls (at_depth d new)) ∧
    (messageHooks st' !! h = Some arr →
     hook_calls (at_depth d new) = newest_first (drop s (take n arr))) ∧
    (r = Done true → s = 0) ∧
    (r ≠ Done true →
     ∃ k, arr !! s = Some (Some k) ∧
          last (hook_calls (at_depth d new)) = Some k) ∧
    deliveries (at_depth d new) = [] ∧
    (∀ k o, EvHookRet d k o ∈ at_depth d new →
            ∃ sa sb, runScript E f (S d) (hookBody E k h m) sa
                     = (sb, ran_as o)) ∧
    (r ≠ OutOfFuel →
     map fst (hook_rets (at_depth d new)) = hook_calls (at_depth d new)).
Proof.
  induction n as [|i IH]; intros st arr st' r Harr Hn Hrun; simpl in Hrun.
  { injection Hrun as <- <-. exists [], 0. rewrite app_nil_r.
    split; [done|]. split; [by apply tombstoned_from_refl|].
    split; [done|]. split; [done|]. split; [intros; lia|].
    split; [done|]. split; [done|]. split; [done|]. split; [done|].
    split; [|done]. intros k o Hin. by apply elem_of_nil in Hin. }
  destruct (lookup_lt_is_Some_2 arr i ltac:(lia)) as [x Hx].
  rewrite (hookAt_lookup h st arr i x Harr Hx) in Hrun.
  destruct x as [k|].
  - unfold bind in Hrun.
    destruct (invokeHook_reads k st) as (new1 & Ht1 & Hc1 & Hd1 & Hf1 & Hr1).
    assert (HT1 : tombstoned_from arr h
                    (fst (invokeHook E (runScript E f) d k h m st))).
    { apply (pres_invokeHook (preserved_tombstoned E d arr h));
        auto using tombstoned_from_refl.
      exists i. by apply (hookAt_lookup h st arr i (Some k)). }
    destruct (invokeHook E (runScript E f) d k h m st) as [st1 r1];
      simpl in *.
    assert (Hlast : newest_first (drop i (take (S i) arr)) = [k]).
    { by rewrite (drop_take_snoc _ _ _ _ (le_n i) Hx), drop_take_all. }
    destruct r1 as [[|]|e|].
    + destruct HT1 as (arr1 & Harr1 & HD1).
      destruct (IH st1 arr1 st' r Harr1 ltac:(destruct HD1; lia) Hrun)
        as (new2 & s & Ht2 & HT2 & Hs & Hsub & Hforce & Hex & Hs0 & Hstop
            & Hd2 & Hf2 & Hr2).
      assert (HT : tombstoned_from arr h st').
      { destruct HT2 as (arr2 & Harr2 & HD2). exists arr2.
        split; [done|]. by eapply decayed_trans. }
      exists (new1 ++ new2), s.
      rewrite at_depth_app, hook_calls_app, hook_rets_app, deliveries_app,
        Hc1, Hd1, Hd2, map_app, (Hr1 ltac:(done)).
      rewrite (drop_take_snoc _ _ _ _ Hs Hx), newest_first_snoc.
      split; [by rewrite Ht2, Ht1, app_assoc|]. split; [done|].
      split; [lia|]. split.
      { apply sublist_skip. etrans; [exact Hsub|].
        apply decayed_newest_first_drop; [done|lia]. }
      split.
      { intros arr' Ha' j k' Hj1 Hj2 Hk'.
        destruct (decide (j = i)) as [->|Hne].
        - destruct HT as (arr2 & Harr2 & HD2).
          assert (arr2 = arr') as -> by congruence.
          pose proof (decayed_slot arr arr' i k' HD2 ltac:(lia) Hk') as Hk.
          assert (k' = k) as -> by congruence. by left.
        - right. apply (Hforce arr' Ha' j k'); [done|lia|done]. }
      split.
      { intros Hsame. simpl. f_equal.
        assert (arr1 = arr) as ->; [|by apply Hex].
        symmetry. apply decayed_antisym; [done|].
        destruct HT2 as (arr2 & Harr2 & HD2). congruence. }
      split; [done|]. split.
      { intros Hne. destruct (Hstop Hne) as (k' & Hk' & Hl).
        exists k'. split.
        - apply (decayed_slot arr arr1 s k' HD1); [lia|done].
        - by apply last_cons_Some. }
      split; [done|]. split.
      { intros k' o [Hin|Hin]%elem_of_app; [by apply Hf1|by apply Hf2]. }
      intros Hne. simpl. f_equal. by apply Hr2.
    + injection Hrun as <- <-. exists new1, i. rewrite Hc1, Hlast.
      split; [done|]. split; [done|]. split; [lia|]. split; [done|].
      split.
      { intros arr' Ha' j k' Hj1 Hj2 Hk'. assert (j = i) as -> by lia.
        destruct HT1 as (arr1 & Ha1 & HD1).
        assert (arr1 = arr') as -> by congruence.
        pose proof (decayed_slot arr arr' i k' HD1 ltac:(lia) Hk') as Hk.
        assert (k' = k) as -> by congruence. by left. }
      split; [done|]. split; [done|].
      split; [intros _; by exists k|]. split; [done|]. split; [done|].
      intros _. by apply Hr1.
    + injection Hrun as <- <-. exists new1, i. rewrite Hc1, Hlast.
      split; [done|]. split; [done|]. split; [lia|]. split; [done|].
      split.
      { intros arr' Ha' j k' Hj1 Hj2 Hk'. assert (j = i) as -> by lia.
        destruct HT1 as (arr1 & Ha1 & HD1).
        assert (arr1 = arr') as -> by congruence.
        pose proof (decayed_slot arr arr' i k' HD1 ltac:(lia) Hk') as Hk.
        assert (k' = k) as -> by congruence. by left. }
      split; [done|]. split; [done|].
      split; [intros _; by exists k|]. split; [done|]. split; [done|].
      intros _. by apply Hr1.
    + injection Hrun as <- <-. exists new1, i. rewrite Hc1, Hlast.
      split; [done|]. split; [done|]. split; [lia|]. split; [done|].
      split.
      { intros arr' Ha' j k' Hj1 Hj2 Hk'. assert (j = i) as -> by lia.
        destruct HT1 as (arr1 & Ha1 & HD1).
        assert (arr1 = arr') as -> by congruence.
        pose proof (decayed_slot arr arr' i k' HD1 ltac:(lia) Hk') as Hk.
        assert (k' = k) as -> by congruence. by left. }
      split; [done|]. split; [done|].
      split; [intros _; by exists k|]. split; [done|]. split; [done|].
      done.
  - destruct (IH st arr st' r Harr ltac:(lia) Hrun)
      as (new & s & Ht & HT & Hs & Hsub & Hforce & Hex & Hs0 & Hstop
          & Hd2 & Hf2 & Hr2).
    exists new, s.
    rewrite (drop_take_snoc _ _ _ _ Hs Hx), newest_first_snoc.
    split; [done|]. split; [done|]. split; [lia|]. split; [done|].
    split; [|done].
    intros arr' Ha' j k' Hj1 Hj2 Hk'.
    destruct (decide (j = i)) as [->|Hne];
      [|apply (Hforce arr' Ha' j k'); [done|lia|done]].
    destruct HT as (arr2 & Harr2 & HD2).
    assert (arr2 = arr') as -> by congruence.
    pose proof (decayed_slot arr arr' i k' HD2 ltac:(lia) Hk') as Hk.
    congruence.
Qed.

Lemma handler_reads st :
  ∃ new,
    trace (fst (invokeHandler E (runScript E f) d h m st)) = trace st ++ new ∧
    hook_calls (at_depth d new) = [] ∧
    hook_rets (at_depth d new) = [] ∧
    deliveries (at_depth d new) = [(h, m)] ∧
    (∀ a, messageHooks st !! h = Some a →
          tombstoned_from a h
            (fst (invokeHandler E (runScript E f) d h m st))).
Proof.
  destruct (invokeHandler_top E f d h m st) as (new & Ht & Hh).
  destruct (handler_trace_reading d h m _ _ Hh) as (Hc & Hr & Hd).
  exists new. split; [done|]. split; [done|]. split; [done|].
  split; [done|]. intros a Ha.
  apply (pres_invokeHandler (preserved_tombstoned E d a h));
    auto using tombstoned_from_refl.
Qed.

Lemma hook_rets_elem tr k o :
  EvHookRet d k o ∈ tr → (k, o) ∈ hook_rets tr.
Proof. intros Hin. apply list_elem_of_omap. by exists (EvHookRet d k o). Qed.

(** One [sendMessage], slot by slot: the walk starts at the last slot of
    the array as it is at the start and stops at a slot [s]; the hooks
    called are hooks found in the slots from the last one down to [s];
    a hook still in one of these slots afterwards was called; when the
    array is afterwards as it was, the hooks called are exactly the
    live hooks of these slots, newest first. *)
Lemma sendMessage_walk st st' r :
  sendMessage E (runScript E f) d h m st = (st', r) →
  ∃ new s,
    trace st' = trace st ++ new ∧
    s ≤ length (default [] (messageHooks st !! h)) ∧
    hook_calls (at_depth d new)
      `sublist_of` newest_first (drop s (default [] (messageHooks st !! h))) ∧
    (∀ arr', messageHooks st' !! h = Some arr' →
       ∀ i k, s ≤ i → i < length (default [] (messageHooks st !! h)) →
              arr' !! i = Some (Some k) → k ∈ hook_calls (at_depth d new)) ∧
    (default [] (messageHooks st' !! h) = default [] (messageHooks st !! h) →
     hook_calls (at_depth d new)
       = newest_first (drop s (default [] (messageHooks st !! h)))) ∧
    (deliveries (at_depth d new) = [(h, m)] → s = 0) ∧
    (deliveries (at_depth d new) = [] →
     ∃ k, default [] (messageHooks st !! h) !! s = Some (Some k) ∧
          last (hook_calls (at_depth d new)) = Some k) ∧
    (deliveries (at_depth d new) = [] ∨
     deliveries (at_depth d new) = [(h, m)]) ∧
    (∀ k o, EvHookRet d k o ∈ at_depth d new →
            ∃ sa sb, runScript E f (S d) (hookBody E k h m) sa
                     = (sb, ran_as o)) ∧
    (r ≠ OutOfFuel →
     map fst (hook_rets (at_depth d new)) = hook_calls (at_depth d new)).
Proof.
  unfold sendMessage. intros Hrun.
  assert (Hplain : (messageHooks st !! h = None ∨
                    messageHooks st !! h = Some []) →
            invokeHandler E (runScript E f) d h m st = (st', r) →
            default [] (messageHooks st !! h) = [] →
    ∃ new s,
    trace st' = trace st ++ new ∧
    s ≤ length (default [] (messageHooks st !! h)) ∧
    hook_calls (at_depth d new)
      `sublist_of` newest_first (drop s (default [] (messageHooks st !! h))) ∧
    (∀ arr', messageHooks st' !! h = Some arr' →
       ∀ i k, s ≤ i → i < length (default [] (messageHooks st !! h)) →
              arr' !! i = Some (Some k) → k ∈ hook_calls (at_depth d new)) ∧
    (default [] (messageHooks st' !! h) = default [] (messageHooks st !! h) →
     hook_calls (at_depth d new)
       = newest_first (drop s (default [] (messageHooks st !! h)))) ∧
    (deliveries (at_depth d new) = [(h, m)] → s = 0) ∧
    (deliveries (at_depth d new) = [] →
     ∃ k, default [] (messageHooks st !! h) !! s = Some (Some k) ∧
          last (hook_calls (at_depth d new)) = Some k) ∧
    (deliveries (at_depth d new) = [] ∨
     deliveries (at_depth d new) = [(h, m)]) ∧
    (∀ k o, EvHookRet d k o ∈ at_depth d new →
            ∃ sa sb, runScript E f (S d) (hookBody E k h m) sa
                     = (sb, ran_as o)) ∧
    (r ≠ OutOfFuel →
     map fst (hook_rets (at_depth d new)) = hook_calls (at_depth d new))).
  { intros _ Hh Hnil. rewrite Hnil.
    destruct (handler_reads st) as (new & Ht & Hc & Hr & Hd & _).
    rewrite Hh in Ht. simpl in Ht. exists new, 0. rewrite Hc, Hr, Hd.
    split; [done|]. split; [done|]. split; [done|].
    split; [simpl; intros; lia|]. split; [done|]. split; [done|].
    split; [done|]. split; [by right|]. split; [|done].
    intros k o Hin%hook_rets_elem. rewrite Hr in Hin.
    by apply elem_of_nil in Hin. }
  destruct (messageHooks st !! h) as [arr|] eqn:Harr; [|by apply Hplain; auto].
  destruct arr as [|x rest]; [by apply Hplain; auto|]. clear Hplain.
  unfold bind in Hrun. remember (x :: rest) as arr eqn:Earr.
  cbn [default].
  destruct (everyRetro E (runScript E f) (length arr) d h m st)
    as [st1 r1] eqn:Hev.
  destruct (everyRetro_walk (length arr) st arr st1 r1 Harr (le_n _) Hev)
    as (new1 & s & Ht1 & HT1 & Hs & Hsub & Hforce & Hex & Hs0 & Hstop
        & Hd1 & Hf1 & Hr1).
  rewrite firstn_all in Hsub, Hex.
  assert (Hstopped : r1 ≠ Done true → st' = st1 →
            (r ≠ OutOfFuel → r1 ≠ OutOfFuel) →
    ∃ new s,
    trace st' = trace st ++ new ∧
    s ≤ length arr ∧
    hook_calls (at_depth d new) `sublist_of` newest_first (drop s arr) ∧
    (∀ arr', messageHooks st' !! h = Some arr' →
       ∀ i k, s ≤ i → i < length arr →
              arr' !! i = Some (Some k) → k ∈ hook_calls (at_depth d new)) ∧
    (default [] (messageHooks st' !! h) = arr →
     hook_calls (at_depth d new) = newest_first (drop s arr)) ∧
    (deliveries (at_depth d new) = [(h, m)] → s = 0) ∧
    (deliveries (at_depth d new) = [] →
     ∃ k, arr !! s = Some (Some k) ∧
          last (hook_calls (at_depth d new)) = Some k) ∧
    (deliveries (at_depth d new) = [] ∨
     deliveries (at_depth d new) = [(h, m)]) ∧
    (∀ k o, EvHookRet d k o ∈ at_depth d new →
            ∃ sa sb, runScript E f (S d) (hookBody E k h m) sa
                     = (sb, ran_as o)) ∧
    (r ≠ OutOfFuel →
     map fst (hook_rets (at_depth d new)) = hook_calls (at_depth d new))).
  { intros Hne -> Hfuel. exists new1, s.
    split; [done|]. split; [done|]. split; [done|]. split; [done|].
    split.
    { intros Hsame. apply Hex. destruct HT1 as (a & Ha & _).
      rewrite Ha in Hsame |- *. simpl in Hsame. by subst. }
    split; [by rewrite Hd1|]. split; [intros _; by apply Hstop|].
    split; [by left|]. split; [done|]. intros Hr. by apply Hr1, Hfuel. }
  destruct r1 as [[|]|e|].
  - clear Hstopped.
    destruct (handler_reads st1) as (new2 & Ht2 & Hc2 & Hr2 & Hd2 & HT2).
    rewrite Hrun in Ht2, HT2. simpl in Ht2, HT2.
    exists (new1 ++ new2), s.
    rewrite at_depth_app, hook_calls_app, hook_rets_app, deliveries_app,
      Hc2, Hr2, Hd1, Hd2, !app_nil_r.
    destruct HT1 as (arr1 & Harr1 & HD1).
    destruct (HT2 arr1 Harr1) as (arr2 & Harr2 & HD2).
    split; [by rewrite Ht2, Ht1, app_assoc|]. split; [done|].
    split; [done|]. split.
    { intros arr' Ha' i k Hi1 Hi2 Hk.
      assert (arr2 = arr') as -> by congruence.
      apply (Hforce arr1 Harr1 i k Hi1 Hi2).
      apply (decayed_slot arr1 arr' i k HD2); [destruct HD1; unfold id in Hi2; lia|done]. }
    split.
    { intros Hsame. apply Hex. rewrite Harr2 in Hsame. simpl in Hsame.
      subst arr2. rewrite Harr1. f_equal. symmetry.
      by apply decayed_antisym. }
    split; [intros _; by apply Hs0|]. split; [done|]. split; [by right|].
    split.
    { intros k o [Hin|Hin%hook_rets_elem]%elem_of_app; [by apply Hf1|].
      rewrite Hr2 in Hin. by apply elem_of_nil in Hin. }
    intros _. by apply Hr1.
  - injection Hrun as <- <-. by apply Hstopped.
  - injection Hrun as <- <-. by apply Hstopped.
  - injection Hrun as <- <-. by apply Hstopped.
Qed.
End Walk.

(** * The properties of the dispatch engine *)

(** ** The hook chain and the handler *)

(** C1. [sendMessage(handler, msg)]: the hooks of the handler are called
    newest first, tombstoned slots are skipped, and the first hook that
    returns [false] is the last thing the call does; if the hook array
    is absent or empty, or every hook called returned [true],
    [processMessage] is called exactly once, with that message.

    In full, for [top], what the call shows at its own depth: the hooks
    called, in order, are a sub-list of the live hooks of the array as
    it was at the start, newest first; a hook logged as returning
    [false] is the last event, the call returns and [processMessage] is
    not called; when every hook called returned [true], and when the
    array is absent or empty, [processMessage] is called once with the
    message; when it was called, no slot still holding a hook
    afterwards was left out.  The outcome logged for a hook is the
    outcome of a run of its code, so a verdict logged is the value the
    code of the hook returns; every hook called has its outcome logged
    unless the fuel ran out; [processMessage] is called once or not at
    all.  The walk goes from the last slot down to a slot [s]: the
    hooks called are hooks of the slots from [s] on, newest first, and
    exactly the live hooks of these slots when the array is afterwards
    as it was; a hook that is still in one of these slots afterwards
    was called; [s] is slot 0 when [processMessage] was called, and
    otherwise the slot of the last hook called, so that no hook of an
    older slot ran. *)
Theorem sendMessage_hooks_newest_first_then_handler
    (E : Env) (f d h : nat) (m : Message) (st : state) :
  let st' := fst (sendMessage E (runScript E f) d h m st) in
  let r := snd (sendMessage E (runScript E f) d h m st) in
  let hooks := default [] (messageHooks st !! h) in
  ∃ new, trace st' = trace st ++ new ∧
    let top := at_depth d new in
    hook_calls top `sublist_of` newest_first hooks ∧
    (∀ k, EvHookRet d k (Return false) ∈ top →
          last top = Some (EvHookRet d k (Return false)) ∧
          r = Done tt ∧ deliveries top = []) ∧
    (hook_rets top = map (λ k, (k, Return true)) (hook_calls top) →
     deliveries top = [(h, m)]) ∧
    (hooks = [] → hook_calls top = [] ∧ deliveries top = [(h, m)]) ∧
    (deliveries top = [(h, m)] →
     ∀ i k, i < length hooks → hookAt h i st' = Some k → k ∈ hook_calls top) ∧
    (∀ k o, EvHookRet d k o ∈ top →
            ∃ sa sb, runScript E f (S d) (hookBody E k h m) sa
                     = (sb, ran_as o)) ∧
    (∀ k b, EvHookRet d k (Return b) ∈ top →
            final (hookBody E k h m) = Return b) ∧
    (r ≠ OutOfFuel → map fst (hook_rets top) = hook_calls top) ∧
    (deliveries top = [] ∨ deliveries top = [(h, m)]) ∧
    ∃ s, s ≤ length hooks ∧
      hook_calls top `sublist_of` newest_first (drop s hooks) ∧
      (∀ arr', messageHooks st' !! h = Some arr' →
         ∀ i k, s ≤ i → i < length hooks → arr' !! i = Some (Some k) →
                k ∈ hook_calls top) ∧
      (default [] (messageHooks st' !! h) = hooks →
       hook_calls top = newest_first (drop s hooks)) ∧
      (deliveries top = [(h, m)] → s = 0) ∧
      (deliveries top = [] →
       ∃ k, hooks !! s = Some (Some k) ∧ last (hook_calls top) = Some k).
Proof.
  intros st' r hooks.
  destruct (sendMessage E (runScript E f) d h m st) as [st1 r1] eqn:Hrun.
  destruct (sendMessage_top E f d h m st st1 r1 Hrun)
    as (new & ks & Ht & Hsub & Hsend & Hall).
  destruct (send_trace_reading _ _ _ _ _ _ Hsend) as (Hk & Hveto & Hpass & Hnil).
  destruct (sendMessage_walk E f d h m st st1 r1 Hrun)
    as (new' & s & Ht' & Hs & Hsub' & Hforce & Hex & Hs0 & Hstop & Hone
        & Hfinal & Hrets).
  assert (new' = new) as ->.
  { apply (app_inv_head (trace st)). by rewrite <- Ht, <- Ht'. }
  subst st' r hooks. simpl. exists new. rewrite Hk in *.
  split; [done|]. split; [done|]. split; [exact Hveto|]. split; [exact Hpass|].
  split.
  { intros Hn. rewrite Hn in Hsub. apply sublist_nil_r in Hsub. auto. }
  split.
  { intros Hd. apply Hall, deliveries_at_depth. rewrite Hd. by left. }
  split; [exact Hfinal|]. split.
  { intros k b Hin. destruct (Hfinal k _ Hin) as (sa & sb & Hran).
    by apply runScript_final in Hran. }
  split; [exact Hrets|]. split; [exact Hone|].
  exists s. auto 10.
Qed.

(** ** Exceptions out of the loop *)

Lemma loop_exception E f d s g : ∀ st,
  ∃ new,
    trace (fst (loop E (runScript E f) g d s st)) = trace st ++ new ∧
    ∀ e', EvExcRet d (Throw e') ∈ at_depth d new →
          snd (loop E (runScript E f) g d s st) = Thrown e'.
Proof.
  induction g as [|g IH]; intros st; simpl.
  { exists []. rewrite app_nil_r. split; [done|]. intros e' Hin. elem_cases Hin. }
  destruct (messageQueue st) as [|p rest] eqn:Hq; simpl.
  { exists []. rewrite app_nil_r. split; [done|]. intros e' Hin. elem_cases Hin. }
  destruct (eid p =? s); simpl.
  { exists []. rewrite app_nil_r. split; [done|]. intros e' Hin. elem_cases Hin. }
  destruct (handler p) as [h|]; [|apply (IH (set_messageQueue rest st))].
  destruct (msg p) as [m|]; [|apply (IH (set_messageQueue rest st))].
  unfold bind.
  destruct (sendMessage E (runScript E f) d h m (set_messageQueue rest st))
    as [st1 r1] eqn:Hsend.
  destruct (sendMessage_top E f d h m _ st1 r1 Hsend)
    as (new1 & ks & Ht1 & _ & Htr & _).
  destruct (send_trace_exceptions _ _ _ _ _ _ Htr) as (_ & Hthrow & _ & _).
  simpl in Ht1.
  destruct r1 as [[]|e|]; simpl.
  - destruct (IH st1) as (new2 & Ht2 & H2). exists (new1 ++ new2).
    rewrite Ht2, Ht1, app_assoc. split; [done|].
    intros e' Hin. rewrite at_depth_app in Hin.
    apply elem_of_app in Hin as [Hin|Hin]; [|by apply H2].
    by destruct (Hthrow e' Hin).
  - exists new1. split; [done|]. intros e' Hin. by destruct (Hthrow e' Hin).
  - exists new1. split; [done|]. intros e' Hin. by destruct (Hthrow e' Hin).
Qed.

Lemma runMessageLoop_exception E f g d st :
  ∃ new,
    trace (fst (runMessageLoop E (runScript E f) g d st)) = trace st ++ new ∧
    ∀ e', EvExcRet d (Throw e') ∈ at_depth d new →
          snd (runMessageLoop E (runScript E f) g d st) = Thrown e'.
Proof.
  unfold runMessageLoop.
  destruct (messageQueue (set_pending None st)) eqn:Hq.
  { exists []. simpl. rewrite app_nil_r. split; [done|].
    intros e' Hin. elem_cases Hin. }
  match goal with |- context [loop _ _ _ _ ?s ?st1] =>
    destruct (loop_exception E f d s g st1) as (new & Ht & H) end.
  exists new. split; [exact Ht|exact H].
Qed.

(** ** Exceptions of hooks and handlers *)

(** C4, as stated, fails: with an exception handler that throws, the
    exception raised by a hook reaches the caller of [sendMessage], and
    the handler is not called. *)
Lemma sendMessage_fault_escapes_through_rethrowing_handler :
  final (hookBody E_rethrow (HookFn 1) 7 msgA) = Throw (UserError 1) ∧
  snd (sendMessage E_rethrow (runScript E_rethrow 5) 0 7 msgA st_rethrow)
    = Thrown (UserError 1) ∧
  deliveries
    (trace (fst (sendMessage E_rethrow (runScript E_rethrow 5) 0 7 msgA
                   st_rethrow))) = [].
Proof. by vm_compute. Qed.

(** C4, amended. Every exception raised by a hook or by
    [processMessage] is caught and passed to the current exception
    handler ([invokeHook], [invokeHandler], and at the level of the
    trace); provided the exception handler returns normally, a hook
    that threw counts as having returned [true] and nothing propagates
    to the caller of [sendMessage]: a send that no exception handler
    call made throw does not throw, and when it returns and no hook
    returned [false] the handler was called exactly once; the same
    holds of a later send to another handler. *)
Theorem sendMessage_faults_routed_and_contained
    (E : Env) (f d h : nat) (m : Message) (st : state) :
  let run := runScript E f in
  let handled (e : Error) (st2 : state) :=
    invokeExceptionHandler E run d e st2 in
  let contained (h0 : nat) (m0 : Message) (top : list event)
                (r0 : status unit) :=
    ((∀ e', EvExcRet d (Throw e') ∉ top) → ∀ e, r0 ≠ Thrown e) ∧
    (r0 = Done tt → (∀ k, (k, Return false) ∉ hook_rets top) →
     deliveries top = [(h0, m0)]) in
  (∀ e st2, ∃ new,
     trace (fst (handled e st2))
       = trace st2 ++ EvExc d (exceptionHandler st2) e :: new) ∧
  (∀ k st2 e,
     run (S d) (hookBody E k h m) (log (EvHook d k h m) st) = (st2, Thrown e) →
     invokeHook E run d k h m st
       = (fst (handled e (log (EvHookRet d k (Throw e)) st2)),
          as_passed (snd (handled e (log (EvHookRet d k (Throw e)) st2))))) ∧
  (∀ st2 e,
     run (S d) (processMessage E h m) (log (EvProcess d h m) st)
       = (st2, Thrown e) →
     invokeHandler E run d h m st
       = handled e (log (EvProcessRet d h (Throw e)) st2)) ∧
  let st' := fst (sendMessage E run d h m st) in
  let r := snd (sendMessage E run d h m st) in
  ∃ new, trace st' = trace st ++ new ∧
    map snd (routed (at_depth d new)) = faults (at_depth d new) ∧
    contained h m (at_depth d new) r ∧
    ∀ h2 m2, h2 ≠ h →
      ∃ new2,
        trace (fst (sendMessage E run d h2 m2 st')) = trace st' ++ new2 ∧
        contained h2 m2 (at_depth d new2)
          (snd (sendMessage E run d h2 m2 st')).
Proof.
  intros run handled contained.
  assert (Hsend : ∀ h0 m0 st0,
            ∃ new0,
              trace (fst (sendMessage E run d h0 m0 st0)) = trace st0 ++ new0 ∧
              map snd (routed (at_depth d new0)) = faults (at_depth d new0) ∧
              contained h0 m0 (at_depth d new0)
                (snd (sendMessage E run d h0 m0 st0))).
  { intros h0 m0 st0.
    destruct (sendMessage E run d h0 m0 st0) as [st1 r1] eqn:Hrun.
    destruct (sendMessage_top E f d h0 m0 st0 st1 r1 Hrun)
      as (new0 & ks & Ht & _ & Htr & _).
    destruct (send_trace_exceptions _ _ _ _ _ _ Htr) as (Hr & _ & Hth & Hd).
    exists new0. simpl. repeat split; auto.
    intros Hno e ->. by apply (Hno e), Hth. }
  split; [|split; [|split]].
  - intros e st2. subst handled. simpl. unfold invokeExceptionHandler.
    destruct (exceptionHandler st2) as [|n]; simpl.
    + eexists [_]. by rewrite <- app_assoc.
    + destruct (runScript_extends E f (S d) (handleException E n e)
                  (log (EvExc d (CustomHandler n) e) st2)) as (new & Ht & _).
      subst run.
      destruct (runScript E f (S d) _ _) as [st3 [b|e'|]]; simpl in *;
        rewrite Ht, <- app_assoc; simpl.
      * eexists (new ++ [_]). by rewrite <- app_assoc.
      * eexists (new ++ [_]). by rewrite <- app_assoc.
      * by exists new.
  - intros k st2 e Hrun. unfold invokeHook. rewrite Hrun. unfold bind.
    subst handled. simpl.
    by destruct (invokeExceptionHandler E run d e _) as [st3 [[]|?|]].
  - intros st2 e Hrun. unfold invokeHandler. by rewrite Hrun.
  - simpl. destruct (Hsend h m st) as (new & Ht & Hr & Hc).
    exists new. repeat split; try done; try apply Hc.
    intros h2 m2 _. destruct (Hsend h2 m2 (fst (sendMessage E run d h m st)))
      as (new2 & Ht2 & _ & Hc2).
    exists new2. split; [done|exact Hc2].
Qed.

(** C10. The catch blocks of [invokeHook] and [invokeHandler] call the
    exception handler without a guard: when the exception handler
    throws, its exception is the result of [invokeHook] and of
    [invokeHandler], ends the [sendMessage] that was under way and
    goes to its caller, and ends a running loop run; and an exception
    leaves [sendMessage] in no other way. *)
Theorem exception_handler_throw_propagates
    (E : Env) (f d h : nat) (m : Message) (st : state) :
  let run := runScript E f in
  (∀ n err st0 st2 e',
     exceptionHandler st0 = CustomHandler n →
     run (S d) (handleException E n err) (log (EvExc d (CustomHandler n) err) st0)
       = (st2, Thrown e') →
     invokeExceptionHandler E run d err st0
       = (log (EvExcRet d (Throw e')) st2, Thrown e')) ∧
  (∀ k st2 e st3 e',
     run (S d) (hookBody E k h m) (log (EvHook d k h m) st) = (st2, Thrown e) →
     invokeExceptionHandler E run d e (log (EvHookRet d k (Throw e)) st2)
       = (st3, Thrown e') →
     invokeHook E run d k h m st = (st3, Thrown e')) ∧
  (∀ st2 e st3 e',
     run (S d) (processMessage E h m) (log (EvProcess d h m) st)
       = (st2, Thrown e) →
     invokeExceptionHandler E run d e (log (EvProcessRet d h (Throw e)) st2)
       = (st3, Thrown e') →
     invokeHandler E run d h m st = (st3, Thrown e')) ∧
  (∃ new,
     trace (fst (sendMessage E run d h m st)) = trace st ++ new ∧
     (∀ e', EvExcRet d (Throw e') ∈ at_depth d new →
            snd (sendMessage E run d h m st) = Thrown e' ∧
            last (at_depth d new) = Some (EvExcRet d (Throw e'))) ∧
     (∀ e', snd (sendMessage E run d h m st) = Thrown e' →
            EvExcRet d (Throw e') ∈ at_depth d new)) ∧
  (∀ g, ∃ new,
     trace (fst (runMessageLoop E run g d st)) = trace st ++ new ∧
     ∀ e', EvExcRet d (Throw e') ∈ at_depth d new →
           snd (runMessageLoop E run g d st) = Thrown e').
Proof.
  intros run. split; [|split; [|split; [|split]]].
  - intros n err st0 st2 e' Heh Hrun. unfold invokeExceptionHandler.
    by rewrite Heh, Hrun.
  - intros k st2 e st3 e' Hrun Hexc. unfold invokeHook, bind.
    by rewrite Hrun, Hexc.
  - intros st2 e st3 e' Hrun Hexc. unfold invokeHandler. by rewrite Hrun.
  - destruct (sendMessage E run d h m st) as [st1 r1] eqn:Hrun.
    destruct (sendMessage_top E f d h m st st1 r1 Hrun)
      as (new & ks & Ht & _ & Htr & _).
    destruct (send_trace_exceptions _ _ _ _ _ _ Htr) as (_ & Hthrow & Hth & _).
    exists new. simpl. split; [done|]. split; [exact Hthrow|exact Hth].
  - intros g. apply runMessageLoop_exception.
Qed.

(** The hook throws, the exception handler throws it again: the
    exception leaves [sendMessage], and leaves the loop run that
    dispatches the message. *)
Example rethrow_leaves_send_and_loop :
  snd (sendMessage E_rethrow (runScript E_rethrow 5) 0 7 msgA st_rethrow)
    = Thrown (UserError 1) ∧
  snd (runMicrotask E_rethrow 5
         (fst (postMessage E_rethrow 0 7 msgA st_rethrow)))
    = Thrown (UserError 1).
Proof. by vm_compute. Qed.

(** ** Conflation *)

Lemma log_all_cons e evs st : log_all (e :: evs) st = log_all evs (log e st).
Proof. done. Qed.

Lemma messageQueue_log_all evs st :
  messageQueue (log_all evs st) = messageQueue st.
Proof.
  revert st. induction evs as [|e evs IH]; intros st; [done|].
  by rewrite log_all_cons, IH.
Qed.

Lemma trace_log_all evs st : trace (log_all evs st) = trace st ++ evs.
Proof.
  revert st. induction evs as [|e evs IH]; intros st.
  - simpl. by rewrite app_nil_r.
  - rewrite log_all_cons, IH. simpl. by rewrite <- app_assoc.
Qed.

Lemma enqueueMessage_log_all h m evs st :
  enqueueMessage h m (log_all evs st) = log_all evs (enqueueMessage h m st).
Proof.
  revert st. induction evs as [|e evs IH]; intros st; [done|].
  rewrite !log_all_cons, IH. f_equal.
  unfold enqueueMessage. simpl. by destruct (pending st).
Qed.

Lemma someConflate_scan E d h m : ∀ q st,
  ∃ declined rest,
    omap (conflationTarget h m) q = declined ++ rest ∧
    Forall (declines E m) declined ∧
    match rest with
    | [] =>
        someConflate E d h m q st
          = (log_all (conflate_events d m declined (Return false)) st,
             Done false)
    | pm :: _ =>
        ¬ declines E m pm ∧
        someConflate E d h m q st
          = (log_all (conflate_events d m declined (Return false)
                        ++ [EvConflate d pm m (conflate E pm m)]) st,
             match conflate E pm m with
             | Return _ => Done true
             | Throw e => Thrown e
             end)
    end.
Proof.
  induction q as [|p q IH]; intros st; simpl.
  { exists [], []. by repeat split. }
  destruct (conflationTarget h m p) as [pm|] eqn:Hp; [|apply IH].
  destruct (conflate E pm m) as [[|]|e] eqn:Hc; simpl.
  - exists [], (pm :: omap (conflationTarget h m) q).
    unfold declines. rewrite Hc. by repeat split.
  - destruct (IH (log (EvConflate d pm m (Return false)) st))
      as (declined & rest & Heq & Hdec & Hres).
    exists (pm :: declined), rest.
    split; [simpl; f_equal; exact Heq|]. split; [by constructor|].
    destruct rest as [|pm' rest]; [done|].
    destruct Hres as [Hn Hres]. by split.
  - exists [], (pm :: omap (conflationTarget h m) q).
    unfold declines. rewrite Hc. by repeat split.
Qed.

(** C2, as stated, fails: the first matching entry declines, and yet
    no entry is appended, because [conflate] is then called on the
    next matching entry, which absorbs the message. *)
Lemma postMessage_conflates_with_a_later_match :
  map msg (messageQueue st_two_posted) = [Some (cmsg 1); Some (cmsg 2)] ∧
  head (omap (conflationTarget 7 (cmsg 3)) (messageQueue st_two_posted))
    = Some (cmsg 1) ∧
  conflate E_conflate (cmsg 1) (cmsg 3) = Return false ∧
  messageQueue (fst (postMessage E_conflate 0 7 (cmsg 3) st_two_posted))
    = messageQueue st_two_posted ∧
  trace (fst (postMessage E_conflate 0 7 (cmsg 3) st_two_posted))
    = trace st_two_posted
      ++ [EvConflate 0 (cmsg 1) (cmsg 3) (Return false);
          EvConflate 0 (cmsg 2) (cmsg 3) (Return true)].
Proof. by vm_compute. Qed.

(** C2, amended. [postMessage(handler, msg)]: a message that is not
    conflatable is appended as a new entry unconditionally. For a
    conflatable one the queue is scanned in order for the entries with
    the same handler and a conflatable message of the same type, and
    [conflate(msg)] is called on these matches one after the other for
    as long as they decline: the first match that does not decline ends
    the scan, and [msg] is discarded, no entry being appended; if there
    is no match or every match declines, a new entry is appended. *)
Theorem postMessage_conflation
    (E : Env) (d h : nat) (m : Message) (st : state) :
  let entry := mkPosted (nextId st) (Some h) (Some m) in
  let targets := omap (conflationTarget h m) (messageQueue st) in
  (isConflatable m = false →
   postMessage E d h m st = (enqueueMessage h m st, Done tt)) ∧
  messageQueue (enqueueMessage h m st) = messageQueue st ++ [entry] ∧
  (isConflatable m = true →
   ∃ declined rest,
     targets = declined ++ rest ∧
     Forall (declines E m) declined ∧
     match rest with
     | [] =>
         postMessage E d h m st
           = (enqueueMessage h m
                (log_all (conflate_events d m declined (Return false)) st),
              Done tt) ∧
         messageQueue (fst (postMessage E d h m st))
           = messageQueue st ++ [entry]
     | pm :: _ =>
         ¬ declines E m pm ∧
         postMessage E d h m st
           = (log_all (conflate_events d m declined (Return false)
                         ++ [EvConflate d pm m (conflate E pm m)]) st,
              match conflate E pm m with
              | Return _ => Done tt
              | Throw e => Thrown e
              end) ∧
         messageQueue (fst (postMessage E d h m st)) = messageQueue st
     end).
Proof.
  intros entry targets. split; [|split].
  - intros Hc. unfold postMessage. by rewrite Hc.
  - unfold enqueueMessage. simpl. by destruct (pending st).
  - intros Hc. unfold postMessage. rewrite Hc. simpl. unfold bind.
    destruct (someConflate_scan E d h m (messageQueue st) st)
      as (declined & rest & Heq & Hdec & Hres).
    exists declined, rest. split; [done|]. split; [done|].
    destruct rest as [|pm rest].
    + rewrite Hres. unfold upd. split; [done|]. simpl.
      rewrite enqueueMessage_log_all, messageQueue_log_all.
      unfold enqueueMessage. simpl. by destruct (pending st).
    + destruct Hres as [Hn Hres]. rewrite Hres. split; [done|].
      unfold declines in Hn.
      destruct (conflate E pm m) as [[|]|e]; simpl;
        by rewrite ?messageQueue_log_all.
Qed.

(** ** Clearing the data of a handler *)

Lemma silent_frame h tr0 st st' :
  messageQueue st' = messageQueue st → trace st' = trace st →
  silent h tr0 st → silent h tr0 st'.
Proof. intros Hq Ht [H1 H2]. split; by rewrite ?Hq, ?Ht. Qed.

Lemma messageQueue_scheduleCleanup h st :
  messageQueue (scheduleCleanup h st) = messageQueue st.
Proof. frame. Qed.

Lemma messageQueue_clearData h st :
  messageQueue (clearData h st) = map (clearPosted h) (messageQueue st).
Proof.
  unfold clearData. simpl. f_equal.
  destruct (messageHooks st !! h) as [[|x r]|]; try done.
  by rewrite messageQueue_scheduleCleanup.
Qed.

Lemma clearPosted_handler h h' p :
  handler p ≠ Some h → handler (clearPosted h' p) ≠ Some h.
Proof. unfold clearPosted. by destruct (decide _). Qed.

Lemma messageQueue_enqueueMessage h m st :
  messageQueue (enqueueMessage h m st)
    = messageQueue st ++ [mkPosted (nextId st) (Some h) (Some m)].
Proof. unfold enqueueMessage. simpl. by destruct (pending st). Qed.

Lemma silent_log h tr0 e st :
  (∀ d m, e ≠ EvProcess d h m) → silent h tr0 st → silent h tr0 (log e st).
Proof.
  intros He [Hq (new & Ht & Hn)]. split; [done|].
  exists (new ++ [e]). simpl. rewrite Ht, app_assoc. split; [done|].
  intros d m [Hin|Hin]%elem_of_app; [by apply (Hn d m)|].
  apply list_elem_of_singleton in Hin. by apply (He d m).
Qed.

Lemma preserved_silent E dmin h tr0 :
  env_allowed (spares h) E →
  preserved E dmin (silent h tr0) (spares h) (λ h', h' ≠ h).
Proof.
  intros (Hh & Hp & Hx). split; try done.
  - intros st e _ Hsite. apply silent_log. intros d m ->. by simpl in Hsite.
  - intros st h' k _. apply silent_frame;
      [apply messageQueue_installMessageHook|apply trace_installMessageHook].
  - intros st h' k _. apply silent_frame;
      [apply messageQueue_removeMessageHook|apply trace_removeMessageHook].
  - intros st h' _ [Hq Ht]. split; [|by rewrite trace_clearData].
    rewrite messageQueue_clearData. intros p (p0 & -> & Hin)%list_elem_of_fmap.
    by apply clearPosted_handler, Hq.
  - intros st h' m Ha [Hq Ht]. split; [|by rewrite trace_enqueueMessage].
    rewrite messageQueue_enqueueMessage.
    intros p [Hin|Hin]%elem_of_app; [by apply Hq|].
    apply list_elem_of_singleton in Hin as ->. simpl in *. congruence.
  - intros _ st p rest h' [Hq _] Heq Hp' ->. apply (Hq p); [|done].
    rewrite Heq. by left.
  - intros _ st p rest Heq [Hq Ht]. split; [|done]. simpl.
    intros p' Hin. apply Hq. rewrite Heq. by right.
  - intros _ st [Hq Ht]. split; [|done]. simpl.
    intros p [Hin|Hin]%elem_of_app; [by apply Hq|].
    by apply list_elem_of_singleton in Hin as ->.
Qed.

Lemma silent_clearData h st :
  silent h (trace (clearData h st)) (clearData h st).
Proof.
  split.
  - rewrite messageQueue_clearData. intros p (p0 & -> & _)%list_elem_of_fmap.
    unfold clearPosted. by destruct (decide _).
  - exists []. rewrite app_nil_r. split; [done|]. intros d m Hin.
    by apply elem_of_nil in Hin.
Qed.

(** C5. After [clearData(handler)] the queue holds the same entries,
    those of the handler with both fields [null]; every slot of the
    hook array of the handler is tombstoned; an entry whose handler
    field is [null] is skipped when it is taken off the queue; and the
    loop run that follows hands no message to the handler (the user
    code that runs meanwhile sending or posting none to it). *)
Theorem clearData_drops_hooks_and_posted_messages
    (E : Env) (f g d h : nat) (st : state) :
  let run := runScript E f in
  let st1 := clearData h st in
  messageQueue st1 = map (clearPosted h) (messageQueue st) ∧
  length (messageQueue st1) = length (messageQueue st) ∧
  map eid (messageQueue st1) = map eid (messageQueue st) ∧
  (∀ i p, messageQueue st !! i = Some p →
     messageQueue st1 !! i
       = Some (if decide (handler p = Some h)
               then mkPosted (eid p) None None else p)) ∧
  (∀ hooks, messageHooks st !! h = Some hooks →
     messageHooks st1 !! h = Some (replicate (length hooks) None)) ∧
  (∀ g' s st0 p rest,
     messageQueue st0 = p :: rest → eid p ≠ s → handler p = None →
     loop E run (S g') d s st0 = loop E run g' d s (set_messageQueue rest st0)) ∧
  (env_allowed (spares h) E →
   ∃ new,
     trace (fst (runMessageLoop E run g d st1)) = trace st1 ++ new ∧
     ∀ d' m, EvProcess d' h m ∉ new).
Proof.
  intros run st1. subst st1.
  split; [apply messageQueue_clearData|]. rewrite messageQueue_clearData.
  split; [apply length_map|].
  split.
  { rewrite <- list_fmap_compose. apply list_fmap_ext. intros i p _. simpl.
    unfold clearPosted. by destruct (decide _). }
  split.
  { intros i p Hp. by rewrite list_lookup_fmap, Hp. }
  split.
  { intros hooks Hh. unfold clearData. simpl. rewrite Hh.
    destruct hooks as [|x r]; [done|].
    rewrite messageHooks_scheduleCleanup. simpl. by rewrite lookup_insert_eq. }
  split.
  { intros g' s st0 p rest Hq Hs Hh. simpl. rewrite Hq, Hh.
    by apply Nat.eqb_neq in Hs as ->. }
  intros HE. unfold runMessageLoop.
  pose proof (silent_clearData h st) as Hs.
  destruct (messageQueue (set_pending None (clearData h st))) eqn:Hq.
  { exists []. simpl. rewrite app_nil_r. split; [done|]. intros d' m Hin.
    by apply elem_of_nil in Hin. }
  rewrite <- Hq.
  match goal with |- context [loop _ _ _ _ ?s ?st1] =>
    assert (Hl : silent h (trace (clearData h st))
                   (fst (loop E run g d s st1))) end.
  { apply (pres_loop (preserved_silent E d h _ HE)); [done|done|].
    apply (p_sentinel _ _ _ _ _ (preserved_silent E d h _ HE) Logic.I
             (set_pending None (clearData h st))).
    by apply (silent_frame h _ (clearData h st)). }
  destruct Hl as [_ (new & Ht & Hn)]. by exists new.
Qed.

(** Messages posted to handlers 7 and 8, then [clearData] of handler 7:
    the loop run hands handler 7 nothing. *)
Lemma clearData_drops_hooks_and_posted_messages_witness :
  env_allowed (spares 7) E_plain ∧
  ∃ new,
    trace (fst (runMessageLoop E_plain (runScript E_plain 5) 5 0
                  (clearData 7 st_two_handlers)))
      = trace (clearData 7 st_two_handlers) ++ new ∧
    ∀ d' m, EvProcess d' 7 m ∉ new.
Proof.
  split; [apply env_allowed_E_plain|].
  destruct (clearData_drops_hooks_and_posted_messages
              E_plain 5 5 0 7 st_two_handlers) as (_ & _ & _ & _ & _ & _ & H).
  apply H, env_allowed_E_plain.
Defined.

Example clearData_then_loop_run :
  map msg (messageQueue st_two_handlers) = [Some msgA; Some msgB; Some msgC] ∧
  map msg (messageQueue (clearData 7 st_two_handlers)) = [None; Some msgB; None] ∧
  deliveries (trace (fst (runMicrotask E_plain 5 (clearData 7 st_two_handlers))))
    = [(8, msgB)].
Proof. by vm_compute. Qed.


(** ** Installing and removing hooks *)

Lemma indexOf_None k arr : indexOf k arr = None ↔ Some k ∉ arr.
Proof.
  induction arr as [|x r IH]; simpl.
  - split; [intros _; apply not_elem_of_nil|done].
  - destruct (decide (x = Some k)) as [->|Hne].
    + split; [done|]. intros H. destruct H. by left.
    + rewrite fmap_None, IH, not_elem_of_cons. split; [by split|by intros []].
Qed.

Lemma indexOf_Some k arr i :
  indexOf k arr = Some i →
  arr !! i = Some (Some k) ∧ ∀ j, j < i → arr !! j ≠ Some (Some k).
Proof.
  revert i. induction arr as [|x r IH]; intros i; simpl; [done|].
  destruct (decide (x = Some k)) as [->|Hne].
  - intros [= <-]. split; [done|]. lia.
  - intros (i' & Hi' & ->)%fmap_Some. destruct (IH i' Hi') as [H1 H2].
    split; [done|]. intros [|j] Hj; simpl; [congruence|]. apply H2. lia.
Qed.

Lemma omap_id_insert_None (arr : list (option MessageHook)) i :
  omap id (<[i := None]> arr) `sublist_of` omap id arr.
Proof.
  revert i. induction arr as [|x r IH]; intros [|i]; simpl; try done.
  - destruct x; simpl; [by apply sublist_cons|done].
  - destruct x; simpl; [apply sublist_skip|]; apply IH.
Qed.

Lemma omap_id_replicate_None n :
  omap id (replicate n (@None MessageHook)) = [].
Proof. induction n; simpl; auto. Qed.

Lemma omap_id_removeAllNull arr : omap id (removeAllNull arr) = omap id arr.
Proof.
  unfold removeAllNull. induction arr as [|[k|] r IH]; [done| |].
  - rewrite filter_cons_True by done. simpl. f_equal. exact IH.
  - rewrite filter_cons_False by (intros H; by apply H). exact IH.
Qed.

Lemma hooks_distinct_set st st' h arr arr' :
  messageHooks st !! h = Some arr →
  messageHooks st' = <[h := arr']> (messageHooks st) →
  (NoDup (omap id arr) → NoDup (omap id arr')) →
  hooks_distinct st → hooks_distinct st'.
Proof.
  intros Hh Heq Hnd Hd h' a. rewrite Heq.
  destruct (decide (h = h')) as [->|Hne].
  - rewrite lookup_insert_eq. intros [= <-]. by apply Hnd, (Hd h').
  - rewrite lookup_insert_ne; [|done]. apply Hd.
Qed.

Lemma hooks_distinct_frame st st' :
  messageHooks st' = messageHooks st → hooks_distinct st → hooks_distinct st'.
Proof. intros Heq Hd h a. rewrite Heq. apply Hd. Qed.

Lemma hooks_distinct_install h k st :
  hooks_distinct st → hooks_distinct (installMessageHook h k st).
Proof.
  intros Hd. unfold installMessageHook.
  destruct (messageHooks st !! h) as [hooks|] eqn:Hh.
  - destruct (indexOf k hooks) eqn:Hi; [done|].
    eapply hooks_distinct_set; [exact Hh|done| |done].
    intros Hnd. rewrite omap_app. simpl. apply NoDup_app.
    split; [done|]. split; [|apply NoDup_singleton].
    intros x Hx ->%list_elem_of_singleton.
    apply indexOf_None in Hi. apply Hi.
    apply list_elem_of_omap in Hx as (y & Hy & Hyx).
    by destruct y; simplify_eq/=.
  - intros h' a. simpl. destruct (decide (h = h')) as [->|Hne].
    + rewrite lookup_insert_eq. intros [= <-]. simpl. apply NoDup_singleton.
    + rewrite lookup_insert_ne; [|done]. apply Hd.
Qed.

Lemma hooks_distinct_remove h k st :
  hooks_distinct st → hooks_distinct (removeMessageHook h k st).
Proof.
  intros Hd. unfold removeMessageHook.
  destruct (messageHooks st !! h) as [hooks|] eqn:Hh; [|done].
  destruct (indexOf k hooks) as [i|]; [|done].
  eapply hooks_distinct_frame; [apply messageHooks_scheduleCleanup|].
  eapply hooks_distinct_set; [exact Hh|done| |done].
  intros Hnd. eapply sublist_NoDup; [exact Hnd|apply omap_id_insert_None].
Qed.

Lemma hooks_distinct_clear h st :
  hooks_distinct st → hooks_distinct (clearData h st).
Proof.
  intros Hd. unfold clearData.
  eapply hooks_distinct_frame; [reflexivity|].
  destruct (messageHooks st !! h) as [[|x r]|] eqn:Hh; try done.
  eapply hooks_distinct_frame; [apply messageHooks_scheduleCleanup|].
  eapply hooks_distinct_set; [exact Hh|done| |done].
  intros _. unfold fill_null. rewrite omap_id_replicate_None. constructor.
Qed.

Lemma preserved_hooks_distinct E dmin :
  preserved E dmin hooks_distinct (λ _, True) (λ _, True).
Proof.
  split; try done; try (intros; apply allowed_script_True).
  - intros. by apply hooks_distinct_install.
  - intros. by apply hooks_distinct_remove.
  - intros. by apply hooks_distinct_clear.
  - intros. eapply hooks_distinct_frame; [|eassumption].
    apply messageHooks_enqueueMessage.
Qed.

Lemma hooks_distinct_initial : hooks_distinct initial.
Proof. intros h arr. simpl. by rewrite lookup_empty. Qed.

Lemma sendMessage_nonempty E run d h m st arr :
  messageHooks st !! h = Some arr → arr ≠ [] →
  sendMessage E run d h m st
    = (passed <- everyRetro E run (length arr) d h m ;;
       if passed then invokeHandler E run d h m else ret tt) st.
Proof. intros Hh Hne. unfold sendMessage. rewrite Hh. by destruct arr. Qed.

(** The first thing a send does when the newest slot holds a hook. *)
Lemma sendMessage_first_hook E f d h m st hooks k :
  messageHooks st !! h = Some (hooks ++ [Some k]) →
  ∃ new,
    trace (fst (sendMessage E (runScript E f) d h m st))
      = trace st ++ EvHook d k h m :: new.
Proof.
  intros Hh.
  rewrite (sendMessage_nonempty E _ d h m st _ Hh) by (by destruct hooks).
  rewrite length_app, Nat.add_comm. simpl.
  assert (Hat : hookAt h (length hooks) st = Some k).
  { unfold hookAt. rewrite Hh. by rewrite lookup_app_r, Nat.sub_diag. }
  unfold bind. rewrite Hat.
  assert (H1 : ∃ new1,
            trace (fst (invokeHook E (runScript E f) d k h m st))
              = trace st ++ EvHook d k h m :: new1).
  { unfold invokeHook.
    destruct (runScript_extends E f (S d) (hookBody E k h m)
                (log (EvHook d k h m) st)) as (new & Ht & _).
    destruct (runScript E f (S d) _ _) as [st2 [b|e|]]; simpl in *.
    - exists (new ++ [EvHookRet d k (Return b)]).
      by rewrite Ht, <- !app_assoc.
    - unfold bind.
      destruct (invokeExceptionHandler_top E f d e
                  (log (EvHookRet d k (Throw e)) st2)) as (new2 & Ht2 & _).
      destruct (invokeExceptionHandler E (runScript E f) d e _)
        as [st3 [[]|?|]]; simpl in *;
        exists (new ++ EvHookRet d k (Throw e) :: new2);
        by rewrite Ht2, Ht, <- !app_assoc.
    - exists new. by rewrite Ht, <- !app_assoc. }
  destruct H1 as (new1 & Ht1).
  destruct (invokeHook E (runScript E f) d k h m st) as [st1 r1]; simpl in *.
  assert (Hrest : ∀ X : state * status unit,
            extends (trace st1) d (fst X) →
            ∃ new, trace (fst X) = trace st ++ EvHook d k h m :: new).
  { intros X (new2 & Ht2 & _). exists (new1 ++ new2).
    by rewrite Ht2, Ht1, <- app_assoc. }
  destruct r1 as [[|]|e|]; simpl; try (by exists new1).
  pose proof (pres_everyRetro (preserved_extends E (trace st1) d)
                f (length hooks) d h m st1 (le_n _) Logic.I
                (extends_refl st1 d)) as Hev.
  destruct (everyRetro E (runScript E f) (length hooks) d h m st1)
    as [st2 [[|]|e|]]; simpl in *; try (by apply (Hrest (st2, Done tt))).
  apply Hrest. eapply extends_trans; [exact Hev|].
  apply (pres_invokeHandler (preserved_extends E (trace st2) d));
    auto using extends_refl.
Qed.

Lemma NoDup_count (k : MessageHook) (l : list MessageHook) :
  NoDup l → length (filter (λ k', k' = k) l) ≤ 1.
Proof.
  induction 1 as [|x l Hx Hl IH]; [simpl; lia|].
  rewrite filter_cons. destruct (decide (x = k)) as [->|Hne]; [|done].
  assert (Hnil : filter (λ k', k' = k) l = []).
  { clear IH Hl. induction l as [|y l IH]; [done|].
    apply not_elem_of_cons in Hx as [Hy Hl].
    rewrite filter_cons_False by congruence. by apply IH. }
  rewrite Hnil. simpl. lia.
Qed.

Lemma installMessageHook_present h k st :
  Some k ∈ default [] (messageHooks st !! h) → installMessageHook h k st = st.
Proof.
  unfold installMessageHook. destruct (messageHooks st !! h) as [hooks|]; simpl.
  - intros Hin. destruct (indexOf k hooks) eqn:Hi; [done|].
    by apply indexOf_None in Hi.
  - intros Hin. by apply elem_of_nil in Hin.
Qed.

Lemma installMessageHook_absent h k st :
  Some k ∉ default [] (messageHooks st !! h) →
  messageHooks (installMessageHook h k st)
    = <[h := default [] (messageHooks st !! h) ++ [Some k]]> (messageHooks st).
Proof.
  unfold installMessageHook. destruct (messageHooks st !! h) as [hooks|]; simpl.
  - intros Hin. apply indexOf_None in Hin. by rewrite Hin.
  - done.
Qed.

Lemma installMessageHook_installed h k st :
  Some k ∈ default [] (messageHooks (installMessageHook h k st) !! h).
Proof.
  destruct (decide (Some k ∈ default [] (messageHooks st !! h))) as [Hin|Hin].
  - by rewrite installMessageHook_present.
  - rewrite installMessageHook_absent, lookup_insert_eq by done. simpl.
    apply elem_of_app. right. by left.
Qed.

(** C7. [installMessageHook] is idempotent: when the hook is already in
    the array of the handler the call changes nothing, so installing
    twice is installing once, and a send after two installs calls the
    hook at most once; otherwise the hook is appended at the end of the
    array, and it is the first thing the next send calls. *)
Theorem installMessageHook_idempotent
    (E : Env) (f d h : nat) (k : MessageHook) (m : Message) (st : state) :
  let run := runScript E f in
  let st1 := installMessageHook h k st in
  let hooks := default [] (messageHooks st !! h) in
  (Some k ∈ hooks → st1 = st) ∧
  installMessageHook h k st1 = st1 ∧
  (Some k ∉ hooks →
   messageHooks st1 = <[h := hooks ++ [Some k]]> (messageHooks st) ∧
   ∃ new,
     trace (fst (sendMessage E run d h m st1))
       = trace st1 ++ EvHook d k h m :: new) ∧
  (hooks_distinct st →
   ∃ new,
     trace (fst (sendMessage E run d h m (installMessageHook h k st1)))
       = trace st ++ new ∧
     length (filter (λ k', k' = k) (hook_calls (at_depth d new))) ≤ 1).
Proof.
  intros run st1 hooks. subst st1 hooks.
  split; [apply installMessageHook_present|].
  assert (Htwice : installMessageHook h k (installMessageHook h k st)
                   = installMessageHook h k st)
    by apply installMessageHook_present, installMessageHook_installed.
  split; [done|]. split.
  - intros Hin. split; [by apply installMessageHook_absent|].
    eapply sendMessage_first_hook.
    by rewrite installMessageHook_absent, lookup_insert_eq.
  - intros Hd. rewrite Htwice.
    pose proof (hooks_distinct_install h k st Hd) as Hd1.
    destruct (sendMessage E run d h m (installMessageHook h k st))
      as [st2 r2] eqn:Hrun.
    destruct (sendMessage_top E f d h m _ st2 r2 Hrun)
      as (new & ks & Ht & Hsub & Htr & _).
    destruct (send_trace_reading _ _ _ _ _ _ Htr) as (Hk & _).
    exists new. rewrite trace_installMessageHook in Ht. split; [done|].
    rewrite Hk. apply NoDup_count. eapply sublist_NoDup; [|exact Hsub].
    unfold newest_first. rewrite reverse_Permutation.
    destruct (messageHooks (installMessageHook h k st) !! h) as [arr|] eqn:Ha.
    + by apply (Hd1 h).
    + constructor.
Qed.

(** Hooks 1 and 2 installed in this order on handler 7, hook 2 twice:
    a send calls hook 2, then hook 1, then the handler; when hook 2
    returns [false], it calls hook 2 and nothing else. *)
Example install_twice_then_send :
  trace (fst (sendMessage E_plain (runScript E_plain 3) 0 7 msgA
                (installMessageHook 7 (HookFn 2)
                   (installMessageHook 7 (HookFn 2)
                      (installMessageHook 7 (HookFn 1) initial)))))
    = [EvHook 0 (HookFn 2) 7 msgA; EvHookRet 0 (HookFn 2) (Return true);
       EvHook 0 (HookFn 1) 7 msgA; EvHookRet 0 (HookFn 1) (Return true);
       EvProcess 0 7 msgA; EvProcessRet 0 7 (Return true)] ∧
  trace (fst (sendMessage E_veto (runScript E_veto 3) 0 7 msgA
                (installMessageHook 7 (HookFn 2)
                   (installMessageHook 7 (HookFn 1) initial))))
    = [EvHook 0 (HookFn 2) 7 msgA; EvHookRet 0 (HookFn 2) (Return false)].
Proof. by vm_compute. Qed.

(** The second install of a hook changes nothing, and the send that
    follows calls the hook once. *)
Lemma installMessageHook_idempotent_witness :
  hooks_distinct initial ∧
  ∃ new,
    trace (fst (sendMessage E_plain (runScript E_plain 3) 0 7 msgA
                  (installMessageHook 7 (HookFn 2)
                     (installMessageHook 7 (HookFn 2) initial))))
      = trace initial ++ new ∧
    length (filter (λ k', k' = HookFn 2) (hook_calls (at_depth 0 new))) ≤ 1.
Proof.
  split; [apply hooks_distinct_initial|].
  destruct (installMessageHook_idempotent E_plain 3 0 7 (HookFn 2) msgA initial)
    as (_ & _ & _ & H).
  apply H, hooks_distinct_initial.
Defined.

(** ** A removed hook stays out *)

Lemma unhooked_frame h k tr0 st st' :
  messageHooks st' = messageHooks st → trace st' = trace st →
  unhooked h k tr0 st → unhooked h k tr0 st'.
Proof. intros Hq Ht [H1 H2]. split; by rewrite ?Hq, ?Ht. Qed.

Lemma unhooked_set h k tr0 st st' h' arr' :
  messageHooks st' = <[h' := arr']> (messageHooks st) → trace st' = trace st →
  (h' = h → Some k ∉ arr') →
  unhooked h k tr0 st → unhooked h k tr0 st'.
Proof.
  intros Hq Ht Hn [H1 H2]. split; [|by rewrite Ht]. rewrite Hq.
  destruct (decide (h' = h)) as [->|Hne].
  - rewrite lookup_insert_eq. simpl. auto.
  - by rewrite lookup_insert_ne.
Qed.

Lemma elem_of_insert_None (arr : list (option MessageHook)) i k :
  Some k ∈ <[i := None]> arr → Some k ∈ arr.
Proof.
  intros (j & Hj)%list_elem_of_lookup. apply list_elem_of_lookup. exists j.
  destruct (decide (i = j)) as [->|Hne].
  - destruct (decide (j < length arr)).
    + by rewrite list_lookup_insert_eq in Hj.
    + by rewrite list_insert_ge in Hj by lia.
  - by rewrite list_lookup_insert_ne in Hj.
Qed.

Lemma unhooked_install h k tr0 h' k' st :
  AInstall h' k' ≠ AInstall h k →
  unhooked h k tr0 st → unhooked h k tr0 (installMessageHook h' k' st).
Proof.
  intros Hne HU. pose proof HU as [Hk _]. unfold installMessageHook.
  destruct (messageHooks st !! h') as [hooks|] eqn:Hh'.
  - destruct (indexOf k' hooks); [done|].
    eapply unhooked_set; [done|done| |done].
    intros ->. rewrite Hh' in Hk. simpl in Hk.
    intros [Hin|Hin]%elem_of_app; [done|].
    apply list_elem_of_singleton in Hin. congruence.
  - eapply unhooked_set; [done|done| |done].
    intros -> Hin. apply list_elem_of_singleton in Hin. congruence.
Qed.

Lemma unhooked_remove h k tr0 h' k' st :
  unhooked h k tr0 st → unhooked h k tr0 (removeMessageHook h' k' st).
Proof.
  intros HU. pose proof HU as [Hk _]. unfold removeMessageHook.
  destruct (messageHooks st !! h') as [hooks|] eqn:Hh'; [|done].
  destruct (indexOf k' hooks) as [i|]; [|done].
  eapply unhooked_frame;
    [apply messageHooks_scheduleCleanup|by unfold scheduleCleanup; frame|].
  eapply unhooked_set; [done|done| |done].
  intros -> Hin%elem_of_insert_None. by rewrite Hh' in Hk.
Qed.

Lemma unhooked_clear h k tr0 h' st :
  unhooked h k tr0 st → unhooked h k tr0 (clearData h' st).
Proof.
  intros HU. unfold clearData.
  eapply unhooked_frame; [reflexivity|reflexivity|].
  destruct (messageHooks st !! h') as [[|x r]|] eqn:Hh'; try done.
  eapply unhooked_frame;
    [apply messageHooks_scheduleCleanup|by unfold scheduleCleanup; frame|].
  eapply unhooked_set; [done|done| |done].
  intros _. unfold fill_null. intros Hin. by apply elem_of_replicate in Hin as [? _].
Qed.

Lemma hookAt_elem_of h i st k :
  hookAt h i st = Some k → Some k ∈ default [] (messageHooks st !! h).
Proof.
  unfold hookAt. destruct (messageHooks st !! h) as [arr|]; [|done].
  destruct (arr !! i) as [x|] eqn:Hx; [|done]. intros ->. simpl.
  by eapply list_elem_of_lookup_2.
Qed.

Lemma preserved_unhooked E dmin h k tr0 :
  env_allowed (λ a, a ≠ AInstall h k) E →
  preserved E dmin (unhooked h k tr0) (λ a, a ≠ AInstall h k) (λ _, True).
Proof.
  intros (Hh & Hp & Hx). split; try done.
  - intros st e _ Hsite [Hk (new & Ht & Hn)]. split; [done|].
    exists (new ++ [e]). simpl. rewrite Ht, app_assoc. split; [done|].
    intros d m [Hin|Hin]%elem_of_app; [by apply (Hn d m)|].
    apply list_elem_of_singleton in Hin as <-. simpl in Hsite.
    destruct Hsite as [_ [i Hi]]. by apply hookAt_elem_of in Hi.
  - intros. by apply unhooked_install.
  - intros. by apply unhooked_remove.
  - intros. by apply unhooked_clear.
  - intros st h' m _. apply unhooked_frame;
      [apply messageHooks_enqueueMessage|apply trace_enqueueMessage].
Qed.

Lemma messageHooks_cleanupHooks x st h :
  messageHooks (cleanupHooks x st) !! h
    = if decide (x = h) then removeAllNull <$> messageHooks st !! h
      else messageHooks st !! h.
Proof.
  unfold cleanupHooks. destruct (messageHooks st !! x) as [arr|] eqn:Hx; simpl.
  - destruct (decide (x = h)) as [->|Hne].
    + by rewrite lookup_insert_eq, Hx.
    + by rewrite lookup_insert_ne.
  - destruct (decide (x = h)) as [->|Hne]; [by rewrite Hx|done].
Qed.

Lemma removeAllNull_idemp arr : removeAllNull (removeAllNull arr) = removeAllNull arr.
Proof.
  unfold removeAllNull. induction arr as [|[k|] r IH]; [done| |].
  - rewrite filter_cons_True by done. rewrite filter_cons_True by done.
    by rewrite IH.
  - by rewrite filter_cons_False by (intros H; by apply H).
Qed.

Lemma messageHooks_cleanup_fold ds : ∀ st h,
  messageHooks (foldl (λ s x, cleanupHooks x s) st ds) !! h
    = if decide (h ∈ ds) then removeAllNull <$> messageHooks st !! h
      else messageHooks st !! h.
Proof.
  induction ds as [|x ds IH]; intros st h; simpl.
  - destruct (decide (h ∈ [])) as [Hin|]; [by apply elem_of_nil in Hin|done].
  - rewrite IH, messageHooks_cleanupHooks.
    destruct (decide (h ∈ ds)) as [Hin|Hin];
      destruct (decide (x = h)) as [->|Hne].
    + rewrite decide_True by (by right).
      destruct (messageHooks st !! h); simpl; [|done].
      by rewrite removeAllNull_idemp.
    + by rewrite decide_True by (by right).
    + by rewrite decide_True by (by left).
    + rewrite decide_False; [done|].
      intros [?|?]%elem_of_cons; congruence.
Qed.

Lemma messageHooks_cleanupDirtySet st h :
  messageHooks (cleanupDirtySet st) !! h
    = if decide (h ∈ dirtySet st) then removeAllNull <$> messageHooks st !! h
      else messageHooks st !! h.
Proof. unfold cleanupDirtySet. simpl. apply messageHooks_cleanup_fold. Qed.

Lemma trace_cleanupDirtySet st : trace (cleanupDirtySet st) = trace st.
Proof.
  unfold cleanupDirtySet. simpl. generalize (dirtySet st) as ds. intros ds.
  revert st. induction ds as [|x ds IH]; intros st; simpl; [done|].
  rewrite IH. unfold cleanupHooks. by destruct (messageHooks st !! x).
Qed.

Lemma unhooked_cleanupDirtySet h k tr0 st :
  unhooked h k tr0 st → unhooked h k tr0 (cleanupDirtySet st).
Proof.
  intros [Hk Ht]. split; [|by rewrite trace_cleanupDirtySet].
  rewrite messageHooks_cleanupDirtySet.
  destruct (decide (h ∈ dirtySet st)); [|done].
  destruct (messageHooks st !! h) as [arr|]; simpl in *; [|done].
  unfold removeAllNull. intros Hin. by apply list_elem_of_filter in Hin as [_ ?].
Qed.

Lemma unhooked_runMicrotask E fuel h k tr0 st :
  env_allowed (λ a, a ≠ AInstall h k) E →
  unhooked h k tr0 st → unhooked h k tr0 (fst (runMicrotask E fuel st)).
Proof.
  intros HE HU. unfold runMicrotask.
  destruct (tasks st) as [|t ts]; [done|].
  assert (H1 : unhooked h k tr0 (set_tasks ts st)) by done.
  destruct (rejected t); [done|].
  destruct (callback t); simpl.
  - by apply (pres_runMessageLoop (preserved_unhooked E 0 h k tr0 HE)).
  - by apply unhooked_cleanupDirtySet.
Qed.

Lemma unhooked_runSteps E fuel h k tr0 steps : ∀ st,
  env_allowed (λ a, a ≠ AInstall h k) E →
  Forall (λ s, s ≠ Call (AInstall h k)) steps →
  unhooked h k tr0 st → unhooked h k tr0 (runSteps E fuel steps st).
Proof.
  induction steps as [|s r IH]; intros st HE Hs HU; [done|].
  apply Forall_cons in Hs as [Hs Hr]. simpl. apply IH; [done|done|].
  destruct s as [a|]; simpl.
  - apply (pres_doAction (preserved_unhooked E 0 h k tr0 HE)); [lia| |done].
    congruence.
  - by apply unhooked_runMicrotask.
Qed.

Lemma hooks_distinct_cleanupDirtySet st :
  hooks_distinct st → hooks_distinct (cleanupDirtySet st).
Proof.
  intros Hd h arr. rewrite messageHooks_cleanupDirtySet.
  destruct (decide (h ∈ dirtySet st)); [|apply Hd].
  destruct (messageHooks st !! h) as [a|] eqn:Ha; [|done].
  simpl. intros [= <-]. rewrite omap_id_removeAllNull. by apply (Hd h).
Qed.

Lemma hooks_distinct_runMicrotask E fuel st :
  hooks_distinct st → hooks_distinct (fst (runMicrotask E fuel st)).
Proof.
  intros Hd. unfold runMicrotask.
  destruct (tasks st) as [|t ts]; [done|].
  destruct (rejected t); [done|].
  destruct (callback t); simpl.
  - by apply (pres_runMessageLoop (preserved_hooks_distinct E 0)).
  - by apply hooks_distinct_cleanupDirtySet.
Qed.

(** The hooks are distinct in every state the application can reach. *)
Lemma hooks_distinct_runSteps E fuel steps : ∀ st,
  hooks_distinct st → hooks_distinct (runSteps E fuel steps st).
Proof.
  induction steps as [|s r IH]; intros st Hd; [done|].
  simpl. apply IH. destruct s as [a|]; simpl.
  - by apply (pres_doAction (preserved_hooks_distinct E 0)).
  - by apply hooks_distinct_runMicrotask.
Qed.

(** With distinct hooks, a hook is in one slot only. *)
Lemma NoDup_slot (arr : list (option MessageHook)) i j k :
  NoDup (omap id arr) →
  arr !! i = Some (Some k) → arr !! j = Some (Some k) → i = j.
Proof.
  revert i j. induction arr as [|x r IH]; intros i j Hnd Hi Hj; [done|].
  assert (Hin : ∀ n, r !! n = Some (Some k) → k ∈ omap id r).
  { intros n Hn. apply list_elem_of_omap. exists (Some k).
    split; [by eapply list_elem_of_lookup_2|done]. }
  destruct i as [|i], j as [|j]; simpl in *; simplify_eq; try done.
  - apply NoDup_cons in Hnd as [Hk _]. exfalso. apply Hk. by apply (Hin j).
  - apply NoDup_cons in Hnd as [Hk _]. exfalso. apply Hk. by apply (Hin i).
  - f_equal. apply IH; [|done|done].
    destruct x; simpl in Hnd; [by apply NoDup_cons in Hnd as [_ ?]|done].
Qed.

Lemma hookAt_Some h i st k :
  hookAt h i st = Some k →
  ∃ arr, messageHooks st !! h = Some arr ∧ arr !! i = Some (Some k).
Proof.
  unfold hookAt. destruct (messageHooks st !! h) as [arr|]; [|done].
  destruct (arr !! i) as [x|] eqn:Hx; [|done]. intros ->. by exists arr.
Qed.

Lemma indexOf_slot h i st k :
  hooks_distinct st → hookAt h i st = Some k →
  indexOf k (default [] (messageHooks st !! h)) = Some i.
Proof.
  intros Hd (arr & Ha & Hi)%hookAt_Some. rewrite Ha. simpl.
  destruct (indexOf k arr) as [j|] eqn:Hj.
  - f_equal. destruct (indexOf_Some k arr j Hj) as [Hj' _].
    by apply (NoDup_slot arr j i k (Hd h arr Ha)).
  - apply indexOf_None in Hj. destruct Hj. by eapply list_elem_of_lookup_2.
Qed.

Lemma unhooked_removeMessageHook h k st :
  hooks_distinct st →
  unhooked h k (trace st) (removeMessageHook h k st).
Proof.
  intros Hd. split.
  - unfold removeMessageHook.
    destruct (messageHooks st !! h) as [arr|] eqn:Ha;
      [|rewrite Ha; apply not_elem_of_nil].
    destruct (indexOf k arr) as [i|] eqn:Hi.
    + rewrite messageHooks_scheduleCleanup. simpl. rewrite lookup_insert_eq.
      simpl. destruct (indexOf_Some k arr i Hi) as [Hi' _].
      intros (j & Hj)%list_elem_of_lookup.
      destruct (decide (i = j)) as [->|Hne].
      * rewrite list_lookup_insert_eq in Hj; [done|]. by eapply lookup_lt_Some.
      * rewrite list_lookup_insert_ne in Hj by done.
        by pose proof (NoDup_slot arr i j k (Hd h arr Ha) Hi' Hj).
    + rewrite Ha. simpl. by apply indexOf_None.
  - exists []. rewrite trace_removeMessageHook, app_nil_r. split; [done|].
    intros d m Hin. by apply elem_of_nil in Hin.
Qed.

Lemma removeMessageHook_absent h k st :
  Some k ∉ default [] (messageHooks st !! h) → removeMessageHook h k st = st.
Proof.
  unfold removeMessageHook. destruct (messageHooks st !! h) as [arr|]; [|done].
  simpl. intros Hk. apply indexOf_None in Hk. by rewrite Hk.
Qed.

Lemma set_add_elem h s : h ∈ set_add h s.
Proof.
  unfold set_add. destruct (decide (h ∈ s)); [done|].
  apply elem_of_app. right. by left.
Qed.

(** The send during which hook 2 removes itself calls hooks 3, 2, 1 and
    the handler, and leaves the array with its three slots; the next
    send calls hooks 3 and 1 only; the clean-up then drops the slot. *)
Example removal_while_the_hook_runs :
  let run := runScript E_self_remove 3 in
  let st1 := fst (sendMessage E_self_remove run 0 7 msgA st_three_hooks) in
  let st2 := fst (sendMessage E_self_remove run 0 7 msgB st1) in
  snd (sendMessage E_self_remove run 0 7 msgA st_three_hooks) = Done tt ∧
  hook_calls (at_depth 0 (trace st1)) = [HookFn 3; HookFn 2; HookFn 1] ∧
  deliveries (trace st1) = [(7, msgA)] ∧
  messageHooks st1 !! 7 = Some [Some (HookFn 1); None; Some (HookFn 3)] ∧
  hook_calls (at_depth 0 (drop (length (trace st1)) (trace st2)))
    = [HookFn 3; HookFn 1] ∧
  messageHooks (fst (runMicrotask E_self_remove 3 st2)) !! 7
    = Some [Some (HookFn 1); Some (HookFn 3)].
Proof. by vm_compute. Qed.

Lemma hooks_distinct_st_three_hooks : hooks_distinct st_three_hooks.
Proof.
  unfold st_three_hooks.
  do 3 apply hooks_distinct_install. apply hooks_distinct_initial.
Qed.

(** C6. [removeMessageHook(handler, hook)]: a hook that is not installed
    makes it a no-op; otherwise the first slot holding the hook is set to
    [null], the array keeps its length and its other slots, the array is
    put in the dirty set and the clean-up callback is scheduled if none
    is (the clean-up is what removes the slot). Called by user code, also
    by the hook itself while it runs, it returns normally, the slot it
    clears is the one being visited (hooks being distinct), and a send
    under way skips no hook but those tombstoned meanwhile. After the
    call no send calls the hook for that handler, whatever the
    application and the host do next, short of installing it again. *)
Theorem removeMessageHook_tombstones
    (E : Env) (f d h : nat) (k : MessageHook) (m : Message) (st : state) :
  let run := runScript E f in
  let st1 := removeMessageHook h k st in
  let hooks := default [] (messageHooks st !! h) in
  (Some k ∉ hooks → st1 = st) ∧
  (∀ i, indexOf k hooks = Some i →
     messageHooks st1 = <[h := <[i := None]> hooks]> (messageHooks st) ∧
     length (<[i := None]> hooks) = length hooks ∧
     hookAt h i st1 = None ∧
     (∀ j, j ≠ i → hookAt h j st1 = hookAt h j st) ∧
     h ∈ dirtySet st1 ∧
     tasks st1
       = tasks st ++ match dirtySet st with
                     | [] => [mkTask (nextId st) CleanupDirtySet false]
                     | _ :: _ => []
                     end ∧
     messageHooks (cleanupDirtySet st1) !! h
       = Some (removeAllNull (<[i := None]> hooks))) ∧
  (∀ g d', doAction E run g d' (ARemove h k) st = (st1, Done tt)) ∧
  (hooks_distinct st → ∀ i, hookAt h i st = Some k → indexOf k hooks = Some i) ∧
  (∃ new,
     trace (fst (sendMessage E run d h m st)) = trace st ++ new ∧
     (deliveries (at_depth d new) = [(h, m)] →
      ∀ i k', hooks !! i = Some (Some k') →
        k' ∈ hook_calls (at_depth d new) ∨
        hookAt h i (fst (sendMessage E run d h m st)) = None)) ∧
  (hooks_distinct st → env_allowed (λ a, a ≠ AInstall h k) E →
   ∀ fuel steps, Forall (λ s, s ≠ Call (AInstall h k)) steps →
     ∃ new,
       trace (runSteps E fuel steps st1) = trace st ++ new ∧
       ∀ d' m', EvHook d' k h m' ∉ new).
Proof.
  intros run st1 hooks. subst st1 hooks.
  split; [apply removeMessageHook_absent|]. split; [|split; [|split; [|split]]].
  - intros i Hi. unfold removeMessageHook.
    destruct (messageHooks st !! h) as [arr|] eqn:Ha; [|done].
    cbn [default from_option id] in *. rewrite Hi.
    destruct (indexOf_Some k arr i Hi) as [Hi' _].
    assert (Hlt : i < length arr) by (by eapply lookup_lt_Some).
    split; [by rewrite messageHooks_scheduleCleanup|].
    split; [apply length_insert|].
    split; [|split; [|split; [|split]]].
    + unfold hookAt. rewrite messageHooks_scheduleCleanup. simpl.
      by rewrite lookup_insert_eq, list_lookup_insert_eq.
    + intros j Hj. unfold hookAt. rewrite messageHooks_scheduleCleanup. simpl.
      by rewrite lookup_insert_eq, Ha, list_lookup_insert_ne.
    + unfold scheduleCleanup. simpl.
      destruct (dirtySet st); simpl; apply set_add_elem.
    + unfold scheduleCleanup. simpl.
      destruct (dirtySet st); simpl; [done|by rewrite app_nil_r].
    + rewrite messageHooks_cleanupDirtySet, messageHooks_scheduleCleanup.
      simpl. rewrite lookup_insert_eq. rewrite decide_True; [done|].
      unfold scheduleCleanup. simpl.
      destruct (dirtySet st); simpl; apply set_add_elem.
  - done.
  - intros Hd i Hi. by apply indexOf_slot.
  - destruct (sendMessage E run d h m st) as [st2 r2] eqn:Hrun.
    destruct (sendMessage_top E f d h m st st2 r2 Hrun)
      as (new & ks & Ht & _ & Htr & Hall).
    destruct (send_trace_reading _ _ _ _ _ _ Htr) as (Hk & _).
    exists new. split; [done|]. intros Hd i k' Hi. simpl. rewrite Hk.
    destruct (messageHooks st !! h) as [arr|] eqn:Ha; [|done]. simpl in *.
    assert (HT : tombstoned_from arr h
                   (fst (sendMessage E run d h m st))).
    { apply (pres_sendMessage (preserved_tombstoned E d arr h));
        auto using tombstoned_from_refl. }
    rewrite Hrun in HT. simpl in HT.
    destruct (hookAt h i st2) as [k2|] eqn:H2; [left|by right].
    assert (Some k' = Some k2) as [= <-]
      by (by eapply (hookAt_decayed h st2 arr i)).
    apply (Hall ltac:(apply deliveries_at_depth; rewrite Hd; by left) i).
    + by eapply lookup_lt_Some.
    + done.
  - intros Hd HE fuel steps Hs.
    pose proof (unhooked_runSteps E fuel h k (trace st) steps _ HE Hs
                  (unhooked_removeMessageHook h k st Hd)) as [_ HU].
    exact HU.
Qed.

(** Hook 2 removed from handler 7: two sends and a turn of the host
    later it has not been called. *)
Lemma removeMessageHook_tombstones_witness :
  hooks_distinct st_three_hooks ∧
  env_allowed (λ a, a ≠ AInstall 7 (HookFn 2)) E_plain ∧
  ∃ new,
    trace (runSteps E_plain 5 [Call (ASend 7 msgA); Tick; Call (ASend 7 msgB)]
             (removeMessageHook 7 (HookFn 2) st_three_hooks))
      = trace st_three_hooks ++ new ∧
    ∀ d' m', EvHook d' (HookFn 2) 7 m' ∉ new.
Proof.
  split; [apply hooks_distinct_st_three_hooks|].
  split; [apply env_allowed_E_plain|].
  destruct (removeMessageHook_tombstones
              E_plain 5 0 7 (HookFn 2) msgA st_three_hooks)
    as (_ & _ & _ & _ & _ & H).
  apply H.
  - apply hooks_distinct_st_three_hooks.
  - apply env_allowed_E_plain.
  - repeat (apply Forall_cons_2; [discriminate|]). apply Forall_nil_2.
Defined.


(** ** Scheduling of the loop *)

Lemma live_loops_app t1 t2 : live_loops (t1 ++ t2) = live_loops t1 ++ live_loops t2.
Proof. unfold live_loops. by rewrite filter_app, map_app. Qed.

Lemma live_loops_reject t ts :
  live_loops (reject t ts) = filter (λ x, x ≠ t) (live_loops ts).
Proof.
  unfold live_loops, reject. induction ts as [|x ts IH]; [done|].
  simpl. rewrite !filter_cons.
  destruct (tid x =? t) eqn:Ht.
  - apply Nat.eqb_eq in Ht. subst t.
    rewrite decide_False.
    2:{ unfold is_live_loop. simpl. by destruct (callback x). }
    destruct (decide (is_live_loop x = true)); simpl; [|done].
    rewrite filter_cons, decide_False by (intros H; by apply H). done.
  - apply Nat.eqb_neq in Ht.
    destruct (decide (is_live_loop x = true)); simpl; [|done].
    rewrite filter_cons, decide_True by done. by rewrite IH.
Qed.

Lemma sched_ok_frame st st' :
  tasks st' = tasks st → pending st' = pending st → sched_ok st → sched_ok st'.
Proof. unfold sched_ok. by intros -> ->. Qed.

Lemma sched_ok_scheduleCleanup h st : sched_ok st → sched_ok (scheduleCleanup h st).
Proof.
  unfold sched_ok, scheduleCleanup. intros H. simpl.
  destruct (dirtySet st); simpl; [|done].
  by rewrite live_loops_app, H, app_nil_r.
Qed.

Lemma sched_ok_enqueueMessage h m st : sched_ok st → sched_ok (enqueueMessage h m st).
Proof.
  unfold sched_ok, enqueueMessage. intros H. simpl.
  destruct (pending st) as [t|] eqn:Hp; simpl; [by rewrite Hp|].
  by rewrite live_loops_app, H.
Qed.

Lemma sched_ok_cancel t st :
  sched_ok st → pending st = Some t → sched_ok (set_pending None (cancel t st)).
Proof.
  unfold sched_ok. intros H Hp. simpl. rewrite live_loops_reject, H, Hp.
  rewrite filter_cons, decide_False by (intros H'; by apply H'). done.
Qed.

Lemma preserved_sched_ok E dmin :
  preserved E dmin sched_ok (λ _, True) (λ _, True).
Proof.
  split; try done; try (intros; apply allowed_script_True).
  - intros st h k _. apply sched_ok_frame; by frame.
  - intros st h k _ H. unfold removeMessageHook.
    destruct (messageHooks st !! h) as [arr|]; [|done].
    destruct (indexOf k arr); [|done]. by apply sched_ok_scheduleCleanup.
  - intros st h _ H. unfold clearData.
    eapply sched_ok_frame; [reflexivity|reflexivity|].
    destruct (messageHooks st !! h) as [[|x r]|]; try done.
    by apply sched_ok_scheduleCleanup.
  - intros. by apply sched_ok_enqueueMessage.
  - intros _ st t _ Hp H. split; [|done].
    by apply (sched_ok_cancel t st).
  - intros _ st Hp H. unfold sched_ok in *. simpl. by rewrite Hp in H.
Qed.

Lemma live_loops_cons t ts :
  live_loops (t :: ts)
    = if is_live_loop t then tid t :: live_loops ts else live_loops ts.
Proof.
  unfold live_loops. rewrite filter_cons.
  destruct (is_live_loop t); [by rewrite decide_True|by rewrite decide_False].
Qed.

Lemma cleanupDirtySet_sched st :
  tasks (cleanupDirtySet st) = tasks st ∧
  pending (cleanupDirtySet st) = pending st.
Proof.
  unfold cleanupDirtySet. simpl. generalize (dirtySet st) as ds. intros ds.
  revert st. induction ds as [|x ds IH]; intros st; [done|]. simpl.
  destruct (IH (cleanupHooks x st)) as [-> ->].
  unfold cleanupHooks. by destruct (messageHooks st !! x).
Qed.

Lemma sched_ok_runMicrotask E fuel st :
  sched_ok st → sched_ok (fst (runMicrotask E fuel st)).
Proof.
  intros H. unfold runMicrotask.
  destruct (tasks st) as [|t ts] eqn:Hts; [done|].
  unfold sched_ok in H. rewrite Hts, live_loops_cons in H.
  unfold is_live_loop in H.
  destruct (rejected t) eqn:Hr; simpl.
  { unfold sched_ok. simpl. by destruct (callback t). }
  destruct (callback t) eqn:Hc; simpl in H.
  - apply (pres_runMessageLoop (preserved_sched_ok E 0)); [done|done|].
    unfold sched_ok. simpl.
    destruct (pending st); simpl in H; [|done].
    by injection H as _ H.
  - destruct (cleanupDirtySet_sched (set_tasks ts st)) as [Ht Hp].
    by apply (sched_ok_frame (set_tasks ts st)).
Qed.

Lemma sched_ok_runSteps E fuel steps : ∀ st,
  sched_ok st → sched_ok (runSteps E fuel steps st).
Proof.
  induction steps as [|s r IH]; intros st H; [done|].
  simpl. apply IH. destruct s as [a|]; simpl.
  - by apply (pres_doAction (preserved_sched_ok E 0)).
  - by apply sched_ok_runMicrotask.
Qed.

(** C8. At most one loop run is scheduled at any time: the pending
    handle is the cancel function of the only scheduled, uncancelled
    loop callback, from the initial state on, through every call of an
    entry point (with the user code it runs) and every turn of the
    host. [enqueueMessage] schedules a loop run only when the handle is
    [null] and leaves a handle that is set untouched; [runMessageLoop]
    clears the handle before anything else; [flush] cancels the
    callback and clears the handle before it runs the loop. *)
Theorem at_most_one_loop_run_scheduled
    (E : Env) (fuel h : nat) (m : Message) (st : state) :
  sched_ok initial ∧
  (sched_ok st → length (live_loops (tasks st)) ≤ 1) ∧
  (sched_ok st → ∀ steps, sched_ok (runSteps E fuel steps st)) ∧
  (sched_ok st → ∀ d s, sched_ok (fst (runScript E fuel d s st))) ∧
  (∀ t, pending st = Some t →
     pending (enqueueMessage h m st) = Some t ∧
     tasks (enqueueMessage h m st) = tasks st) ∧
  (pending st = None →
   pending (enqueueMessage h m st) = Some (S (nextId st)) ∧
   tasks (enqueueMessage h m st)
     = tasks st ++ [mkTask (S (nextId st)) RunMessageLoop false]) ∧
  (∀ run g d,
     (messageQueue st = [] →
      runMessageLoop E run g d st = (set_pending None st, Done tt)) ∧
     (messageQueue st ≠ [] →
      runMessageLoop E run g d st
        = loop E run g d (nextId st)
            (set_nextId (S (nextId st))
               (set_messageQueue
                  (messageQueue st ++ [mkPosted (nextId st) None None])
                  (set_pending None st))))) ∧
  (∀ run g d t, flushGuard st = false → pending st = Some t →
     flush E run g d st
       = (runMessageLoop E run g d ;;; upd (set_flushGuard false))
           (set_flushGuard true (set_pending None (cancel t st))) ∧
     (sched_ok st → live_loops (tasks (cancel t st)) = [])).
Proof.
  split; [done|]. split; [|split; [|split; [|split; [|split; [|split]]]]].
  - unfold sched_ok. intros ->. destruct (pending st); simpl; lia.
  - intros H steps. by apply sched_ok_runSteps.
  - intros H d s. by apply (pres_runScript (preserved_sched_ok E 0));
      [lia|apply allowed_script_True|].
  - intros t Hp. unfold enqueueMessage. simpl. by rewrite Hp.
  - intros Hp. unfold enqueueMessage. simpl. by rewrite Hp.
  - intros run g d. unfold runMessageLoop. simpl. split.
    + by intros ->.
    + intros Hq. by destruct (messageQueue st).
  - intros run g d t Hg Hp. split.
    + unfold flush. by rewrite Hg, Hp.
    + intros H. pose proof (sched_ok_cancel t st H Hp) as Hc.
      unfold sched_ok in Hc. by simpl in Hc.
Qed.

(** ** The recursion guard of [flush] *)

Lemma preserved_guard E dmin :
  preserved E dmin (λ st, flushGuard st = true) (λ _, True) (λ _, True).
Proof.
  split; try done; try (intros; apply allowed_script_True).
  - intros st h k _ H. rewrite <- H. by frame.
  - intros st h k _ H. rewrite <- H. by frame.
  - intros st h _ H. rewrite <- H. by frame.
  - intros st h m _ H. rewrite <- H. by frame.
  - intros _ st t Hg _ H. congruence.
Qed.

(** C9. [flush()]: when a loop run is scheduled (and no flush is under
    way) the scheduled callback is cancelled, the handle cleared, and
    one loop run is carried out inline under the guard, which is reset
    when the run returns; when no run is scheduled or the guard is set
    the call changes nothing. The guard stays set for as long as the
    run goes on, whatever the user code does, so every [flush] the user
    code calls meanwhile is such a no-op. *)
Theorem flush_runs_the_scheduled_loop_inline
    (E : Env) (f g d : nat) (st : state) :
  let run := runScript E f in
  (flushGuard st = true ∨ pending st = None →
   flush E run g d st = (st, Done tt)) ∧
  (∀ t, flushGuard st = false → pending st = Some t →
     let st0 := set_flushGuard true (set_pending None (cancel t st)) in
     flush E run g d st
       = (runMessageLoop E run g d ;;; upd (set_flushGuard false)) st0 ∧
     Forall (λ x, tid x = t → rejected x = true) (tasks st0) ∧
     pending st0 = None ∧ flushGuard st0 = true ∧
     (∀ st1, runMessageLoop E run g d st0 = (st1, Done tt) →
             flush E run g d st = (set_flushGuard false st1, Done tt))) ∧
  (flushGuard st = true →
   (∀ fuel d' s, flushGuard (fst (runScript E fuel d' s st)) = true) ∧
   (∀ g' d' a, flushGuard (fst (doAction E run g' d' a st)) = true) ∧
   (∀ g' d' sentinel, flushGuard (fst (loop E run g' d' sentinel st)) = true) ∧
   (∀ g' d', flush E run g' d' st = (st, Done tt))).
Proof.
  intros run. split; [|split].
  - unfold flush. intros [->| ->]; [done|]. by destruct (flushGuard st).
  - intros t Hg Hp st0.
    assert (Hfl : flush E run g d st
              = (runMessageLoop E run g d ;;; upd (set_flushGuard false)) st0).
    { unfold flush. by rewrite Hg, Hp. }
    split; [done|]. split; [|split; [done|split; [done|]]].
    + subst st0. simpl. unfold reject. apply Forall_forall.
      intros x (y & -> & Hy)%list_elem_of_fmap.
      destruct (tid y =? t) eqn:Ht; simpl; [done|].
      apply Nat.eqb_neq in Ht. done.
    + intros st1 Hrun. rewrite Hfl. unfold bind. by rewrite Hrun.
  - intros Hg. split; [|split; [|split]].
    + intros fuel d' s.
      by apply (pres_runScript (preserved_guard E 0));
        [lia|apply allowed_script_True|].
    + intros g' d' a. by apply (pres_doAction (preserved_guard E 0)); [lia| |].
    + intros g' d' s. by apply (pres_loop (preserved_guard E 0)); [|lia|].
    + intros g' d'. unfold flush. by rewrite Hg.
Qed.

(** ** A loop run with a flush inside *)

(** C3 fails on the code. The loop run scheduled by the post of [msgA]
    starts with [msgA] alone in the queue. The handler calls [flush()]
    during the run: the guard is not set by a scheduled run, so a second
    run starts inside the first, takes the sentinel of the first off the
    queue and delivers [msgB]. The first run then goes on past its
    bound: it delivers [msgC], posted during the run, finds the queue
    empty and throws a [TypeError]. *)
Theorem loop_run_with_flush_inside_overruns_its_sentinel :
  let res := runMicrotask E_flush_inside 5 st_posted in
  map msg (messageQueue st_posted) = [Some msgA] ∧
  flushGuard st_posted = false ∧
  snd res = Thrown TypeError ∧
  deliveries (trace (fst res)) = [(7, msgA); (7, msgB); (7, msgC)] ∧
  deliveries (at_depth 0 (trace (fst res))) = [(7, msgA); (7, msgC)] ∧
  messageQueue (fst res) = [].
Proof. by vm_compute. Qed.

(** ** A loop run without a flush inside *)

Lemma faded_refl p : faded p p.
Proof. by left. Qed.

Lemma faded_trans p0 p1 p2 : faded p0 p1 → faded p1 p2 → faded p0 p2.
Proof. intros [-> | ->] [-> | ->]; unfold faded, cleared; simpl; auto. Qed.

Lemma faded_clearPosted h p0 p : faded p0 p → faded p0 (clearPosted h p).
Proof.
  intros Hf. eapply faded_trans; [exact Hf|].
  unfold clearPosted, faded, cleared. destruct (decide _); auto.
Qed.

Lemma faded_eid p0 p : faded p0 p → eid p = eid p0.
Proof. by intros [-> | ->]. Qed.

Lemma Forall2_faded_refl q : Forall2 faded q q.
Proof. induction q; constructor; auto using faded_refl. Qed.

Lemma Forall2_faded_trans q0 q1 q2 :
  Forall2 faded q0 q1 → Forall2 faded q1 q2 → Forall2 faded q0 q2.
Proof.
  intros H. revert q2. induction H as [|p0 p1 q0 q1 Hp _ IH]; intros q2 H2.
  - by inversion H2.
  - inversion H2; subst. constructor; [by eapply faded_trans|auto].
Qed.

Lemma Forall2_faded_clear h q : Forall2 faded q (map (clearPosted h) q).
Proof.
  induction q; constructor; auto. apply faded_clearPosted, faded_refl.
Qed.

Lemma Forall2_faded_eid q0 q (P : nat → Prop) :
  Forall2 faded q0 q → Forall (λ p, P (eid p)) q0 → Forall (λ p, P (eid p)) q.
Proof.
  induction 1 as [|p0 p q0 q Hp _ IH]; intros H0; [done|].
  apply Forall_cons in H0 as [H1 H2]. constructor; [|auto].
  by rewrite (faded_eid p0 p Hp).
Qed.

Lemma behind_sentinel_frame s rem0 st st' :
  messageQueue st' = messageQueue st → nextId st ≤ nextId st' →
  behind_sentinel s rem0 st → behind_sentinel s rem0 st'.
Proof.
  intros Hq Hn (rem & added & Heq & Hf & Ha & Hs).
  exists rem, added. rewrite Hq. repeat split; auto. lia.
Qed.

Lemma nextId_scheduleCleanup h st : nextId st ≤ nextId (scheduleCleanup h st).
Proof. unfold scheduleCleanup. destruct (dirtySet st); simpl; lia. Qed.

Lemma nextId_removeMessageHook h k st :
  nextId st ≤ nextId (removeMessageHook h k st).
Proof.
  unfold removeMessageHook. destruct (messageHooks st !! h); [|done].
  destruct (indexOf k _); [|done].
  etrans; [|apply nextId_scheduleCleanup]. done.
Qed.

Lemma nextId_clearData h st : nextId st ≤ nextId (clearData h st).
Proof.
  unfold clearData. simpl.
  destruct (messageHooks st !! h) as [[|x r]|]; try done.
  etrans; [|apply nextId_scheduleCleanup]. done.
Qed.

Lemma nextId_installMessageHook h k st :
  nextId (installMessageHook h k st) = nextId st.
Proof. by frame. Qed.

Lemma nextId_enqueueMessage h m st : nextId st < nextId (enqueueMessage h m st).
Proof. unfold enqueueMessage. simpl. destruct (pending st); simpl; lia. Qed.

Lemma preserved_behind_sentinel E dmin s rem0 :
  env_allowed (λ a, a ≠ AFlush) E →
  preserved E dmin (behind_sentinel s rem0) (λ a, a ≠ AFlush) (λ _, True).
Proof.
  intros (Hh & Hp & Hx). split; try done.
  - intros st h k _. apply behind_sentinel_frame;
      [apply messageQueue_installMessageHook|].
    by rewrite nextId_installMessageHook.
  - intros st h k _. apply behind_sentinel_frame;
      [apply messageQueue_removeMessageHook|apply nextId_removeMessageHook].
  - intros st h _ (rem & added & Heq & Hf & Ha & Hs).
    exists (map (clearPosted h) rem), (map (clearPosted h) added).
    rewrite messageQueue_clearData, Heq, map_app.
    split; [|split; [|split]].
    + done.
    + eapply Forall2_faded_trans; [exact Hf|]. apply Forall2_faded_clear.
    + apply Forall_fmap. eapply Forall_impl; [exact Ha|].
      intros p Hp'. simpl. unfold clearPosted. by destruct (decide _).
    + pose proof (nextId_clearData h st). lia.
  - intros st h m _ (rem & added & Heq & Hf & Ha & Hs).
    exists rem, (added ++ [mkPosted (nextId st) (Some h) (Some m)]).
    rewrite messageQueue_enqueueMessage, Heq, <- app_assoc. simpl.
    split; [done|]. split; [done|]. split.
    + apply Forall_app. split; [done|]. by apply Forall_singleton.
    + pose proof (nextId_enqueueMessage h m st). lia.
Qed.

Lemma live_entries_skip p q :
  handler p = None ∨ msg p = None → live_entries (p :: q) = live_entries q.
Proof.
  unfold live_entries. simpl. intros [-> | ->]; [done|]. by destruct (handler p).
Qed.

Lemma sends_of_nil d : sends_of d [] [].
Proof. exists []. split; [done|constructor]. Qed.

Lemma sends_of_cons d h m ks tr entries top :
  send_trace d h m ks tr (Done tt) → sends_of d entries top →
  sends_of d ((h, m) :: entries) (tr ++ top).
Proof.
  intros Hs (trs & -> & Hf). exists (tr :: trs). split; [done|].
  constructor; [by exists ks|done].
Qed.

Lemma loop_to_sentinel E f d s :
  env_allowed (λ a, a ≠ AFlush) E →
  ∀ g rem0 added st st',
    messageQueue st = rem0 ++ mkPosted s None None :: added →
    Forall (λ p, eid p ≠ s) rem0 →
    Forall (λ p, s < eid p) added →
    s < nextId st →
    loop E (runScript E f) g d s st = (st', Done tt) →
    ∃ new seen,
      trace st' = trace st ++ new ∧
      Forall2 faded rem0 seen ∧
      sends_of d (live_entries seen) (at_depth d new) ∧
      Forall (λ p, s < eid p) (messageQueue st').
Proof.
  intros HE. induction g as [|g IH];
    intros rem0 added st st' Hq Hne Hadd Hs Hrun; [done|].
  simpl in Hrun. rewrite Hq in Hrun.
  destruct rem0 as [|p rem]; simpl in Hrun.
  { rewrite Nat.eqb_refl in Hrun. injection Hrun as <-.
    exists [], []. rewrite app_nil_r.
    split; [done|]. split; [constructor|]. split; [apply sends_of_nil|done]. }
  apply Forall_cons in Hne as [Hp Hne].
  apply Nat.eqb_neq in Hp. rewrite Hp in Hrun.
  set (st1 := set_messageQueue (rem ++ mkPosted s None None :: added) st) in *.
  assert (Hskip :
    loop E (runScript E f) g d s st1 = (st', Done tt) →
    handler p = None ∨ msg p = None →
    ∃ new seen,
      trace st' = trace st ++ new ∧ Forall2 faded (p :: rem) seen ∧
      sends_of d (live_entries seen) (at_depth d new) ∧
      Forall (λ p, s < eid p) (messageQueue st')).
  { intros Hl Hlive.
    destruct (IH rem added st1 st' eq_refl Hne Hadd Hs Hl)
      as (new & seen & Ht & Hf & Hsd & Hfin).
    exists new, (p :: seen).
    split; [done|]. split; [constructor; [apply faded_refl|done]|].
    split; [|done]. by rewrite live_entries_skip.
  }
  destruct (handler p) as [h|] eqn:Hh; [|apply Hskip; auto].
  destruct (msg p) as [m|] eqn:Hm; [|apply Hskip; auto].
  clear Hskip. unfold bind in Hrun.
  destruct (sendMessage E (runScript E f) d h m st1) as [st2 r2] eqn:Hsend.
  destruct r2 as [[]|e|]; [|done|done].
  destruct (sendMessage_top E f d h m st1 st2 (Done tt) Hsend)
    as (new1 & ks & Ht1 & _ & Htr & _).
  assert (HB : behind_sentinel s rem st2).
  { pose proof (pres_sendMessage (preserved_behind_sentinel E d s rem HE)
                  f d h m st1 (le_n _) Logic.I) as HB.
    rewrite Hsend in HB. apply HB.
    exists rem, added. repeat split; auto. apply Forall2_faded_refl. }
  destruct HB as (rem' & added' & Hq2 & Hf2 & Hadd2 & Hs2).
  destruct (IH rem' added' st2 st' Hq2
              (Forall2_faded_eid rem rem' (λ n, n ≠ s) Hf2 Hne) Hadd2 Hs2 Hrun)
    as (new2 & seen & Ht2 & Hf & Hsd & Hfin).
  exists (new1 ++ new2), (p :: seen).
  split; [rewrite Ht2, Ht1; simpl; by rewrite app_assoc|].
  split; [constructor; [apply faded_refl|by eapply Forall2_faded_trans]|].
  split; [|done].
  rewrite at_depth_app. unfold live_entries. simpl. rewrite Hh, Hm.
  by eapply sends_of_cons.
Qed.

(** With no [flush] in the user code, a loop run that returns is bounded
    by its sentinel: it takes off the queue the entries that were there
    when it began, each one as it is found then, sends the message of
    each live one, in order, and leaves in the queue only entries made
    during the run. *)
Lemma runMessageLoop_to_sentinel E f g d st st' :
  env_allowed (λ a, a ≠ AFlush) E →
  Forall (λ p, eid p < nextId st) (messageQueue st) →
  runMessageLoop E (runScript E f) g d st = (st', Done tt) →
  ∃ new seen,
    trace st' = trace st ++ new ∧
    Forall2 faded (messageQueue st) seen ∧
    sends_of d (live_entries seen) (at_depth d new) ∧
    Forall (λ p, nextId st < eid p) (messageQueue st').
Proof.
  intros HE Hfresh. unfold runMessageLoop. simpl.
  destruct (messageQueue st) as [|p q] eqn:Hq.
  { intros [= <-]. exists [], []. simpl. rewrite app_nil_r, Hq.
    split; [done|]. split; [constructor|]. split; [apply sends_of_nil|done]. }
  rewrite <- Hq in *. intros Hrun.
  assert (Hne : Forall (λ p, eid p ≠ nextId st) (messageQueue st)).
  { eapply Forall_impl; [exact Hfresh|]. simpl. lia. }
  apply (loop_to_sentinel E f d (nextId st) HE g (messageQueue st) []
           (set_nextId (S (nextId st))
              (set_messageQueue
                 (messageQueue st ++ [mkPosted (nextId st) None None])
                 (set_pending None st)))
           st' eq_refl Hne (Forall_nil_2 _) (Nat.lt_succ_diag_r _) Hrun).
Qed.

(** The loop run of [st_posted] with a handler that posts [msgB] and
    [msgC] and does not call [flush()]: the run delivers [msgA] and
    leaves the two in the queue for the next run. *)
Example loop_run_defers_what_is_posted_meanwhile :
  let res := runMicrotask E_post_inside 5 st_posted in
  snd res = Done tt ∧
  deliveries (trace (fst res)) = [(7, msgA)] ∧
  map msg (messageQueue (fst res)) = [Some msgB; Some msgC].
Proof. by vm_compute. Qed.

(** * Loop runs, exceptions, the clean-up and conflation *)

(** ** Invariants that withstand user code *)

Lemma withstands_and I1 I2 :
  withstands I1 → withstands I2 → withstands (λ st, I1 st ∧ I2 st).
Proof.
  intros W1 W2. split.
  - intros st e [H1 H2]. split; [by apply (w_log _ W1)|by apply (w_log _ W2)].
  - intros st h k [H1 H2].
    split; [by apply (w_install _ W1)|by apply (w_install _ W2)].
  - intros st h k [H1 H2].
    split; [by apply (w_remove _ W1)|by apply (w_remove _ W2)].
  - intros st h [H1 H2]. split; [by apply (w_clear _ W1)|by apply (w_clear _ W2)].
  - intros st eh [H1 H2].
    split; [by apply (w_setexc _ W1)|by apply (w_setexc _ W2)].
  - intros st h m [H1 H2].
    split; [by apply (w_enqueue _ W1)|by apply (w_enqueue _ W2)].
Qed.

(** User code that never calls [flush] cannot run the loop. *)
Lemma withstands_preserved E dmin I (allowed : action → Prop) :
  env_allowed allowed E → ¬ allowed AFlush → withstands I →
  preserved E dmin I allowed (λ _, True).
Proof.
  intros (Hh & Hp & Hx) Hno W. split; try done.
  - intros st e _ _. apply (w_log _ W).
  - intros st h k _. apply (w_install _ W).
  - intros st h k _. apply (w_remove _ W).
  - intros st h _. apply (w_clear _ W).
  - intros st eh _. apply (w_setexc _ W).
  - intros st h m _. apply (w_enqueue _ W).
Qed.

(** While the guard of [flush] is set, a [flush] in user code is a
    no-op, so user code cannot run the loop either. *)
Section Guarded.
Variable E : Env.
Variable I : state -> Prop.
Hypothesis W : withstands I.
Hypothesis G : ∀ st, I st → flushGuard st = true.

Section GuardedStep.
Variable run : nat -> script -> M bool.
Variable gas : nat.
Hypothesis run_ok : ∀ d s st, I st → I (fst (run d s st)).

Lemma guarded_invokeExceptionHandler d err st :
  I st → I (fst (invokeExceptionHandler E run d err st)).
Proof using W run_ok.
  intros HI. unfold invokeExceptionHandler.
  assert (H1 : I (log (EvExc d (exceptionHandler st) err) st))
    by (by apply (w_log _ W)).
  destruct (exceptionHandler st) as [|n]; simpl.
  - by apply (w_log _ W).
  - pose proof (run_ok (S d) (handleException E n err) _ H1) as H2.
    destruct (run (S d) (handleException E n err) _) as [st2 [b|e|]];
      simpl in *; auto; by apply (w_log _ W).
Qed.

Lemma guarded_invokeHook d k h m st :
  I st → I (fst (invokeHook E run d k h m st)).
Proof using W run_ok.
  intros HI. unfold invokeHook.
  assert (H1 : I (log (EvHook d k h m) st)) by (by apply (w_log _ W)).
  pose proof (run_ok (S d) (hookBody E k h m) _ H1) as H2.
  destruct (run (S d) (hookBody E k h m) _) as [st2 [b|e|]]; simpl in *; auto.
  - by apply (w_log _ W).
  - unfold bind.
    pose proof (guarded_invokeExceptionHandler d e
                  (log (EvHookRet d k (Throw e)) st2)
                  ltac:(by apply (w_log _ W))) as H3.
    destruct (invokeExceptionHandler E run d e _) as [st3 [[]|e'|]];
      simpl in *; auto.
Qed.

Lemma guarded_invokeHandler d h m st :
  I st → I (fst (invokeHandler E run d h m st)).
Proof using W run_ok.
  intros HI. unfold invokeHandler.
  assert (H1 : I (log (EvProcess d h m) st)) by (by apply (w_log _ W)).
  pose proof (run_ok (S d) (processMessage E h m) _ H1) as H2.
  destruct (run (S d) (processMessage E h m) _) as [st2 [b|e|]];
    simpl in *; auto.
  - by apply (w_log _ W).
  - apply guarded_invokeExceptionHandler. by apply (w_log _ W).
Qed.

Lemma guarded_everyRetro n d h m st :
  I st → I (fst (everyRetro E run n d h m st)).
Proof using W run_ok.
  revert st. induction n as [|i IH]; intros st HI; simpl; auto.
  destruct (hookAt h i st) as [k|] eqn:Hk; auto.
  unfold bind. pose proof (guarded_invokeHook d k h m st HI) as H1.
  destruct (invokeHook E run d k h m st) as [st1 [[|]|e|]]; simpl in *; auto.
Qed.

Lemma guarded_sendMessage_step d h m st :
  I st → I (fst (sendMessage E run d h m st)).
Proof using W run_ok.
  intros HI. unfold sendMessage.
  destruct (messageHooks st !! h) as [[|x r]|];
    try (by apply guarded_invokeHandler).
  unfold bind.
  pose proof (guarded_everyRetro (length (x :: r)) d h m st HI) as H1.
  destruct (everyRetro E run _ d h m st) as [st1 [[|]|e|]]; simpl in *; auto.
  by apply guarded_invokeHandler.
Qed.

Lemma guarded_someConflate d h m q st :
  I st → I (fst (someConflate E d h m q st)).
Proof using W.
  revert st. induction q as [|p q IH]; intros st HI; simpl; auto.
  destruct (conflationTarget h m p) as [pm|]; auto.
  destruct (conflate E pm m) as [[|]|e]; simpl;
    try apply IH; by apply (w_log _ W).
Qed.

Lemma guarded_postMessage d h m st :
  I st → I (fst (postMessage E d h m st)).
Proof using W.
  intros HI. unfold postMessage.
  destruct (isConflatable m); simpl; [|by apply (w_enqueue _ W)].
  unfold bind. pose proof (guarded_someConflate d h m (messageQueue st) st HI) as H1.
  destruct (someConflate E d h m _ st) as [st1 [[|]|e|]]; simpl in *; auto.
  by apply (w_enqueue _ W).
Qed.

Lemma guarded_doAction d a st :
  I st → I (fst (doAction E run gas d a st)).
Proof using W G run_ok.
  intros HI. destruct a; simpl.
  - by apply guarded_sendMessage_step.
  - by apply guarded_postMessage.
  - by apply (w_install _ W).
  - by apply (w_remove _ W).
  - by apply (w_clear _ W).
  - unfold flush. by rewrite (G st HI).
  - by apply (w_setexc _ W).
Qed.

Lemma guarded_runActions d acts st :
  I st → I (fst (runActions E run gas d acts st)).
Proof using W G run_ok.
  revert st. induction acts as [|a r IH]; intros st HI; simpl; auto.
  unfold bind. pose proof (guarded_doAction d a st HI) as H1.
  destruct (doAction E run gas d a st) as [st1 [[]|e|]]; simpl in *; auto.
Qed.
End GuardedStep.

Lemma guarded_runScript fuel : ∀ d s st,
  I st → I (fst (runScript E fuel d s st)).
Proof using W G.
  induction fuel as [|f IH]; intros d s st HI; simpl; auto.
  unfold bind.
  pose proof (guarded_runActions (runScript E f) f IH d (actions s) st HI) as H1.
  destruct (runActions E (runScript E f) f d (actions s) st)
    as [st1 [[]|e|]]; simpl in *; auto.
  destruct (final s); auto.
Qed.

Lemma guarded_sendMessage f d h m st :
  I st → I (fst (sendMessage E (runScript E f) d h m st)).
Proof using W G.
  apply guarded_sendMessage_step. intros. by apply guarded_runScript.
Qed.
End Guarded.

(** ** What user code can do to the queue during a loop run *)

Lemma withstands_guard : withstands (λ st, flushGuard st = true).
Proof. split; intros * H; rewrite <- H; by frame. Qed.

Lemma pending_scheduleCleanup h st : pending (scheduleCleanup h st) = pending st.
Proof. by frame. Qed.

Lemma pending_removeMessageHook h k st :
  pending (removeMessageHook h k st) = pending st.
Proof. by frame. Qed.

Lemma pending_clearData h st : pending (clearData h st) = pending st.
Proof. by frame. Qed.

Lemma pending_enqueueMessage h m st : pending (enqueueMessage h m st) ≠ None.
Proof. unfold enqueueMessage. simpl. by destruct (pending st) eqn:Hp; simpl; rewrite ?Hp. Qed.

Lemma run_pending_frame s st st' :
  messageQueue st' = messageQueue st → pending st' = pending st →
  run_pending s st → run_pending s st'.
Proof. unfold run_pending. by intros -> ->. Qed.

Lemma eid_clearPosted h p : eid (clearPosted h p) = eid p.
Proof. unfold clearPosted. by destruct (decide _). Qed.

Lemma withstands_in_run s rem0 : withstands (in_run s rem0).
Proof.
  split.
  - intros st e [HB HP]. split; [by apply (behind_sentinel_frame s rem0 st)|].
    by apply (run_pending_frame s st).
  - intros st h k [HB HP]. split.
    + apply (behind_sentinel_frame s rem0 st);
        [apply messageQueue_installMessageHook| |done].
      by rewrite nextId_installMessageHook.
    + apply (run_pending_frame s st); [|by frame|done].
      apply messageQueue_installMessageHook.
  - intros st h k [HB HP]. split.
    + apply (behind_sentinel_frame s rem0 st);
        [apply messageQueue_removeMessageHook
        |apply nextId_removeMessageHook|done].
    + apply (run_pending_frame s st); [|apply pending_removeMessageHook|done].
      apply messageQueue_removeMessageHook.
  - intros st h [(rem & added & Heq & Hf & Ha & Hs) [HP1 HP2]]. split.
    + exists (map (clearPosted h) rem), (map (clearPosted h) added).
      rewrite messageQueue_clearData, Heq, map_app.
      split; [done|]. split; [|split].
      * eapply Forall2_faded_trans; [exact Hf|]. apply Forall2_faded_clear.
      * apply Forall_fmap. eapply Forall_impl; [exact Ha|].
        intros p Hp'. simpl. by rewrite eid_clearPosted.
      * pose proof (nextId_clearData h st). lia.
    + unfold run_pending.
      rewrite messageQueue_clearData, pending_clearData. split.
      * intros Hp. apply Forall_fmap. eapply Forall_impl; [exact (HP1 Hp)|].
        intros p Hp'. simpl. by rewrite eid_clearPosted.
      * intros Hp. apply Exists_fmap. eapply Exists_impl; [exact (HP2 Hp)|].
        intros p Hp'. simpl. by rewrite eid_clearPosted.
  - intros st eh [HB HP]. split; [by apply (behind_sentinel_frame s rem0 st)|].
    by apply (run_pending_frame s st).
  - intros st h m [(rem & added & Heq & Hf & Ha & Hs) [HP1 HP2]]. split.
    + exists rem, (added ++ [mkPosted (nextId st) (Some h) (Some m)]).
      rewrite messageQueue_enqueueMessage, Heq, <- app_assoc. simpl.
      split; [done|]. split; [done|]. split.
      * apply Forall_app. split; [done|]. by apply Forall_singleton.
      * pose proof (nextId_enqueueMessage h m st). lia.
    + split.
      * intros Hp. by destruct (pending_enqueueMessage h m st).
      * intros _. rewrite messageQueue_enqueueMessage.
        apply Exists_app. right. by apply Exists_cons_hd.
Qed.

(** ** A loop run that user code cannot run into

    [K] is what is known of the state while the run goes on, besides
    [in_run]; a [sendMessage] of the run keeps both. *)
Section BoundedRun.
Variable E : Env.
Variables f d s : nat.
Variable K : state -> Prop.
Hypothesis K_send : ∀ rem h m st,
  K st → in_run s rem st →
  K (fst (sendMessage E (runScript E f) d h m st)) ∧
  in_run s rem (fst (sendMessage E (runScript E f) d h m st)).
Hypothesis K_pop : ∀ q st, K st → K (set_messageQueue q st).

Lemma in_run_pop p rem added st :
  messageQueue st = p :: rem ++ mkPosted s None None :: added →
  eid p < s → Forall (λ p, s < eid p) added → s < nextId st →
  run_pending s st →
  in_run s rem (set_messageQueue (rem ++ mkPosted s None None :: added) st).
Proof.
  intros Hq Hp Hadd Hs [HP1 HP2]. split.
  - exists rem, added. split; [done|]. split; [apply Forall2_faded_refl|done].
  - split; simpl.
    + intros Hn. specialize (HP1 Hn). rewrite Hq in HP1.
      by apply Forall_cons in HP1 as [_ ?].
    + intros Hn. specialize (HP2 Hn). rewrite Hq in HP2.
      apply Exists_cons in HP2 as [HP2|HP2]; [lia|done].
Qed.

Lemma loop_bounded : ∀ g rem0 added st st',
  K st →
  messageQueue st = rem0 ++ mkPosted s None None :: added →
  Forall (λ p, eid p < s) rem0 →
  Forall (λ p, s < eid p) added →
  s < nextId st →
  run_pending s st →
  loop E (runScript E f) g d s st = (st', Done tt) →
  ∃ new seen,
    trace st' = trace st ++ new ∧
    Forall2 faded rem0 seen ∧
    sends_of d (live_entries seen) (at_depth d new) ∧
    Forall (λ p, s < eid p) (messageQueue st') ∧
    (pending st' = None ↔ messageQueue st' = []).
Proof using K_send K_pop.
  induction g as [|g IH];
    intros rem0 added st st' HK Hq Hlt Hadd Hs HP Hrun; [done|].
  simpl in Hrun. rewrite Hq in Hrun.
  destruct rem0 as [|p rem]; simpl in Hrun.
  { rewrite Nat.eqb_refl in Hrun. injection Hrun as <-.
    exists [], []. rewrite app_nil_r.
    split; [done|]. split; [constructor|]. split; [apply sends_of_nil|].
    split; [done|]. simpl. destruct HP as [HP1 HP2]. rewrite Hq in HP1, HP2.
    split.
    - intros Hn. specialize (HP1 Hn). apply Forall_cons in HP1 as [_ HP1].
      destruct added as [|a added]; [done|].
      apply Forall_cons in HP1 as [H1 _]. apply Forall_cons in Hadd as [H2 _].
      lia.
    - intros ->. destruct (pending st) eqn:Hn; [|done].
      specialize (HP2 ltac:(done)).
      apply Exists_cons in HP2 as [HP2|HP2]; [simpl in HP2; lia|].
      by apply Exists_nil in HP2. }
  apply Forall_cons in Hlt as [Hp Hlt].
  assert (Hpne : (eid p =? s) = false) by (apply Nat.eqb_neq; lia).
  rewrite Hpne in Hrun.
  set (st1 := set_messageQueue (rem ++ mkPosted s None None :: added) st) in *.
  assert (HR1 : in_run s rem st1) by (by apply (in_run_pop p)).
  assert (HK1 : K st1) by (by apply K_pop).
  assert (Hskip :
    loop E (runScript E f) g d s st1 = (st', Done tt) →
    handler p = None ∨ msg p = None →
    ∃ new seen,
      trace st' = trace st ++ new ∧ Forall2 faded (p :: rem) seen ∧
      sends_of d (live_entries seen) (at_depth d new) ∧
      Forall (λ p, s < eid p) (messageQueue st') ∧
      (pending st' = None ↔ messageQueue st' = [])).
  { intros Hl Hlive.
    destruct (IH rem added st1 st' HK1 eq_refl Hlt Hadd Hs (proj2 HR1) Hl)
      as (new & seen & Ht & Hf & Hsd & Hfin).
    exists new, (p :: seen).
    split; [done|]. split; [constructor; [apply faded_refl|done]|].
    split; [|done]. by rewrite live_entries_skip. }
  destruct (handler p) as [h|] eqn:Hh; [|apply Hskip; auto].
  destruct (msg p) as [m|] eqn:Hm; [|apply Hskip; auto].
  clear Hskip. unfold bind in Hrun.
  destruct (sendMessage E (runScript E f) d h m st1) as [st2 r2] eqn:Hsend.
  destruct r2 as [[]|e|]; [|done|done].
  destruct (sendMessage_top E f d h m st1 st2 (Done tt) Hsend)
    as (new1 & ks & Ht1 & _ & Htr & _).
  destruct (K_send rem h m st1 HK1 HR1) as [HK2 HR2].
  rewrite Hsend in HK2, HR2. simpl in HK2, HR2.
  destruct HR2 as [(rem' & added' & Hq2 & Hf2 & Hadd2 & Hs2) HP2].
  destruct (IH rem' added' st2 st' HK2 Hq2
              (Forall2_faded_eid rem rem' (λ n, n < s) Hf2 Hlt) Hadd2 Hs2 HP2 Hrun)
    as (new2 & seen & Ht2 & Hf & Hsd & Hfin).
  exists (new1 ++ new2), (p :: seen).
  split; [rewrite Ht2, Ht1; simpl; by rewrite app_assoc|].
  split; [constructor; [apply faded_refl|by eapply Forall2_faded_trans]|].
  split; [|done].
  rewrite at_depth_app. unfold live_entries. simpl. rewrite Hh, Hm.
  by eapply sends_of_cons.
Qed.

(** The loop does not find the queue empty: when no [sendMessage] of
    the run throws, the loop does not throw. *)
Lemma loop_no_throw :
  (∀ h m st0, K st0 →
     ∀ e, snd (sendMessage E (runScript E f) d h m st0) ≠ Thrown e) →
  ∀ g rem0 added st,
  K st →
  messageQueue st = rem0 ++ mkPosted s None None :: added →
  Forall (λ p, eid p < s) rem0 →
  Forall (λ p, s < eid p) added →
  s < nextId st →
  run_pending s st →
  ∀ e, snd (loop E (runScript E f) g d s st) ≠ Thrown e.
Proof using K_send K_pop.
  intros Hno. induction g as [|g IH];
    intros rem0 added st HK Hq Hlt Hadd Hs HP e; [done|].
  simpl. rewrite Hq.
  destruct rem0 as [|p rem]; simpl.
  { by rewrite Nat.eqb_refl. }
  apply Forall_cons in Hlt as [Hp Hlt].
  assert (Hpne : (eid p =? s) = false) by (apply Nat.eqb_neq; lia).
  rewrite Hpne.
  set (st1 := set_messageQueue (rem ++ mkPosted s None None :: added) st) in *.
  assert (HR1 : in_run s rem st1) by (by apply (in_run_pop p)).
  assert (HK1 : K st1) by (by apply K_pop).
  assert (Hskip : snd (loop E (runScript E f) g d s st1) ≠ Thrown e)
    by (by apply (IH rem added st1 HK1 eq_refl Hlt Hadd Hs (proj2 HR1))).
  destruct (handler p) as [h|]; [|done].
  destruct (msg p) as [m|]; [|done].
  clear Hskip. unfold bind.
  pose proof (Hno h m st1 HK1) as Hs1.
  destruct (K_send rem h m st1 HK1 HR1) as [HK2 HR2].
  destruct (sendMessage E (runScript E f) d h m st1) as [st2 r2] eqn:Hsend.
  simpl in *.
  destruct r2 as [[]|e2|]; [|by destruct (Hs1 e2)|done].
  destruct HR2 as [(rem' & added' & Hq2 & Hf2 & Hadd2 & Hs2) HP2].
  by apply (IH rem' added' st2 HK2 Hq2
              (Forall2_faded_eid rem rem' (λ n, n < s) Hf2 Hlt) Hadd2 Hs2 HP2).
Qed.
Lemma run_pending_iff rem added st :
  messageQueue st = rem ++ mkPosted s None None :: added →
  Forall (λ p, eid p < s) rem → Forall (λ p, s < eid p) added →
  run_pending s st → (pending st = None ↔ added = []).
Proof.
  intros Hq Hrem Hadd [HP1 HP2]. rewrite Hq in HP1, HP2. split.
  - intros Hn. specialize (HP1 Hn).
    apply Forall_app in HP1 as [_ HP1]. apply Forall_cons in HP1 as [_ HP1].
    destruct added as [|a added]; [done|].
    apply Forall_cons in HP1 as [H1 _]. apply Forall_cons in Hadd as [H2 _].
    lia.
  - intros ->. destruct (pending st) eqn:Hn; [|done].
    specialize (HP2 ltac:(done)).
    apply Exists_app in HP2 as [HP2|HP2].
    + apply Exists_exists in HP2 as (p & Hin & Hp).
      rewrite Forall_forall in Hrem. specialize (Hrem p Hin). simpl in *. lia.
    + apply Exists_cons in HP2 as [HP2|HP2]; [simpl in HP2; lia|].
      by apply Exists_nil in HP2.
Qed.

(** A run that an exception ends has taken some entries off the queue
    and left the others where they were, with its sentinel. *)
Lemma loop_cut_short : ∀ g rem0 added st st' e,
  K st →
  messageQueue st = rem0 ++ mkPosted s None None :: added →
  Forall (λ p, eid p < s) rem0 →
  Forall (λ p, s < eid p) added →
  s < nextId st →
  run_pending s st →
  loop E (runScript E f) g d s st = (st', Thrown e) →
  ∃ taken left left' added',
    rem0 = taken ++ left ∧ taken ≠ [] ∧
    messageQueue st' = left' ++ mkPosted s None None :: added' ∧
    Forall2 faded left left' ∧
    Forall (λ p, s < eid p) added' ∧
    (pending st' = None ↔ added' = []).
Proof using K_send K_pop.
  induction g as [|g IH];
    intros rem0 added st st' e HK Hq Hlt Hadd Hs HP Hrun; [done|].
  simpl in Hrun. rewrite Hq in Hrun.
  destruct rem0 as [|p rem]; simpl in Hrun.
  { by rewrite Nat.eqb_refl in Hrun. }
  apply Forall_cons in Hlt as [Hp Hlt].
  assert (Hpne : (eid p =? s) = false) by (apply Nat.eqb_neq; lia).
  rewrite Hpne in Hrun.
  set (st1 := set_messageQueue (rem ++ mkPosted s None None :: added) st) in *.
  assert (HR1 : in_run s rem st1) by (by apply (in_run_pop p)).
  assert (HK1 : K st1) by (by apply K_pop).
  assert (Hskip :
    loop E (runScript E f) g d s st1 = (st', Thrown e) →
    ∃ taken left left' added',
      p :: rem = taken ++ left ∧ taken ≠ [] ∧
      messageQueue st' = left' ++ mkPosted s None None :: added' ∧
      Forall2 faded left left' ∧
      Forall (λ p, s < eid p) added' ∧
      (pending st' = None ↔ added' = [])).
  { intros Hl.
    destruct (IH rem added st1 st' e HK1 eq_refl Hlt Hadd Hs (proj2 HR1) Hl)
      as (taken & left & left' & added' & -> & _ & Hq' & Hf & Ha' & Hp').
    by exists (p :: taken), left, left', added'. }
  destruct (handler p) as [h|] eqn:Hh; [|by apply Hskip].
  destruct (msg p) as [m|] eqn:Hm; [|by apply Hskip].
  clear Hskip. unfold bind in Hrun.
  destruct (K_send rem h m st1 HK1 HR1) as [HK2 HR2].
  destruct (sendMessage E (runScript E f) d h m st1) as [st2 r2] eqn:Hsend.
  simpl in HK2, HR2.
  destruct HR2 as [(rem' & added2 & Hq2 & Hf2 & Hadd2 & Hs2) HP2].
  pose proof (Forall2_faded_eid rem rem' (λ n, n < s) Hf2 Hlt) as Hlt2.
  destruct r2 as [[]|e2|]; [| |done].
  - destruct (IH rem' added2 st2 st' e HK2 Hq2 Hlt2 Hadd2 Hs2 HP2 Hrun)
      as (taken & left & left' & added' & Heq & _ & Hq' & Hf & Ha' & Hp').
    subst rem'. apply Forall2_app_inv_r in Hf2
      as (taken0 & left0 & Hft & Hfl & ->).
    exists (p :: taken0), left0, left', added'.
    split; [done|]. split; [done|]. split; [done|].
    split; [by eapply Forall2_faded_trans|done].
  - injection Hrun as <- <-.
    exists [p], rem, rem', added2.
    split; [done|]. split; [done|]. split; [done|]. split; [done|].
    split; [done|]. by apply (run_pending_iff rem' added2 st2).
Qed.
(** What is known of the state besides [in_run] is known when the
    loop is over, however it ends. *)
Lemma loop_keeps : ∀ g rem0 added st,
  K st →
  messageQueue st = rem0 ++ mkPosted s None None :: added →
  Forall (λ p, eid p < s) rem0 →
  Forall (λ p, s < eid p) added →
  s < nextId st →
  run_pending s st →
  K (fst (loop E (runScript E f) g d s st)).
Proof using K_send K_pop.
  induction g as [|g IH]; intros rem0 added st HK Hq Hlt Hadd Hs HP; [done|].
  simpl. rewrite Hq.
  destruct rem0 as [|p rem]; simpl.
  { rewrite Nat.eqb_refl. by apply K_pop. }
  apply Forall_cons in Hlt as [Hp Hlt].
  assert (Hpne : (eid p =? s) = false) by (apply Nat.eqb_neq; lia).
  rewrite Hpne.
  set (st1 := set_messageQueue (rem ++ mkPosted s None None :: added) st) in *.
  assert (HR1 : in_run s rem st1) by (by apply (in_run_pop p)).
  assert (HK1 : K st1) by (by apply K_pop).
  assert (Hskip : K (fst (loop E (runScript E f) g d s st1)))
    by (by apply (IH rem added st1 HK1 eq_refl Hlt Hadd Hs (proj2 HR1))).
  destruct (handler p) as [h|]; [|done].
  destruct (msg p) as [m|]; [|done].
  clear Hskip. unfold bind.
  destruct (K_send rem h m st1 HK1 HR1) as [HK2 HR2].
  destruct (sendMessage E (runScript E f) d h m st1) as [st2 r2] eqn:Hsend.
  simpl in *.
  destruct r2 as [[]|e2|]; [|done|done].
  destruct HR2 as [(rem' & added' & Hq2 & Hf2 & Hadd2 & Hs2) HP2].
  by apply (IH rem' added' st2 HK2 Hq2
              (Forall2_faded_eid rem rem' (λ n, n < s) Hf2 Hlt) Hadd2 Hs2 HP2).
Qed.
End BoundedRun.

(** ** The entries of the queue are older than the next object *)

Lemma fresh_frame st st' :
  messageQueue st' = messageQueue st → nextId st ≤ nextId st' →
  fresh st → fresh st'.
Proof.
  unfold fresh. intros -> Hn H. eapply Forall_impl; [exact H|]. simpl. lia.
Qed.

Lemma fresh_clearData h st : fresh st → fresh (clearData h st).
Proof.
  unfold fresh. intros H. rewrite messageQueue_clearData. apply Forall_fmap.
  eapply Forall_impl; [exact H|]. intros p Hp.
  pose proof (nextId_clearData h st). unfold compose.
  rewrite eid_clearPosted. cbv beta in *. lia.
Qed.

Lemma fresh_enqueueMessage h m st : fresh st → fresh (enqueueMessage h m st).
Proof.
  unfold fresh. intros H. rewrite messageQueue_enqueueMessage.
  pose proof (nextId_enqueueMessage h m st).
  apply Forall_app. split.
  - eapply Forall_impl; [exact H|]. simpl. lia.
  - by apply Forall_singleton.
Qed.

Lemma preserved_fresh E dmin : preserved E dmin fresh (λ _, True) (λ _, True).
Proof.
  split; try done; try (intros; apply allowed_script_True).
  - intros st h k _. apply fresh_frame;
      [apply messageQueue_installMessageHook|by rewrite nextId_installMessageHook].
  - intros st h k _. apply fresh_frame;
      [apply messageQueue_removeMessageHook|apply nextId_removeMessageHook].
  - intros st h _. apply fresh_clearData.
  - intros st h m _. apply fresh_enqueueMessage.
  - intros _ st p rest Hq H. unfold fresh in *. rewrite Hq in H. simpl.
    by apply Forall_cons in H as [_ ?].
  - intros _ st H. unfold fresh in *. simpl. apply Forall_app. split.
    + eapply Forall_impl; [exact H|]. simpl. lia.
    + apply Forall_singleton. simpl. lia.
Qed.

Lemma messageQueue_cleanupDirtySet st :
  messageQueue (cleanupDirtySet st) = messageQueue st ∧
  nextId (cleanupDirtySet st) = nextId st ∧
  flushGuard (cleanupDirtySet st) = flushGuard st ∧
  exceptionHandler (cleanupDirtySet st) = exceptionHandler st.
Proof.
  unfold cleanupDirtySet. simpl. generalize (dirtySet st) as ds. intros ds.
  revert st. induction ds as [|x ds IH]; intros st; [done|]. simpl.
  destruct (IH (cleanupHooks x st)) as (-> & -> & -> & ->).
  unfold cleanupHooks. by destruct (messageHooks st !! x).
Qed.

Lemma fresh_runMicrotask E fuel st : fresh st → fresh (fst (runMicrotask E fuel st)).
Proof.
  intros H. unfold runMicrotask.
  destruct (tasks st) as [|t ts]; [done|].
  destruct (rejected t); [done|].
  destruct (callback t); simpl.
  - by apply (pres_runMessageLoop (preserved_fresh E 0)).
  - destruct (messageQueue_cleanupDirtySet (set_tasks ts st)) as (Hq & Hn & _).
    apply (fresh_frame (set_tasks ts st)); [done|by rewrite Hn|done].
Qed.

(** The queue is fresh in every state the application can reach. *)
Lemma fresh_runSteps E fuel steps : ∀ st,
  fresh st → fresh (runSteps E fuel steps st).
Proof.
  induction steps as [|s r IH]; intros st H; [done|].
  simpl. apply IH. destruct s as [a|]; simpl.
  - by apply (pres_doAction (preserved_fresh E 0)).
  - by apply fresh_runMicrotask.
Qed.

Lemma fresh_initial : fresh initial.
Proof. constructor. Qed.

(** ** Loop runs that stop at their sentinel *)

(** A loop run during which user code cannot run the loop: none of its
    [sendMessage] calls lets user code take an entry off the queue. *)
Lemma runMessageLoop_bounded E f g d (K : state → Prop) st st' :
  (∀ rem h m st0,
     K st0 → in_run (nextId st) rem st0 →
     K (fst (sendMessage E (runScript E f) d h m st0)) ∧
     in_run (nextId st) rem (fst (sendMessage E (runScript E f) d h m st0))) →
  (∀ q st0, K st0 → K (set_messageQueue q st0)) →
  (∀ n st0, K st0 → K (set_nextId n st0)) →
  K (set_pending None st) →
  fresh st →
  runMessageLoop E (runScript E f) g d st = (st', Done tt) →
  ran_to_sentinel d st st'.
Proof.
  intros Hsend Hpop Hid HK Hfresh. unfold runMessageLoop, ran_to_sentinel. simpl.
  destruct (messageQueue st) as [|p q] eqn:Hq.
  { intros [= <-]. exists [], []. simpl. rewrite app_nil_r, Hq.
    split; [done|]. split; [constructor|]. split; [apply sends_of_nil|done]. }
  rewrite <- Hq in *. intros Hrun.
  apply (loop_bounded E f d (nextId st) K Hsend Hpop g (messageQueue st) []
           (set_nextId (S (nextId st))
              (set_messageQueue
                 (messageQueue st ++ [mkPosted (nextId st) None None])
                 (set_pending None st)))
           st'); auto.
  split; simpl; [|done]. intros _. apply Forall_app. split.
  - eapply Forall_impl; [exact Hfresh|]. simpl. lia.
  - by apply Forall_singleton.
Qed.

Lemma in_run_sendMessage_no_flush E f d s rem h m st :
  env_allowed (λ a, a ≠ AFlush) E → in_run s rem st →
  in_run s rem (fst (sendMessage E (runScript E f) d h m st)).
Proof.
  intros HE HR.
  apply (pres_sendMessage
           (withstands_preserved E d (in_run s rem) (λ a, a ≠ AFlush) HE
              ltac:(by intros H) (withstands_in_run s rem))); done.
Qed.

Lemma in_run_sendMessage_guarded E f d s rem h m st :
  flushGuard st = true → in_run s rem st →
  flushGuard (fst (sendMessage E (runScript E f) d h m st)) = true ∧
  in_run s rem (fst (sendMessage E (runScript E f) d h m st)).
Proof.
  intros Hg HR.
  pose proof (guarded_sendMessage E (λ st, flushGuard st = true ∧ in_run s rem st)
                (withstands_and _ _ withstands_guard (withstands_in_run s rem))
                (λ st H, proj1 H) f d h m st (conj Hg HR)) as H.
  exact H.
Qed.

(** ** Entries cleared by the calls user code is allowed to make *)

Lemma faded_by_refl c p : faded_by c p p.
Proof. by left. Qed.

Lemma faded_by_trans c p0 p1 p2 :
  faded_by c p0 p1 → faded_by c p1 p2 → faded_by c p0 p2.
Proof.
  intros [->|[-> H1]] [->|[-> H2]]; unfold faded_by; auto.
Qed.

Lemma faded_by_faded c p0 p : faded_by c p0 p → faded p0 p.
Proof. intros [->|[-> _]]; [by left|by right]. Qed.

Lemma faded_by_eid c p0 p : faded_by c p0 p → eid p = eid p0.
Proof. by intros [->|[-> _]]. Qed.

Lemma faded_by_none (c : nat → Prop) p0 p :
  (∀ h, ¬ c h) → faded_by c p0 p → p = p0.
Proof. intros Hc [->|[_ (h & _ & H)]]; [done|]. by destruct (Hc h). Qed.

Lemma faded_by_clearPosted (c : nat → Prop) h p : c h → faded_by c p (clearPosted h p).
Proof.
  intros Hc. unfold clearPosted. destruct (decide _) as [Hh|Hh]; [|by left].
  right. split; [done|]. by exists h.
Qed.

Lemma Forall2_faded_by_refl c q : Forall2 (faded_by c) q q.
Proof. induction q; constructor; auto using faded_by_refl. Qed.

Lemma Forall2_faded_by_trans c q0 q1 q2 :
  Forall2 (faded_by c) q0 q1 → Forall2 (faded_by c) q1 q2 →
  Forall2 (faded_by c) q0 q2.
Proof.
  intros H. revert q2. induction H as [|p0 p1 q0 q1 Hp _ IH]; intros q2 H2.
  - by inversion H2.
  - inversion H2; subst. constructor; [by eapply faded_by_trans|auto].
Qed.

Lemma Forall2_faded_by_clear (c : nat → Prop) h q :
  c h → Forall2 (faded_by c) q (map (clearPosted h) q).
Proof. intros Hc. induction q; constructor; auto using faded_by_clearPosted. Qed.

Lemma Forall2_faded_by_eid c q0 q (P : nat → Prop) :
  Forall2 (faded_by c) q0 q →
  Forall (λ p, P (eid p)) q0 → Forall (λ p, P (eid p)) q.
Proof.
  induction 1 as [|p0 p q0 q Hp _ IH]; intros H0; [done|].
  apply Forall_cons in H0 as [H1 H2]. constructor; [|auto].
  by rewrite (faded_by_eid c p0 p Hp).
Qed.

Lemma Forall2_faded_by_none (c : nat → Prop) q0 q :
  (∀ h, ¬ c h) → Forall2 (faded_by c) q0 q → q = q0.
Proof.
  intros Hc. induction 1 as [|p0 p q0 q Hp _ IH]; [done|].
  by rewrite (faded_by_none c p0 p Hc Hp), IH.
Qed.

Lemma posted_by_clearPosted allowed h p :
  posted_by allowed p → posted_by allowed (clearPosted h p).
Proof.
  intros Hp. unfold clearPosted. destruct (decide _); [by left|done].
Qed.

Lemma map_eid_clearPosted h q : map eid (map (clearPosted h) q) = map eid q.
Proof.
  induction q as [|p q IH]; [done|]. simpl. by rewrite eid_clearPosted, IH.
Qed.

Lemma StronglySorted_lt_snoc (l : list nat) x :
  StronglySorted lt l → Forall (λ y, y < x) l → StronglySorted lt (l ++ [x]).
Proof.
  induction 1 as [|y l Hs IH Hy]; intros Hx; simpl.
  - repeat constructor.
  - apply Forall_cons in Hx as [Hyx Hx]. constructor; [auto|].
    apply Forall_app. split; [done|]. by apply Forall_singleton.
Qed.

(** ** The objects made by the elementary updates *)

Lemma made_scheduleCleanup h st :
  length (tasks st) ≤ length (tasks (scheduleCleanup h st)) ∧
  nextId (scheduleCleanup h st) + length (tasks st)
    = nextId st + length (tasks (scheduleCleanup h st)).
Proof.
  unfold scheduleCleanup, schedule. destruct (dirtySet st); simpl;
    rewrite ?length_app; simpl; lia.
Qed.

Lemma made_removeMessageHook h k st :
  length (tasks st) ≤ length (tasks (removeMessageHook h k st)) ∧
  nextId (removeMessageHook h k st) + length (tasks st)
    = nextId st + length (tasks (removeMessageHook h k st)).
Proof.
  unfold removeMessageHook. destruct (messageHooks st !! h); [|lia].
  destruct (indexOf k l); [|lia].
  match goal with |- context [scheduleCleanup h ?s] =>
    pose proof (made_scheduleCleanup h s) as H end.
  exact H.
Qed.

Lemma made_clearData h st :
  length (tasks st) ≤ length (tasks (clearData h st)) ∧
  nextId (clearData h st) + length (tasks st)
    = nextId st + length (tasks (clearData h st)).
Proof.
  unfold clearData. cbn [tasks nextId set_messageQueue].
  destruct (messageHooks st !! h) as [[|x r]|]; try lia.
  match goal with |- context [scheduleCleanup h ?s] =>
    pose proof (made_scheduleCleanup h s) as H end.
  exact H.
Qed.

Lemma made_installMessageHook h k st :
  tasks (installMessageHook h k st) = tasks st.
Proof. by frame. Qed.

Lemma pending_installMessageHook h k st :
  pending (installMessageHook h k st) = pending st.
Proof. by frame. Qed.

Lemma made_enqueueMessage h m st :
  length (tasks st) ≤ length (tasks (enqueueMessage h m st)) ∧
  nextId (enqueueMessage h m st) + length (tasks st)
    = S (nextId st) + length (tasks (enqueueMessage h m st)).
Proof.
  unfold enqueueMessage, schedule. simpl.
  destruct (pending st); simpl; rewrite ?length_app; simpl; lia.
Qed.

Lemma exact_run_frame (c : action → Prop) n0 s rem0 st st' :
  messageQueue st' = messageQueue st → pending st' = pending st →
  length (tasks st) ≤ length (tasks st') →
  nextId st' + length (tasks st) = nextId st + length (tasks st') →
  exact_run c n0 s rem0 st → exact_run c n0 s rem0 st'.
Proof.
  intros Hq Hp Hl Hn
    (rem & added & Heq & Hf & Ha & Hs & Hby & Hpa & Hn0 & Hacc).
  exists rem, added. rewrite Hq, Hp.
  split; [done|]. split; [done|]. split.
  { eapply Forall_impl; [exact Ha|]. simpl. lia. }
  split; [done|]. split; [done|]. split; [done|]. lia.
Qed.

Lemma withstands_if_exact_run (c : action → Prop) n0 s rem0 :
  withstands_if c (exact_run c n0 s rem0).
Proof.
  split.
  - intros st e. by apply exact_run_frame.
  - intros st h k _. apply exact_run_frame.
    + apply messageQueue_installMessageHook.
    + apply pending_installMessageHook.
    + by rewrite made_installMessageHook.
    + by rewrite made_installMessageHook, nextId_installMessageHook.
  - intros st h k _. apply exact_run_frame.
    + apply messageQueue_removeMessageHook.
    + apply pending_removeMessageHook.
    + apply made_removeMessageHook.
    + apply made_removeMessageHook.
  - intros st h Hc
      (rem & added & Heq & Hf & Ha & Hs & Hby & Hpa & Hn0 & Hacc).
    destruct (made_clearData h st) as [Hl Hn].
    exists (map (clearPosted h) rem), (map (clearPosted h) added).
    rewrite messageQueue_clearData, Heq, map_app, pending_clearData,
      map_eid_clearPosted, length_map.
    split; [done|]. split.
    { eapply Forall2_faded_by_trans; [exact Hf|].
      by apply (Forall2_faded_by_clear (λ h, c (AClear h))). }
    split.
    { apply Forall_fmap. eapply Forall_impl; [exact Ha|].
      intros p Hp'. unfold compose. cbv beta in *.
      rewrite eid_clearPosted. lia. }
    split; [done|]. split.
    { apply Forall_fmap. eapply Forall_impl; [exact Hby|].
      intros p Hp'. by apply posted_by_clearPosted. }
    split.
    { rewrite Hpa. split; [by intros ->|]. by intros ?%fmap_nil_inv. }
    lia.
  - intros st eh _. by apply exact_run_frame.
  - intros st h m Hc
      (rem & added & Heq & Hf & Ha & Hs & Hby & Hpa & Hn0 & Hacc).
    destruct (made_enqueueMessage h m st) as [Hl Hn].
    exists rem, (added ++ [mkPosted (nextId st) (Some h) (Some m)]).
    rewrite messageQueue_enqueueMessage, Heq, <- app_assoc, map_app, length_app.
    simpl.
    split; [done|]. split; [done|]. split.
    { apply Forall_app. split.
      - eapply Forall_impl; [exact Ha|]. simpl. lia.
      - apply Forall_singleton. simpl. lia. }
    split.
    { apply StronglySorted_lt_snoc; [done|]. apply Forall_fmap.
      eapply Forall_impl; [exact Ha|]. simpl. lia. }
    split.
    { apply Forall_app. split; [done|]. apply Forall_singleton.
      right. by exists h, m. }
    split.
    { split; [by intros ?%pending_enqueueMessage|].
      by intros ?%app_nil_r_inv. }
    lia.
Qed.

(** ** Invariants that withstand the calls user code is allowed *)

Lemma withstands_weaken allowed I : withstands I → withstands_if allowed I.
Proof.
  intros W. split.
  - apply (w_log _ W).
  - intros st h k _. apply (w_install _ W).
  - intros st h k _. apply (w_remove _ W).
  - intros st h _. apply (w_clear _ W).
  - intros st eh _. apply (w_setexc _ W).
  - intros st h m _. apply (w_enqueue _ W).
Qed.

Lemma withstands_if_and allowed I1 I2 :
  withstands_if allowed I1 → withstands_if allowed I2 →
  withstands_if allowed (λ st, I1 st ∧ I2 st).
Proof.
  intros W1 W2. split.
  - intros st e [H1 H2].
    split; [by apply (wi_log _ _ W1)|by apply (wi_log _ _ W2)].
  - intros st h k Ha [H1 H2].
    split; [by apply (wi_install _ _ W1)|by apply (wi_install _ _ W2)].
  - intros st h k Ha [H1 H2].
    split; [by apply (wi_remove _ _ W1)|by apply (wi_remove _ _ W2)].
  - intros st h Ha [H1 H2].
    split; [by apply (wi_clear _ _ W1)|by apply (wi_clear _ _ W2)].
  - intros st eh Ha [H1 H2].
    split; [by apply (wi_setexc _ _ W1)|by apply (wi_setexc _ _ W2)].
  - intros st h m Ha [H1 H2].
    split; [by apply (wi_enqueue _ _ W1)|by apply (wi_enqueue _ _ W2)].
Qed.

(** User code that never calls [flush] cannot run the loop. *)
Lemma withstands_if_preserved E dmin I (allowed : action → Prop) :
  env_allowed allowed E → ¬ allowed AFlush → withstands_if allowed I →
  preserved E dmin I allowed (λ _, True).
Proof.
  intros (Hh & Hp & Hx) Hno W. split; try done.
  - intros st e _ _. apply (wi_log _ _ W).
  - apply (wi_install _ _ W).
  - apply (wi_remove _ _ W).
  - apply (wi_clear _ _ W).
  - apply (wi_setexc _ _ W).
  - apply (wi_enqueue _ _ W).
Qed.

(** While the guard of [flush] is set, a [flush] in user code is a
    no-op: the invariant has only to withstand the other calls. *)
Section GuardedIf.
Variable E : Env.
Variable allowed : action -> Prop.
Variable I : state -> Prop.
Hypothesis EA : env_allowed allowed E.
Hypothesis W : withstands_if allowed I.
Hypothesis G : ∀ st, I st → flushGuard st = true.

Section GuardedIfStep.
Variable run : nat -> script -> M bool.
Variable gas : nat.
Hypothesis run_ok : ∀ d s st,
  allowed_script allowed s → I st → I (fst (run d s st)).

Lemma allowed_invokeExceptionHandler d err st :
  I st → I (fst (invokeExceptionHandler E run d err st)).
Proof using EA W run_ok.
  intros HI. unfold invokeExceptionHandler.
  assert (H1 : I (log (EvExc d (exceptionHandler st) err) st))
    by (by apply (wi_log _ _ W)).
  destruct (exceptionHandler st) as [|n]; simpl.
  - by apply (wi_log _ _ W).
  - pose proof (run_ok (S d) (handleException E n err) _
                  (proj2 (proj2 EA) n err) H1) as H2.
    destruct (run (S d) (handleException E n err) _) as [st2 [b|e|]];
      simpl in *; auto; by apply (wi_log _ _ W).
Qed.

Lemma allowed_invokeHook d k h m st :
  I st → I (fst (invokeHook E run d k h m st)).
Proof using EA W run_ok.
  intros HI. unfold invokeHook.
  assert (H1 : I (log (EvHook d k h m) st)) by (by apply (wi_log _ _ W)).
  pose proof (run_ok (S d) (hookBody E k h m) _ (proj1 EA k h m) H1) as H2.
  destruct (run (S d) (hookBody E k h m) _) as [st2 [b|e|]]; simpl in *; auto.
  - by apply (wi_log _ _ W).
  - unfold bind.
    pose proof (allowed_invokeExceptionHandler d e
                  (log (EvHookRet d k (Throw e)) st2)
                  ltac:(by apply (wi_log _ _ W))) as H3.
    destruct (invokeExceptionHandler E run d e _) as [st3 [[]|e'|]];
      simpl in *; auto.
Qed.

Lemma allowed_invokeHandler d h m st :
  I st → I (fst (invokeHandler E run d h m st)).
Proof using EA W run_ok.
  intros HI. unfold invokeHandler.
  assert (H1 : I (log (EvProcess d h m) st)) by (by apply (wi_log _ _ W)).
  pose proof (run_ok (S d) (processMessage E h m) _
                (proj1 (proj2 EA) h m) H1) as H2.
  destruct (run (S d) (processMessage E h m) _) as [st2 [b|e|]];
    simpl in *; auto.
  - by apply (wi_log _ _ W).
  - apply allowed_invokeExceptionHandler. by apply (wi_log _ _ W).
Qed.

Lemma allowed_everyRetro n d h m st :
  I st → I (fst (everyRetro E run n d h m st)).
Proof using EA W run_ok.
  revert st. induction n as [|i IH]; intros st HI; simpl; auto.
  destruct (hookAt h i st) as [k|] eqn:Hk; auto.
  unfold bind. pose proof (allowed_invokeHook d k h m st HI) as H1.
  destruct (invokeHook E run d k h m st) as [st1 [[|]|e|]]; simpl in *; auto.
Qed.

Lemma allowed_sendMessage_step d h m st :
  I st → I (fst (sendMessage E run d h m st)).
Proof using EA W run_ok.
  intros HI. unfold sendMessage.
  destruct (messageHooks st !! h) as [[|x r]|];
    try (by apply allowed_invokeHandler).
  unfold bind.
  pose proof (allowed_everyRetro (length (x :: r)) d h m st HI) as H1.
  destruct (everyRetro E run _ d h m st) as [st1 [[|]|e|]]; simpl in *; auto.
  by apply allowed_invokeHandler.
Qed.

Lemma allowed_someConflate d h m q st :
  I st → I (fst (someConflate E d h m q st)).
Proof using W.
  revert st. induction q as [|p q IH]; intros st HI; simpl; auto.
  destruct (conflationTarget h m p) as [pm|]; auto.
  destruct (conflate E pm m) as [[|]|e]; simpl;
    try apply IH; by apply (wi_log _ _ W).
Qed.

Lemma allowed_postMessage d h m st :
  allowed (APost h m) → I st → I (fst (postMessage E d h m st)).
Proof using W.
  intros Ha HI. unfold postMessage.
  destruct (isConflatable m); simpl; [|by apply (wi_enqueue _ _ W)].
  unfold bind.
  pose proof (allowed_someConflate d h m (messageQueue st) st HI) as H1.
  destruct (someConflate E d h m _ st) as [st1 [[|]|e|]]; simpl in *; auto.
  by apply (wi_enqueue _ _ W).
Qed.

Lemma allowed_doAction d a st :
  allowed a → I st → I (fst (doAction E run gas d a st)).
Proof using EA W G run_ok.
  intros Ha HI. destruct a; simpl.
  - by apply allowed_sendMessage_step.
  - by apply allowed_postMessage.
  - by apply (wi_install _ _ W).
  - by apply (wi_remove _ _ W).
  - by apply (wi_clear _ _ W).
  - unfold flush. by rewrite (G st HI).
  - by apply (wi_setexc _ _ W).
Qed.

Lemma allowed_runActions d acts st :
  Forall allowed acts → I st → I (fst (runActions E run gas d acts st)).
Proof using EA W G run_ok.
  intros Ha. revert st.
  induction Ha as [|a r Ha _ IH]; intros st HI; simpl; auto.
  unfold bind. pose proof (allowed_doAction d a st Ha HI) as H1.
  destruct (doAction E run gas d a st) as [st1 [[]|e|]]; simpl in *; auto.
Qed.
End GuardedIfStep.

Lemma allowed_runScript fuel : ∀ d s st,
  allowed_script allowed s → I st → I (fst (runScript E fuel d s st)).
Proof using EA W G.
  induction fuel as [|f IH]; intros d s st Hs HI; simpl; auto.
  unfold bind.
  pose proof (allowed_runActions (runScript E f) f IH d (actions s) st Hs HI)
    as H1.
  destruct (runActions E (runScript E f) f d (actions s) st)
    as [st1 [[]|e|]]; simpl in *; auto.
  destruct (final s); auto.
Qed.

Lemma allowed_sendMessage f d h m st :
  I st → I (fst (sendMessage E (runScript E f) d h m st)).
Proof using EA W G.
  apply allowed_sendMessage_step. intros. by apply allowed_runScript.
Qed.
End GuardedIf.

(** ** Loop runs that stop at their sentinel, exactly *)

(** A loop run during which user code cannot run the loop takes the
    entries in front of its sentinel off the queue and nothing else.
    [K] is what is known of the state besides [exact_run]. *)
Lemma loop_exact E f d s (c : action → Prop) n0 (K : state → Prop) :
  (∀ rem h m st,
     K st → exact_run c n0 s rem st →
     K (fst (sendMessage E (runScript E f) d h m st)) ∧
     exact_run c n0 s rem (fst (sendMessage E (runScript E f) d h m st))) →
  (∀ q st, K st → K (set_messageQueue q st)) →
  ∀ g rem0 st st',
  K st → exact_run c n0 s rem0 st → Forall (λ p, eid p < s) rem0 →
  loop E (runScript E f) g d s st = (st', Done tt) →
  ∃ new seen,
    trace st' = trace st ++ new ∧
    Forall2 (faded_by (λ h, c (AClear h))) rem0 seen ∧
    sends_of d (live_entries seen) (at_depth d new) ∧
    Forall (λ p, s < eid p ∧ eid p < nextId st') (messageQueue st') ∧
    StronglySorted lt (map eid (messageQueue st')) ∧
    Forall (posted_by c) (messageQueue st') ∧
    (pending st' = None ↔ messageQueue st' = []) ∧
    n0 ≤ length (tasks st') ∧
    nextId st' + n0 = S s + length (messageQueue st') + length (tasks st').
Proof.
  intros K_send K_pop. induction g as [|g IH];
    intros rem0 st st' HK HX Hlt Hrun; [done|].
  destruct HX as (rem & added & Hq & Hf & Ha & Hs & Hby & Hpa & Hn0 & Hacc).
  simpl in Hrun. rewrite Hq in Hrun.
  destruct Hf as [|p0 p rem0 rem Hp Hf]; simpl in Hrun.
  { rewrite Nat.eqb_refl in Hrun. injection Hrun as <-.
    exists [], []. rewrite app_nil_r.
    split; [done|]. split; [constructor|]. split; [apply sends_of_nil|].
    done. }
  apply Forall_cons in Hlt as [Hp0 Hlt].
  assert (Hpne : (eid p =? s) = false).
  { apply Nat.eqb_neq. rewrite (faded_by_eid _ p0 p Hp). lia. }
  rewrite Hpne in Hrun.
  set (st1 := set_messageQueue (rem ++ mkPosted s None None :: added) st) in *.
  assert (HX1 : exact_run c n0 s rem st1).
  { exists rem, added. split; [done|].
    split; [apply Forall2_faded_by_refl|done]. }
  assert (HK1 : K st1) by (by apply K_pop).
  pose proof (Forall2_faded_by_eid _ rem0 rem (λ n, n < s) Hf Hlt) as Hlt1.
  assert (Hskip :
    loop E (runScript E f) g d s st1 = (st', Done tt) →
    handler p = None ∨ msg p = None →
    ∃ new seen,
      trace st' = trace st ++ new ∧
      Forall2 (faded_by (λ h, c (AClear h))) (p0 :: rem0) seen ∧
      sends_of d (live_entries seen) (at_depth d new) ∧
      Forall (λ p, s < eid p ∧ eid p < nextId st') (messageQueue st') ∧
      StronglySorted lt (map eid (messageQueue st')) ∧
      Forall (posted_by c) (messageQueue st') ∧
      (pending st' = None ↔ messageQueue st' = []) ∧
      n0 ≤ length (tasks st') ∧
      nextId st' + n0 = S s + length (messageQueue st') + length (tasks st')).
  { intros Hl Hlive.
    destruct (IH rem st1 st' HK1 HX1 Hlt1 Hl)
      as (new & seen & Ht & Hfs & Hsd & Hfin).
    exists new, (p :: seen).
    split; [done|].
    split; [constructor; [done|by eapply Forall2_faded_by_trans]|].
    split; [|done]. by rewrite live_entries_skip. }
  destruct (handler p) as [h|] eqn:Hh; [|apply Hskip; auto].
  destruct (msg p) as [m|] eqn:Hm; [|apply Hskip; auto].
  clear Hskip. unfold bind in Hrun.
  destruct (sendMessage E (runScript E f) d h m st1) as [st2 r2] eqn:Hsend.
  destruct r2 as [[]|e|]; [|done|done].
  destruct (sendMessage_top E f d h m st1 st2 (Done tt) Hsend)
    as (new1 & ks & Ht1 & _ & Htr & _).
  destruct (K_send rem h m st1 HK1 HX1) as [HK2 HX2].
  rewrite Hsend in HK2, HX2. simpl in HK2, HX2.
  destruct (IH rem st2 st' HK2 HX2 Hlt1 Hrun)
    as (new2 & seen & Ht2 & Hfs & Hsd & Hfin).
  exists (new1 ++ new2), (p :: seen).
  split; [rewrite Ht2, Ht1; simpl; by rewrite app_assoc|].
  split; [constructor; [done|by eapply Forall2_faded_by_trans]|].
  split; [|done].
  rewrite at_depth_app. unfold live_entries. simpl. rewrite Hh, Hm.
  by eapply sends_of_cons.
Qed.

Lemma runMessageLoop_exact E f g d (c : action → Prop) (K : state → Prop)
    st st' :
  (∀ rem h m st0,
     K st0 → exact_run c (length (tasks st)) (nextId st) rem st0 →
     K (fst (sendMessage E (runScript E f) d h m st0)) ∧
     exact_run c (length (tasks st)) (nextId st) rem
       (fst (sendMessage E (runScript E f) d h m st0))) →
  (∀ q st0, K st0 → K (set_messageQueue q st0)) →
  (∀ n st0, K st0 → K (set_nextId n st0)) →
  K (set_pending None st) →
  fresh st →
  runMessageLoop E (runScript E f) g d st = (st', Done tt) →
  ran_exactly c d st st'.
Proof.
  intros Hsend Hpop Hid HK Hfresh.
  unfold runMessageLoop, ran_exactly, sentinels. simpl.
  destruct (messageQueue st) as [|p q] eqn:Hq.
  { intros [= <-]. exists [], []. simpl. rewrite app_nil_r, Hq.
    split; [done|]. split; [constructor|]. split; [apply sends_of_nil|].
    split; [done|]. split; [constructor|]. split; [done|]. split; [done|].
    simpl. lia. }
  rewrite <- Hq in *. intros Hrun.
  destruct (loop_exact E f d (nextId st) c (length (tasks st)) K Hsend Hpop g
              (messageQueue st)
              (set_nextId (S (nextId st))
                 (set_messageQueue
                    (messageQueue st ++ [mkPosted (nextId st) None None])
                    (set_pending None st)))
              st')
    as (new & seen & Ht & Hf & Hsd & Ha & Hs & Hby & Hp & Hl & Hacc); auto.
  { exists (messageQueue st), []. simpl.
    split; [done|]. split; [apply Forall2_faded_by_refl|].
    split; [done|]. split; [constructor|]. split; [done|].
    split; [done|]. lia. }
  exists new, seen. repeat (split; [done|]). simpl in *. lia.
Qed.

Lemma exact_run_sendMessage_no_flush E f d (c : action → Prop) n0 s rem h m st :
  env_allowed c E → ¬ c AFlush →
  exact_run c n0 s rem st →
  exact_run c n0 s rem (fst (sendMessage E (runScript E f) d h m st)).
Proof.
  intros HC HF HX.
  apply (pres_sendMessage
           (withstands_if_preserved E d (exact_run c n0 s rem) c HC HF
              (withstands_if_exact_run c n0 s rem))); done.
Qed.

Lemma exact_run_sendMessage_guarded E f d (c : action → Prop) n0 s rem h m st :
  env_allowed c E →
  flushGuard st = true → exact_run c n0 s rem st →
  flushGuard (fst (sendMessage E (runScript E f) d h m st)) = true ∧
  exact_run c n0 s rem (fst (sendMessage E (runScript E f) d h m st)).
Proof.
  intros HC Hg HX.
  exact (allowed_sendMessage E c
           (λ st, flushGuard st = true ∧ exact_run c n0 s rem st) HC
           (withstands_if_and _ _ _
              (withstands_weaken _ _ withstands_guard)
              (withstands_if_exact_run c n0 s rem))
           (λ st H, proj1 H) f d h m st (conj Hg HX)).
Qed.

Lemma length_reject t ts : length (reject t ts) = length ts.
Proof. unfold reject. apply length_map. Qed.

(** When user code never calls [clearData], the entries seen are the
    entries the queue held. *)
Lemma ran_exactly_no_clear (allowed : action → Prop) d st st' :
  (∀ h, ¬ allowed (AClear h)) →
  ran_exactly allowed d st st' →
  ∃ new,
    trace st' = trace st ++ new ∧
    sends_of d (live_entries (messageQueue st)) (at_depth d new).
Proof.
  intros Hc (new & seen & Ht & Hf & Hsd & _). exists new.
  by rewrite (Forall2_faded_by_none _ _ _ Hc Hf) in Hsd.
Qed.

(** Every environment makes allowed calls only when all calls are. *)
Lemma env_allowed_all E : env_allowed (λ _, True) E.
Proof. repeat split; intros; apply allowed_script_True. Qed.

Lemma ran_exactly_ran_to_sentinel allowed d st st' :
  ran_exactly allowed d st st' → ran_to_sentinel d st st'.
Proof.
  intros (new & seen & Ht & Hf & Hsd & Ha & _ & _ & Hp & _). exists new, seen.
  split; [done|]. split.
  { eapply Forall2_impl; [exact Hf|]. apply faded_by_faded. }
  split; [done|]. split; [|done].
  eapply Forall_impl; [exact Ha|]. simpl. lia.
Qed.





(** ** A loop run that an exception ends *)

Lemma runMessageLoop_cut_short E f g d (K : state → Prop) st st' e :
  (∀ rem h m st0,
     K st0 → in_run (nextId st) rem st0 →
     K (fst (sendMessage E (runScript E f) d h m st0)) ∧
     in_run (nextId st) rem (fst (sendMessage E (runScript E f) d h m st0))) →
  (∀ q st0, K st0 → K (set_messageQueue q st0)) →
  (∀ n st0, K st0 → K (set_nextId n st0)) →
  K (set_pending None st) →
  fresh st →
  runMessageLoop E (runScript E f) g d st = (st', Thrown e) →
  cut_short st st'.
Proof.
  intros Hsend Hpop Hid HK Hfresh. unfold runMessageLoop, cut_short. simpl.
  destruct (messageQueue st) as [|p q] eqn:Hq; [done|].
  rewrite <- Hq in *. intros Hrun.
  apply (loop_cut_short E f d (nextId st) K Hsend Hpop g (messageQueue st) []
           (set_nextId (S (nextId st))
              (set_messageQueue
                 (messageQueue st ++ [mkPosted (nextId st) None None])
                 (set_pending None st)))
           st' e); auto.
  split; simpl; [|done]. intros _. apply Forall_app. split.
  - eapply Forall_impl; [exact Hfresh|]. simpl. lia.
  - by apply Forall_singleton.
Qed.

(** X3. When the exception handler throws during the scheduled loop run
    (the user code not calling [flush()]), the run has taken at least
    one entry off the queue and leaves the others queued, in place, as
    they were or cleared, followed by its sentinel and by what was
    posted meanwhile; the pending handle is then [null] unless
    something was posted: no run is scheduled for what is left. *)
Theorem scheduled_run_cut_short_leaves_the_rest_queued
    (E : Env) (fuel : nat) (st st' : state) (e : Error) :
  env_allowed (λ a, a ≠ AFlush) E → fresh st →
  runMicrotask E fuel st = (st', Thrown e) →
  cut_short st st'.
Proof.
  intros HE Hfresh. unfold runMicrotask.
  destruct (tasks st) as [|t ts] eqn:Hts; [done|].
  destruct (rejected t); [done|].
  destruct (callback t); [|done]. intros Hrun.
  assert (Hcut : cut_short (set_tasks ts st) st').
  { apply (runMessageLoop_cut_short E fuel fuel 0 (λ _, True)
             (set_tasks ts st) st' e); try done.
    intros rem h m s0 _ HR. split; [done|].
    by apply in_run_sendMessage_no_flush. }
  exact Hcut.
Qed.

(** The hook of handler 7 throws, the exception handler throws again,
    and the message of handler 8 stays in the queue. *)
Lemma scheduled_run_cut_short_leaves_the_rest_queued_witness :
  cut_short st_rethrow_posted (fst (runMicrotask E_rethrow 5 st_rethrow_posted)).
Proof.
  apply (scheduled_run_cut_short_leaves_the_rest_queued E_rethrow 5
           st_rethrow_posted _ (UserError 1)).
  - repeat split; intros; unfold allowed_script; simpl;
      repeat case_match; repeat constructor; discriminate.
  - repeat constructor.
  - by vm_compute.
Defined.

(** The run that the hook of handler 7 ends leaves the message of
    handler 8 in the queue with no run scheduled; the run the next post
    schedules delivers it. *)
Example cut_short_run_then_next_post :
  let st1 := fst (runMicrotask E_rethrow 5 st_rethrow_posted) in
  let st2 := runSteps E_rethrow 5 [Call (APost 8 msgC); Tick] st1 in
  map msg (messageQueue st1) = [Some msgB; None] ∧
  pending st1 = None ∧
  deliveries (trace st1) = [] ∧
  deliveries (trace st2) = [(8, msgB); (8, msgC)].
Proof. by vm_compute. Qed.


(** ** A [flush] that throws *)

Lemma guard_runMicrotask E fuel st :
  flushGuard st = true → flushGuard (fst (runMicrotask E fuel st)) = true.
Proof.
  intros H. unfold runMicrotask.
  destruct (tasks st) as [|t ts]; [done|].
  destruct (rejected t); [done|].
  destruct (callback t); simpl.
  - by apply (pres_runMessageLoop (preserved_guard E 0)).
  - destruct (messageQueue_cleanupDirtySet (set_tasks ts st))
      as (_ & _ & Hg & _).
    etrans; [exact Hg|done].
Qed.

Lemma guard_runSteps E fuel steps : ∀ st,
  flushGuard st = true → flushGuard (runSteps E fuel steps st) = true.
Proof.
  induction steps as [|s r IH]; intros st H; [done|].
  simpl. apply IH. destruct s as [a|]; simpl.
  - by apply (pres_doAction (preserved_guard E 0)).
  - by apply guard_runMicrotask.
Qed.

(** X4. [flush()] resets its guard after the loop run, outside any
    [finally]: when the run throws (the exception handler threw), the
    guard stays set, whatever the application and the host do next, and
    every later [flush()] is a no-op. *)
Theorem flush_that_throws_leaves_the_guard_set
    (E : Env) (f g d : nat) (st st' : state) (e : Error) :
  flush E (runScript E f) g d st = (st', Thrown e) →
  flushGuard st = false ∧
  ∀ fuel steps,
    flushGuard (runSteps E fuel steps st') = true ∧
    ∀ run g' d',
      flush E run g' d' (runSteps E fuel steps st')
        = (runSteps E fuel steps st', Done tt).
Proof.
  unfold flush. destruct (flushGuard st) eqn:Hg; [done|].
  destruct (pending st) as [t|]; [|done].
  set (st0 := set_flushGuard true (set_pending None (cancel t st))).
  unfold bind.
  pose proof (pres_runMessageLoop (preserved_guard E 0) f g d st0
                Logic.I ltac:(lia) eq_refl) as Hrun.
  destruct (runMessageLoop E (runScript E f) g d st0) as [st1 [[]|e1|]];
    [done| |done].
  intros [= <- <-]. split; [done|]. intros fuel steps.
  pose proof (guard_runSteps E fuel steps st1 Hrun) as H2.
  split; [done|]. intros run g' d'. by rewrite H2.
Qed.

(** The [flush()] that delivers [msgA] to handler 7 throws. *)
Lemma flush_that_throws_leaves_the_guard_set_witness :
  flushGuard (fst (postMessage E_rethrow 0 7 msgA st_rethrow)) = false ∧
  ∀ fuel steps,
    let st' := fst (flush E_rethrow (runScript E_rethrow 5) 5 0
                      (fst (postMessage E_rethrow 0 7 msgA st_rethrow))) in
    flushGuard (runSteps E_rethrow fuel steps st') = true ∧
    ∀ run g' d',
      flush E_rethrow run g' d' (runSteps E_rethrow fuel steps st')
        = (runSteps E_rethrow fuel steps st', Done tt).
Proof.
  apply (flush_that_throws_leaves_the_guard_set E_rethrow 5 5 0
           (fst (postMessage E_rethrow 0 7 msgA st_rethrow)) _ (UserError 1)).
  by vm_compute.
Defined.


(** ** The exception handler *)

Lemma preserved_handler E dmin eh :
  env_allowed keeps_handler E →
  preserved E dmin (λ st, exceptionHandler st = eh) keeps_handler (λ _, True).
Proof.
  intros (Hh & Hp & Hx). split; try done.
  - intros st h k _ H. rewrite <- H. by frame.
  - intros st h k _ H. rewrite <- H. by frame.
  - intros st h _ H. rewrite <- H. by frame.
  - intros st eh' Ha. by destruct (Ha eh').
  - intros st h m _ H. rewrite <- H. by frame.
Qed.

Lemma handler_runMicrotask E fuel eh st :
  env_allowed keeps_handler E →
  exceptionHandler st = eh → exceptionHandler (fst (runMicrotask E fuel st)) = eh.
Proof.
  intros HE H. unfold runMicrotask.
  destruct (tasks st) as [|t ts]; [done|].
  destruct (rejected t); [done|].
  destruct (callback t); simpl.
  - by apply (pres_runMessageLoop (preserved_handler E 0 eh HE));
      [intros eh'| |].
  - destruct (messageQueue_cleanupDirtySet (set_tasks ts st))
      as (_ & _ & _ & Hx).
    etrans; [exact Hx|done].
Qed.

Lemma handler_runSteps E fuel eh steps : ∀ st,
  env_allowed keeps_handler E →
  Forall (λ s, ∀ eh', s ≠ Call (ASetExceptionHandler eh')) steps →
  exceptionHandler st = eh → exceptionHandler (runSteps E fuel steps st) = eh.
Proof.
  induction steps as [|s r IH]; intros st HE Hs H; [done|].
  apply Forall_cons in Hs as [Hs Hr]. simpl. apply IH; [done|done|].
  destruct s as [a|]; simpl.
  - apply (pres_doAction (preserved_handler E 0 eh HE)); [lia| |done].
    intros eh' ->. by apply (Hs eh').
  - by apply handler_runMicrotask.
Qed.

(** X5. [setExceptionHandler] returns the handler it replaces, and the
    handler it sets is the one [getExceptionHandler] returns from then
    on, whatever the application, the user code and the host do, short
    of calling [setExceptionHandler] again. *)
Theorem setExceptionHandler_sets_until_the_next_set
    (E : Env) (fuel : nat) (eh : ExceptionHandler) (st : state)
    (steps : list step) :
  env_allowed keeps_handler E →
  Forall (λ s, ∀ eh', s ≠ Call (ASetExceptionHandler eh')) steps →
  snd (setExceptionHandler eh st) = getExceptionHandler st ∧
  getExceptionHandler
    (runSteps E fuel steps (fst (setExceptionHandler eh st))) = eh.
Proof.
  intros HE Hs. split; [done|].
  unfold getExceptionHandler. by apply handler_runSteps.
Qed.

(** Exception handler 3 set, then a post, a removal, two turns of the
    host and a send. *)
Lemma setExceptionHandler_sets_until_the_next_set_witness :
  snd (setExceptionHandler (CustomHandler 3) st_three_hooks)
    = getExceptionHandler st_three_hooks ∧
  getExceptionHandler
    (runSteps E_plain 5
       [Call (APost 7 msgA); Call (ARemove 7 (HookFn 2)); Tick; Tick;
        Call (ASend 7 msgB)]
       (fst (setExceptionHandler (CustomHandler 3) st_three_hooks)))
    = CustomHandler 3.
Proof.
  apply (setExceptionHandler_sets_until_the_next_set E_plain 5).
  - apply env_allowed_E_plain.
  - repeat (apply Forall_cons_2; [by intros eh'|]). apply Forall_nil_2.
Defined.

(** With [console.error] as the exception handler, and user code that
    does not replace it, no fault of user code makes a [sendMessage]
    throw. *)
Section Console.
Variable E : Env.
Variables f d : nat.
Hypothesis HE : env_allowed keeps_handler E.

Lemma console_invokeExceptionHandler err st :
  exceptionHandler st = ConsoleError →
  snd (invokeExceptionHandler E (runScript E f) d err st) = Done tt.
Proof. intros H. unfold invokeExceptionHandler. by rewrite H. Qed.

Lemma console_invokeHook k h m st :
  exceptionHandler st = ConsoleError →
  ∀ e, snd (invokeHook E (runScript E f) d k h m st) ≠ Thrown e.
Proof using HE.
  intros H e. unfold invokeHook.
  pose proof (pres_runScript (preserved_handler E 0 ConsoleError HE) f (S d)
                (hookBody E k h m) (log (EvHook d k h m) st)
                ltac:(lia) (proj1 HE k h m) H) as H2.
  destruct (runScript E f (S d) (hookBody E k h m) _) as [st2 [b|e1|]];
    simpl in *; [done| |done].
  unfold bind.
  pose proof (console_invokeExceptionHandler e1
                (log (EvHookRet d k (Throw e1)) st2) H2) as H3.
  by destruct (invokeExceptionHandler E (runScript E f) d e1 _)
    as [st3 [[]|e3|]].
Qed.

Lemma console_invokeHandler h m st :
  exceptionHandler st = ConsoleError →
  ∀ e, snd (invokeHandler E (runScript E f) d h m st) ≠ Thrown e.
Proof using HE.
  intros H e. unfold invokeHandler.
  pose proof (pres_runScript (preserved_handler E 0 ConsoleError HE) f (S d)
                (processMessage E h m) (log (EvProcess d h m) st)
                ltac:(lia) (proj1 (proj2 HE) h m) H) as H2.
  destruct (runScript E f (S d) (processMessage E h m) _) as [st2 [b|e1|]];
    simpl in *; [done| |done].
  by rewrite (console_invokeExceptionHandler e1
                (log (EvProcessRet d h (Throw e1)) st2) H2).
Qed.

Lemma console_everyRetro n h m : ∀ st,
  exceptionHandler st = ConsoleError →
  ∀ e, snd (everyRetro E (runScript E f) n d h m st) ≠ Thrown e.
Proof using HE.
  induction n as [|i IH]; intros st H e; [done|]. simpl.
  destruct (hookAt h i st) as [k|] eqn:Hk; [|by apply IH].
  unfold bind.
  pose proof (console_invokeHook k h m st H) as H1.
  pose proof (pres_invokeHook (preserved_handler E 0 ConsoleError HE) f d k h m st
                ltac:(lia) Logic.I (ex_intro _ i Hk) H) as H2.
  destruct (invokeHook E (runScript E f) d k h m st) as [st1 [[|]|e1|]];
    simpl in *; [by apply IH|done|by destruct (H1 e1)|done].
Qed.

Lemma console_sendMessage h m st :
  exceptionHandler st = ConsoleError →
  ∀ e, snd (sendMessage E (runScript E f) d h m st) ≠ Thrown e.
Proof using HE.
  intros H e. unfold sendMessage.
  destruct (messageHooks st !! h) as [[|x r]|];
    try (by apply console_invokeHandler).
  unfold bind.
  pose proof (console_everyRetro (length (x :: r)) h m st H) as H1.
  pose proof (pres_everyRetro (preserved_handler E 0 ConsoleError HE) f
                (length (x :: r)) d h m st ltac:(lia) Logic.I H) as H2.
  destruct (everyRetro E (runScript E f) _ d h m st) as [st1 [[|]|e1|]];
    simpl in *; [by apply console_invokeHandler|done|by destruct (H1 e1)|done].
Qed.
End Console.

(** X6. With the exception handler the module starts with, [console.error],
    and user code that does not replace it, every exception of a hook
    or of [processMessage] is contained: [sendMessage] does not throw,
    and the exception handler is still [console.error] afterwards. *)
Theorem console_error_contains_every_fault
    (E : Env) (f d h : nat) (m : Message) (st : state) :
  env_allowed keeps_handler E →
  getExceptionHandler st = ConsoleError →
  (∀ e, snd (sendMessage E (runScript E f) d h m st) ≠ Thrown e) ∧
  getExceptionHandler (fst (sendMessage E (runScript E f) d h m st))
    = ConsoleError.
Proof.
  intros HE H. split.
  - by apply console_sendMessage.
  - by apply (pres_sendMessage (preserved_handler E 0 ConsoleError HE));
      [lia| |].
Qed.

Lemma env_allowed_E_faulty : env_allowed keeps_handler E_faulty.
Proof.
  repeat split; intros; unfold allowed_script; simpl;
    repeat case_match; repeat constructor; by intros eh.
Qed.

(** The hook throws, and the handler posts a message and throws. *)
Lemma console_error_contains_every_fault_witness :
  (∀ e, snd (sendMessage E_faulty (runScript E_faulty 5) 0 7 msgA
               (installMessageHook 7 (HookFn 1) initial)) ≠ Thrown e) ∧
  getExceptionHandler
    (fst (sendMessage E_faulty (runScript E_faulty 5) 0 7 msgA
            (installMessageHook 7 (HookFn 1) initial))) = ConsoleError.
Proof.
  apply console_error_contains_every_fault.
  - apply env_allowed_E_faulty.
  - reflexivity.
Defined.

(** ** Loop runs do not find the queue empty *)

Lemma runMessageLoop_no_throw E f g d (K : state → Prop) st :
  (∀ rem h m st0,
     K st0 → in_run (nextId st) rem st0 →
     K (fst (sendMessage E (runScript E f) d h m st0)) ∧
     in_run (nextId st) rem (fst (sendMessage E (runScript E f) d h m st0))) →
  (∀ h m st0, K st0 →
     ∀ e, snd (sendMessage E (runScript E f) d h m st0) ≠ Thrown e) →
  (∀ q st0, K st0 → K (set_messageQueue q st0)) →
  (∀ n st0, K st0 → K (set_nextId n st0)) →
  K (set_pending None st) →
  fresh st →
  ∀ e, snd (runMessageLoop E (runScript E f) g d st) ≠ Thrown e.
Proof.
  intros Hsend Hno Hpop Hid HK Hfresh e. unfold runMessageLoop. simpl.
  destruct (messageQueue st) as [|p q] eqn:Hq; [done|].
  rewrite <- Hq in *.
  apply (loop_no_throw E f d (nextId st) K Hsend Hpop Hno g (messageQueue st) []
           (set_nextId (S (nextId st))
              (set_messageQueue
                 (messageQueue st ++ [mkPosted (nextId st) None None])
                 (set_pending None st)))); auto.
  split; simpl; [|done]. intros _. apply Forall_app. split.
  - eapply Forall_impl; [exact Hfresh|]. simpl. lia.
  - by apply Forall_singleton.
Qed.

Lemma console_flush E f g d st :
  env_allowed keeps_handler E → exceptionHandler st = ConsoleError → fresh st →
  ∀ e, snd (flush E (runScript E f) g d st) ≠ Thrown e.
Proof.
  intros HE Hc Hfresh e. unfold flush.
  destruct (flushGuard st) eqn:Hg; [done|].
  destruct (pending st) as [t|]; [|done].
  set (st0 := set_flushGuard true (set_pending None (cancel t st))).
  unfold bind.
  pose proof (runMessageLoop_no_throw E f g d
                (λ s, flushGuard s = true ∧ exceptionHandler s = ConsoleError)
                st0) as Hno.
  destruct (runMessageLoop E (runScript E f) g d st0) as [st1 [[]|e1|]];
    [done| |done].
  exfalso. apply (Hno) with (e := e1); try done.
  - intros rem h m s0 [Hg0 Hc0] HR.
    destruct (in_run_sendMessage_guarded E f d _ rem h m s0 Hg0 HR)
      as [Hg1 HR1].
    split; [split; [done|]|done].
    by apply (pres_sendMessage (preserved_handler E 0 ConsoleError HE));
      [lia| |].
  - intros h m s0 [_ Hc0]. by apply console_sendMessage.
Qed.

Lemma console_runMicrotask E f st :
  env_allowed keeps_handler E → env_allowed (λ a, a ≠ AFlush) E →
  exceptionHandler st = ConsoleError → fresh st →
  ∀ e, snd (runMicrotask E f st) ≠ Thrown e.
Proof.
  intros HE HF Hc Hfresh e. unfold runMicrotask.
  destruct (tasks st) as [|t ts]; [done|].
  destruct (rejected t); [done|].
  destruct (callback t); simpl; [|done].
  apply (runMessageLoop_no_throw E f f 0
           (λ s, exceptionHandler s = ConsoleError) (set_tasks ts st));
    try done.
  - intros rem h m s0 Hc0 HR. split.
    + by apply (pres_sendMessage (preserved_handler E 0 ConsoleError HE));
        [lia| |].
    + by apply in_run_sendMessage_no_flush.
  - intros h m s0 Hc0. by apply console_sendMessage.
Qed.

(** X7. With [console.error] as the exception handler and user code
    that does not replace it, a [flush()] does not throw, whatever else
    the user code does: the loop it runs does not find the queue
    empty; and the scheduled loop run does not throw when the user
    code does not call [flush()]. *)
Theorem loop_runs_do_not_throw_with_console_error
    (E : Env) (f : nat) (st : state) :
  env_allowed keeps_handler E →
  getExceptionHandler st = ConsoleError →
  fresh st →
  (∀ g d e, snd (flush E (runScript E f) g d st) ≠ Thrown e) ∧
  (env_allowed (λ a, a ≠ AFlush) E →
   ∀ e, snd (runMicrotask E f st) ≠ Thrown e).
Proof.
  intros HE Hc Hfresh. split.
  - intros g d. by apply console_flush.
  - intros HF. by apply console_runMicrotask.
Qed.

(** The handler posts two messages during the run. *)
Lemma loop_runs_do_not_throw_with_console_error_witness :
  (∀ g d e,
     snd (flush E_post_inside (runScript E_post_inside 5) g d st_posted)
       ≠ Thrown e) ∧
  (∀ e, snd (runMicrotask E_post_inside 5 st_posted) ≠ Thrown e).
Proof.
  destruct (loop_runs_do_not_throw_with_console_error E_post_inside 5 st_posted)
    as [H1 H2].
  - repeat split; intros; unfold allowed_script; simpl;
      repeat case_match; repeat constructor; by intros eh.
  - reflexivity.
  - repeat constructor.
  - split; [exact H1|]. apply H2.
    repeat split; intros; unfold allowed_script; simpl;
      repeat case_match; repeat constructor; discriminate.
Defined.

(** ** A send takes nothing off the queue *)

Lemma withstands_queue_kept q0 : withstands (queue_kept q0).
Proof.
  split.
  - by intros st e.
  - intros st h k (rem & added & Hq & Hf). exists rem, added.
    by rewrite messageQueue_installMessageHook.
  - intros st h k (rem & added & Hq & Hf). exists rem, added.
    by rewrite messageQueue_removeMessageHook.
  - intros st h (rem & added & Hq & Hf).
    exists (map (clearPosted h) rem), (map (clearPosted h) added).
    rewrite messageQueue_clearData, Hq, map_app. split; [done|].
    eapply Forall2_faded_trans; [exact Hf|]. apply Forall2_faded_clear.
  - by intros st eh.
  - intros st h m (rem & added & Hq & Hf).
    exists rem, (added ++ [mkPosted (nextId st) (Some h) (Some m)]).
    by rewrite messageQueue_enqueueMessage, Hq, <- app_assoc.
Qed.

Lemma queue_kept_refl st : queue_kept (messageQueue st) st.
Proof.
  exists (messageQueue st), []. rewrite app_nil_r.
  split; [done|apply Forall2_faded_refl].
Qed.

(** X8. [sendMessage] leaves the posted messages where they are: unless the
    user code it runs calls [flush()] with the guard not set, the
    entries of the queue are all still there afterwards, in place, as
    they were or cleared, followed by what the user code posted. *)
Theorem sendMessage_takes_nothing_off_the_queue
    (E : Env) (f d h : nat) (m : Message) (st : state) :
  env_allowed (λ a, a ≠ AFlush) E ∨ flushGuard st = true →
  queue_kept (messageQueue st) (fst (sendMessage E (runScript E f) d h m st)).
Proof.
  intros [HE|Hg].
  - apply (pres_sendMessage
             (withstands_preserved E d _ (λ a, a ≠ AFlush) HE
                ltac:(by intros H) (withstands_queue_kept (messageQueue st))));
      [done|done|apply queue_kept_refl].
  - apply (guarded_sendMessage E
             (λ s, flushGuard s = true ∧ queue_kept (messageQueue st) s)
             (withstands_and _ _ withstands_guard
                (withstands_queue_kept (messageQueue st)))
             (λ s H, proj1 H) f d h m st (conj Hg (queue_kept_refl st))).
Qed.

(** A send whose handler posts two messages, with three messages in
    the queue. *)
Lemma sendMessage_takes_nothing_off_the_queue_witness :
  queue_kept (messageQueue st_two_handlers)
    (fst (sendMessage E_post_inside (runScript E_post_inside 5) 0 7 msgA
            st_two_handlers)).
Proof.
  apply sendMessage_takes_nothing_off_the_queue. left.
  repeat split; intros; unfold allowed_script; simpl;
    repeat case_match; repeat constructor; discriminate.
Defined.

(** ** The clean-up of the hook arrays *)

Lemma tids_reject t ts : map tid (reject t ts) = map tid ts.
Proof.
  unfold reject. induction ts as [|x ts IH]; [done|]. simpl. rewrite IH.
  f_equal. by destruct (tid x =? t).
Qed.

Lemma reject_notin t ts : t ∉ map tid ts → reject t ts = ts.
Proof.
  induction ts as [|x ts IH]; simpl; intros H; [done|].
  apply not_elem_of_cons in H as [H1 H2]. rewrite IH by done.
  destruct (tid x =? t) eqn:Ht; [|done].
  apply Nat.eqb_eq in Ht. congruence.
Qed.

Lemma live_loops_tids ts t : t ∈ live_loops ts → t ∈ map tid ts.
Proof.
  unfold live_loops. intros (x & -> & Hx)%list_elem_of_fmap.
  apply list_elem_of_filter in Hx as [_ Hx]. apply list_elem_of_fmap.
  by exists x.
Qed.

Lemma live_cleanups_cons t ts :
  live_cleanups (t :: ts)
    = if is_live_cleanup t then t :: live_cleanups ts else live_cleanups ts.
Proof.
  unfold live_cleanups. rewrite filter_cons.
  destruct (is_live_cleanup t); [by rewrite decide_True|by rewrite decide_False].
Qed.

Lemma live_cleanups_app t1 t2 :
  live_cleanups (t1 ++ t2) = live_cleanups t1 ++ live_cleanups t2.
Proof. apply filter_app. Qed.

Lemma live_cleanups_reject t ts :
  NoDup (map tid ts) → t ∈ live_loops ts →
  live_cleanups (reject t ts) = live_cleanups ts.
Proof.
  induction ts as [|x ts IH]; [done|]. simpl. intros [Hx Hnd]%NoDup_cons Hin.
  rewrite live_loops_cons in Hin.
  destruct (tid x =? t) eqn:Ht.
  - apply Nat.eqb_eq in Ht. subst t. rewrite reject_notin by done.
    rewrite !live_cleanups_cons. unfold is_live_cleanup, is_live_loop in *.
    simpl. destruct (callback x); [done|].
    by apply live_loops_tids in Hin.
  - apply Nat.eqb_neq in Ht. rewrite !live_cleanups_cons.
    rewrite IH; [done|done|].
    destruct (is_live_loop x); [|done].
    apply elem_of_cons in Hin as [Hin|Hin]; [congruence|done].
Qed.

Lemma dirtySet_scheduleCleanup h st :
  dirtySet (scheduleCleanup h st) = set_add h (dirtySet st).
Proof.
  unfold scheduleCleanup. destruct (dirtySet st) eqn:Hd; simpl; by rewrite Hd.
Qed.

Lemma set_add_mono h h' s : h' ∈ s → h' ∈ set_add h s.
Proof.
  unfold set_add. destruct (decide (h ∈ s)); [done|].
  intros H. apply elem_of_app. by left.
Qed.

Lemma set_add_cons h s : ∃ x r, set_add h s = x :: r.
Proof.
  pose proof (set_add_elem h s) as H.
  destruct (set_add h s) as [|x r]; [by apply elem_of_nil in H|by exists x, r].
Qed.

Lemma sched_tidy_frame st st' :
  tasks st' = tasks st → nextId st ≤ nextId st' → pending st' = pending st →
  dirtySet st' = dirtySet st → sched_tidy st → sched_tidy st'.
Proof.
  intros Ht Hn Hp Hd (H1 & H2 & H3 & H4). unfold sched_tidy.
  rewrite Ht, Hd. split; [done|]. split; [|split; [|done]].
  - eapply Forall_impl; [exact H2|]. simpl. lia.
  - by apply (sched_ok_frame st).
Qed.

Lemma sched_tidy_scheduleCleanup h st :
  sched_tidy st → sched_tidy (scheduleCleanup h st).
Proof.
  intros (H1 & H2 & H3 & H4). unfold sched_tidy.
  split; [|split; [|split]].
  - unfold scheduleCleanup. destruct (dirtySet st); simpl; [|done].
    rewrite map_app. simpl. apply NoDup_app. split; [done|]. split.
    + intros x Hx [->|[]%elem_of_nil]%elem_of_cons.
      apply list_elem_of_fmap in Hx as (y & Hy & Hin).
      rewrite Forall_forall in H2. specialize (H2 y Hin). simpl in H2. lia.
    + apply NoDup_singleton.
  - unfold scheduleCleanup. destruct (dirtySet st); simpl; [|done].
    apply Forall_app. split.
    + eapply Forall_impl; [exact H2|]. simpl. lia.
    + apply Forall_singleton. simpl. lia.
  - by apply sched_ok_scheduleCleanup.
  - rewrite dirtySet_scheduleCleanup.
    destruct (set_add_cons h (dirtySet st)) as (x & r & ->).
    unfold scheduleCleanup. destruct (dirtySet st); simpl; [|done].
    rewrite live_cleanups_app, length_app, H4. done.
Qed.

Lemma sched_tidy_enqueueMessage h m st :
  sched_tidy st → sched_tidy (enqueueMessage h m st).
Proof.
  intros (H1 & H2 & H3 & H4). unfold sched_tidy.
  split; [|split; [|split]].
  - unfold enqueueMessage. simpl. destruct (pending st); simpl; [done|].
    rewrite map_app. simpl. apply NoDup_app. split; [done|]. split.
    + intros x Hx [->|[]%elem_of_nil]%elem_of_cons.
      apply list_elem_of_fmap in Hx as (y & Hy & Hin).
      rewrite Forall_forall in H2. specialize (H2 y Hin). simpl in H2. lia.
    + apply NoDup_singleton.
  - unfold enqueueMessage. simpl. destruct (pending st); simpl.
    + eapply Forall_impl; [exact H2|]. simpl. lia.
    + apply Forall_app. split.
      * eapply Forall_impl; [exact H2|]. simpl. lia.
      * apply Forall_singleton. simpl. lia.
  - by apply sched_ok_enqueueMessage.
  - unfold enqueueMessage. simpl. destruct (pending st); simpl; [done|].
    rewrite live_cleanups_app, length_app, H4. simpl. lia.
Qed.

Lemma tombstones_dirty_set h arr st st' :
  messageHooks st' = <[h := arr]> (messageHooks st) →
  (None ∈ arr → h ∈ dirtySet st') →
  (∀ h', h' ∈ dirtySet st → h' ∈ dirtySet st') →
  tombstones_dirty st → tombstones_dirty st'.
Proof.
  intros Hm Hh Hd HT h' arr'. rewrite Hm.
  destruct (decide (h = h')) as [->|Hne].
  - rewrite lookup_insert_eq. intros [= <-]. exact Hh.
  - rewrite lookup_insert_ne by done. intros Ha Hn. by apply Hd, (HT h' arr').
Qed.

Lemma tidy_installMessageHook h k st : tidy st → tidy (installMessageHook h k st).
Proof.
  intros [HS HT]. split; [apply (sched_tidy_frame st); by frame|].
  unfold installMessageHook.
  destruct (messageHooks st !! h) as [arr|] eqn:Ha.
  - destruct (indexOf k arr); [done|].
    apply (tombstones_dirty_set h (arr ++ [Some k]) st); [done| |done|done].
    simpl. intros [Hn|Hn]%elem_of_app; [by apply (HT h arr)|].
    by apply list_elem_of_singleton in Hn.
  - apply (tombstones_dirty_set h [Some k] st); [done| |done|done].
    intros Hn. by apply list_elem_of_singleton in Hn.
Qed.

Lemma tidy_tombstone h arr st :
  tidy st →
  tidy (scheduleCleanup h (set_messageHooks (<[h := arr]> (messageHooks st)) st)).
Proof.
  intros [HS HT]. split.
  - apply sched_tidy_scheduleCleanup. by apply (sched_tidy_frame st).
  - apply (tombstones_dirty_set h arr st).
    + by rewrite messageHooks_scheduleCleanup.
    + intros _. rewrite dirtySet_scheduleCleanup. apply set_add_elem.
    + intros h' Hh'. rewrite dirtySet_scheduleCleanup. by apply set_add_mono.
    + done.
Qed.

Lemma tidy_removeMessageHook h k st : tidy st → tidy (removeMessageHook h k st).
Proof.
  intros H. unfold removeMessageHook.
  destruct (messageHooks st !! h) as [arr|]; [|done].
  destruct (indexOf k arr); [|done]. by apply tidy_tombstone.
Qed.

Lemma tidy_queue q st : tidy st → tidy (set_messageQueue q st).
Proof. intros [HS HT]. split; [by apply (sched_tidy_frame st)|done]. Qed.

Lemma tidy_clearData h st : tidy st → tidy (clearData h st).
Proof.
  intros H. unfold clearData. apply tidy_queue.
  destruct (messageHooks st !! h) as [[|x r]|]; try done.
  by apply tidy_tombstone.
Qed.

Lemma tidy_enqueueMessage h m st : tidy st → tidy (enqueueMessage h m st).
Proof.
  intros [HS HT]. split; [by apply sched_tidy_enqueueMessage|].
  intros h' arr. rewrite messageHooks_enqueueMessage. intros Ha Hn.
  assert (Hd : dirtySet (enqueueMessage h m st) = dirtySet st)
    by (unfold enqueueMessage; simpl; by destruct (pending st)).
  rewrite Hd. by apply (HT h' arr).
Qed.

Lemma tidy_cancel t st :
  pending st = Some t → tidy st → tidy (set_pending None (cancel t st)).
Proof.
  intros Hp [(H1 & H2 & H3 & H4) HT]. split; [|done].
  unfold sched_tidy. simpl. rewrite tids_reject.
  split; [done|]. split; [|split].
  - apply Forall_forall. intros x Hx.
    assert (Hin : tid x ∈ map tid (reject t (tasks st)))
      by (apply list_elem_of_fmap; by exists x).
    rewrite tids_reject in Hin. apply list_elem_of_fmap in Hin as (y & -> & Hy).
    rewrite Forall_forall in H2. by apply H2.
  - by apply (sched_ok_cancel t st).
  - rewrite live_cleanups_reject; [done|done|].
    unfold sched_ok in H3. rewrite H3, Hp. by left.
Qed.

Lemma preserved_tidy E dmin : preserved E dmin tidy (λ _, True) (λ _, True).
Proof.
  split; try done; try (intros; apply allowed_script_True).
  - intros st h k _. apply tidy_installMessageHook.
  - intros st h k _. apply tidy_removeMessageHook.
  - intros st h _. apply tidy_clearData.
  - intros st h m _. apply tidy_enqueueMessage.
  - intros _ st t _ Hp H. split.
    + destruct (tidy_cancel t st Hp H) as [HS HT].
      split; [by apply (sched_tidy_frame (set_pending None (cancel t st)))|done].
    + intros st2 [HS HT]. split; [by apply (sched_tidy_frame st2)|done].
  - intros _ st Hp [(H1 & H2 & H3 & H4) HT]. split; [|done].
    split; [done|]. split; [done|]. split; [|done].
    unfold sched_ok in *. simpl. by rewrite Hp in H3.
  - intros _ st [HS HT]. split; [|done].
    apply (sched_tidy_frame st); simpl; auto.
Qed.

Lemma removeAllNull_no_tombstone arr : None ∉ removeAllNull arr.
Proof.
  unfold removeAllNull. intros Hin. by apply list_elem_of_filter in Hin as [? _].
Qed.

Lemma cleanupDirtySet_no_tombstones st h arr :
  tombstones_dirty st →
  messageHooks (cleanupDirtySet st) !! h = Some arr → None ∉ arr.
Proof.
  intros HT. rewrite messageHooks_cleanupDirtySet.
  destruct (decide (h ∈ dirtySet st)) as [Hd|Hd].
  - destruct (messageHooks st !! h) as [arr0|]; [|done]. simpl.
    intros [= <-]. apply removeAllNull_no_tombstone.
  - intros Ha Hn. by apply Hd, (HT h arr).
Qed.

Lemma live_hooks_cleanupDirtySet h st :
  live_hooks h (cleanupDirtySet st) = live_hooks h st.
Proof.
  unfold live_hooks. rewrite messageHooks_cleanupDirtySet.
  destruct (decide (h ∈ dirtySet st)); [|done].
  destruct (messageHooks st !! h) as [arr|]; [|done]. simpl.
  unfold newest_first. by rewrite omap_id_removeAllNull.
Qed.

Lemma dirtySet_cleanupDirtySet st : dirtySet (cleanupDirtySet st) = [].
Proof. done. Qed.

Lemma tidy_runMicrotask E fuel st : tidy st → tidy (fst (runMicrotask E fuel st)).
Proof.
  intros [(H1 & H2 & H3 & H4) HT]. unfold runMicrotask.
  destruct (tasks st) as [|t ts] eqn:Hts.
  { simpl. unfold tidy, sched_tidy. by rewrite Hts. }
  simpl in H1. apply NoDup_cons in H1 as [_ H1].
  apply Forall_cons in H2 as [_ H2].
  unfold sched_ok in H3. rewrite Hts, live_loops_cons in H3.
  rewrite live_cleanups_cons in H4.
  unfold is_live_loop in H3. unfold is_live_cleanup in H4.
  destruct (rejected t) eqn:Hr; cbn [fst].
  { split; [|done]. split; [done|]. split; [done|]. split.
    - unfold sched_ok. simpl. by destruct (callback t).
    - simpl. by destruct (callback t). }
  destruct (callback t) eqn:Hc; simpl in H3, H4; cbn [fst].
  - apply (pres_runMessageLoop (preserved_tidy E 0)); [done|done|].
    split; [|done]. split; [done|]. split; [done|]. split; [|done].
    unfold sched_ok. simpl.
    destruct (pending st); simpl in H3; [|done]. by injection H3 as _ H3.
  - destruct (cleanupDirtySet_sched (set_tasks ts st)) as [Ht Hp].
    destruct (messageQueue_cleanupDirtySet (set_tasks ts st)) as (_ & Hn & _).
    split.
    + unfold sched_tidy. rewrite Ht, Hn, dirtySet_cleanupDirtySet. simpl.
      split; [done|]. split; [done|]. split.
      * unfold sched_ok. by rewrite Ht, Hp.
      * destruct (dirtySet st); simpl in H4; lia.
    + intros h arr Ha Hnone.
      by destruct (cleanupDirtySet_no_tombstones (set_tasks ts st) h arr HT Ha).
Qed.

Lemma tidy_runSteps E fuel steps : ∀ st,
  tidy st → tidy (runSteps E fuel steps st).
Proof.
  induction steps as [|s r IH]; intros st H; [done|].
  simpl. apply IH. destruct s as [a|]; simpl.
  - by apply (pres_doAction (preserved_tidy E 0)).
  - by apply tidy_runMicrotask.
Qed.

Lemma tidy_initial : tidy initial.
Proof.
  split; [split; [constructor|split; [constructor|done]]|].
  intros h arr. simpl. by rewrite lookup_empty.
Qed.

(** X9. The clean-up callback, run in a state in which every array with a
    tombstone is in the dirty set, leaves no tombstone in any array and
    the dirty set empty, and changes neither the live hooks of any
    handler nor their order. *)
Theorem cleanupDirtySet_compacts_the_hook_arrays (st : state) :
  tombstones_dirty st →
  dirtySet (cleanupDirtySet st) = [] ∧
  (∀ h arr, messageHooks (cleanupDirtySet st) !! h = Some arr → None ∉ arr) ∧
  (∀ h arr, messageHooks st !! h = Some arr →
     messageHooks (cleanupDirtySet st) !! h
       = Some (if decide (h ∈ dirtySet st) then removeAllNull arr else arr)) ∧
  (∀ h, live_hooks h (cleanupDirtySet st) = live_hooks h st) ∧
  messageQueue (cleanupDirtySet st) = messageQueue st ∧
  tasks (cleanupDirtySet st) = tasks st ∧
  pending (cleanupDirtySet st) = pending st.
Proof.
  intros HT. split; [done|]. split; [|split; [|split; [|split]]].
  - intros h arr Ha. by apply (cleanupDirtySet_no_tombstones st h arr).
  - intros h arr Ha. rewrite messageHooks_cleanupDirtySet, Ha.
    by destruct (decide _).
  - intros h. apply live_hooks_cleanupDirtySet.
  - by destruct (messageQueue_cleanupDirtySet st) as (-> & _).
  - apply cleanupDirtySet_sched.
Qed.

(** The clean-up after hook 2 of three was removed. *)
Lemma cleanupDirtySet_compacts_the_hook_arrays_witness :
  let st := removeMessageHook 7 (HookFn 2) st_three_hooks in
  dirtySet (cleanupDirtySet st) = [] ∧
  (∀ h arr, messageHooks (cleanupDirtySet st) !! h = Some arr → None ∉ arr) ∧
  (∀ h arr, messageHooks st !! h = Some arr →
     messageHooks (cleanupDirtySet st) !! h
       = Some (if decide (h ∈ dirtySet st) then removeAllNull arr else arr)) ∧
  (∀ h, live_hooks h (cleanupDirtySet st) = live_hooks h st) ∧
  messageQueue (cleanupDirtySet st) = messageQueue st ∧
  tasks (cleanupDirtySet st) = tasks st ∧
  pending (cleanupDirtySet st) = pending st.
Proof.
  apply (cleanupDirtySet_compacts_the_hook_arrays
           (removeMessageHook 7 (HookFn 2) st_three_hooks)).
  apply tidy_removeMessageHook. unfold st_three_hooks.
  do 3 apply tidy_installMessageHook. apply tidy_initial.
Defined.

(** X10. In every state the application can reach, every hook array with a
    tombstone is in the dirty set; the clean-up callback is scheduled,
    once and not cancelled, exactly when the dirty set is not empty; so
    when no callback is left to run no array holds a tombstone. *)
Theorem tombstones_are_scheduled_for_cleanup
    (E : Env) (fuel : nat) (steps : list step) :
  let st := runSteps E fuel steps initial in
  tombstones_dirty st ∧
  length (live_cleanups (tasks st)) ≤ 1 ∧
  (dirtySet st ≠ [] ↔
   ∃ t, t ∈ tasks st ∧ callback t = CleanupDirtySet ∧ rejected t = false) ∧
  (tasks st = [] →
   ∀ h arr, messageHooks st !! h = Some arr → None ∉ arr).
Proof.
  intros st.
  destruct (tidy_runSteps E fuel steps initial tidy_initial)
    as [(H1 & H2 & H3 & H4) HT].
  fold st in H1, H2, H3, H4, HT.
  split; [done|]. split; [|split].
  - rewrite H4. destruct (dirtySet st); lia.
  - split.
    + intros Hd.
      destruct (live_cleanups (tasks st)) as [|t r] eqn:Hl.
      { destruct (dirtySet st); [done|]. simpl in H4. lia. }
      assert (Hin : t ∈ live_cleanups (tasks st)) by (rewrite Hl; by left).
      apply list_elem_of_filter in Hin as [Hlive Hin].
      exists t. split; [done|]. unfold is_live_cleanup in Hlive.
      destruct (callback t); [done|]. split; [done|].
      by destruct (rejected t).
    + intros (t & Hin & Hc & Hr) Hd. rewrite Hd in H4.
      assert (Hl : t ∈ live_cleanups (tasks st)).
      { apply list_elem_of_filter. split; [|done].
        unfold is_live_cleanup. by rewrite Hc, Hr. }
      destruct (live_cleanups (tasks st)); [by apply elem_of_nil in Hl|].
      simpl in H4. lia.
  - intros Hts h arr Ha Hn. pose proof (HT h arr Ha Hn) as Hd.
    rewrite Hts in H4. simpl in H4.
    destruct (dirtySet st); [by apply elem_of_nil in Hd|done].
Qed.

(** ** Removing a hook and installing it again *)

Lemma filter_other (k : MessageHook) (l : list MessageHook) :
  k ∉ l → filter (λ x, x ≠ k) l = l.
Proof.
  induction l as [|y l IH]; [done|]. intros [Hy Hl]%not_elem_of_cons.
  rewrite filter_cons_True by done. by rewrite IH.
Qed.

Lemma elem_of_omap_id (k : MessageHook) (arr : list (option MessageHook)) :
  k ∈ omap id arr ↔ Some k ∈ arr.
Proof.
  rewrite list_elem_of_omap. split.
  - by intros ([k'|] & Hin & [= ->]).
  - intros Hin. by exists (Some k).
Qed.

Lemma omap_id_tombstone (arr : list (option MessageHook)) i k :
  arr !! i = Some (Some k) → NoDup (omap id arr) →
  omap id (<[i := None]> arr) = filter (λ x, x ≠ k) (omap id arr).
Proof.
  revert i. induction arr as [|x r IH]; intros i Hi Hnd; [done|].
  destruct i as [|i]; simpl in *.
  - injection Hi as ->. simpl in *. apply NoDup_cons in Hnd as [Hk Hnd].
    rewrite filter_cons_False by (intros H; by apply H).
    by rewrite filter_other.
  - destruct x as [k'|]; simpl in *; [|by apply IH].
    apply NoDup_cons in Hnd as [Hk Hnd].
    rewrite filter_cons_True.
    + f_equal. by apply IH.
    + intros ->. apply Hk, elem_of_omap_id. by eapply list_elem_of_lookup_2.
Qed.

Lemma live_hooks_removeMessageHook h k st :
  hooks_distinct st →
  live_hooks h (removeMessageHook h k st)
    = filter (λ x, x ≠ k) (live_hooks h st).
Proof.
  intros Hd. unfold live_hooks, removeMessageHook.
  destruct (messageHooks st !! h) as [arr|] eqn:Ha; [|by rewrite Ha].
  destruct (indexOf k arr) as [i|] eqn:Hi.
  - rewrite messageHooks_scheduleCleanup. simpl. rewrite lookup_insert_eq.
    simpl. unfold newest_first. rewrite filter_reverse. f_equal.
    destruct (indexOf_Some k arr i Hi) as [Hi' _].
    apply omap_id_tombstone; [done|]. by apply (Hd h).
  - rewrite Ha. simpl. apply indexOf_None in Hi.
    rewrite filter_other; [done|]. unfold newest_first.
    rewrite elem_of_reverse. by rewrite elem_of_omap_id.
Qed.

Lemma live_hooks_installMessageHook h k st :
  k ∉ live_hooks h st →
  live_hooks h (installMessageHook h k st) = k :: live_hooks h st.
Proof.
  unfold live_hooks, newest_first. rewrite elem_of_reverse, elem_of_omap_id.
  intros Hk. rewrite installMessageHook_absent by done.
  rewrite lookup_insert_eq. simpl. rewrite omap_app. simpl.
  by rewrite reverse_snoc.
Qed.

Lemma live_hooks_other h h' k st :
  h' ≠ h →
  live_hooks h' (removeMessageHook h k st) = live_hooks h' st ∧
  live_hooks h' (installMessageHook h k st) = live_hooks h' st.
Proof.
  intros Hne. unfold live_hooks, removeMessageHook, installMessageHook. split.
  - destruct (messageHooks st !! h) as [arr|]; [|done].
    destruct (indexOf k arr); [|done].
    rewrite messageHooks_scheduleCleanup. simpl.
    by rewrite lookup_insert_ne.
  - destruct (messageHooks st !! h) as [arr|].
    + destruct (indexOf k arr); [done|]. simpl. by rewrite lookup_insert_ne.
    + simpl. by rewrite lookup_insert_ne.
Qed.

(** X11. [removeMessageHook] takes the hook out of the live hooks of the
    handler and leaves the others in their order; installing the hook
    again, even before the clean-up has run, puts it in front of them,
    so it is the first the next send calls; installing a new hook and
    removing it leaves the live hooks as they were. The hooks of other
    handlers are not touched. *)
Theorem removed_hook_installed_again_runs_first
    (E : Env) (f d h : nat) (k : MessageHook) (m : Message) (st : state) :
  hooks_distinct st →
  let others := filter (λ x, x ≠ k) (live_hooks h st) in
  let st2 := installMessageHook h k (removeMessageHook h k st) in
  live_hooks h (removeMessageHook h k st) = others ∧
  live_hooks h st2 = k :: others ∧
  (∃ new,
     trace (fst (sendMessage E (runScript E f) d h m st2))
       = trace st ++ EvHook d k h m :: new) ∧
  (k ∉ live_hooks h st →
   live_hooks h (removeMessageHook h k (installMessageHook h k st))
     = live_hooks h st) ∧
  (∀ h', h' ≠ h →
     live_hooks h' (removeMessageHook h k st) = live_hooks h' st ∧
     live_hooks h' (installMessageHook h k st) = live_hooks h' st).
Proof.
  intros Hd others st2. subst others st2.
  pose proof (live_hooks_removeMessageHook h k st Hd) as Hrem.
  assert (Hout : k ∉ live_hooks h (removeMessageHook h k st)).
  { rewrite Hrem. intros Hin. by apply list_elem_of_filter in Hin as [? _]. }
  split; [done|]. split; [|split; [|split]].
  - by rewrite live_hooks_installMessageHook, Hrem.
  - destruct (unhooked_removeMessageHook h k st Hd) as [Hk _].
    pose proof (installMessageHook_absent h k _ Hk) as Hins.
    destruct (sendMessage_first_hook E f d h m
                (installMessageHook h k (removeMessageHook h k st))
                (default [] (messageHooks (removeMessageHook h k st) !! h)) k)
      as (new & Ht).
    { by rewrite Hins, lookup_insert_eq. }
    exists new.
    by rewrite Ht, trace_installMessageHook, trace_removeMessageHook.
  - intros Hk.
    rewrite live_hooks_removeMessageHook by (by apply hooks_distinct_install).
    rewrite live_hooks_installMessageHook by done.
    rewrite filter_cons_False by (intros H; by apply H).
    by apply filter_other.
  - intros h' Hne. by apply live_hooks_other.
Qed.

(** Hook 2 of hooks 1, 2, 3 removed and installed again. *)
Lemma removed_hook_installed_again_runs_first_witness :
  let others := filter (λ x, x ≠ HookFn 2) (live_hooks 7 st_three_hooks) in
  let st2 := installMessageHook 7 (HookFn 2)
               (removeMessageHook 7 (HookFn 2) st_three_hooks) in
  live_hooks 7 (removeMessageHook 7 (HookFn 2) st_three_hooks) = others ∧
  live_hooks 7 st2 = HookFn 2 :: others ∧
  (∃ new,
     trace (fst (sendMessage E_plain (runScript E_plain 5) 0 7 msgA st2))
       = trace st_three_hooks ++ EvHook 0 (HookFn 2) 7 msgA :: new) ∧
  (HookFn 2 ∉ live_hooks 7 st_three_hooks →
   live_hooks 7 (removeMessageHook 7 (HookFn 2)
                   (installMessageHook 7 (HookFn 2) st_three_hooks))
     = live_hooks 7 st_three_hooks) ∧
  (∀ h', h' ≠ 7 →
     live_hooks h' (removeMessageHook 7 (HookFn 2) st_three_hooks)
       = live_hooks h' st_three_hooks ∧
     live_hooks h' (installMessageHook 7 (HookFn 2) st_three_hooks)
       = live_hooks h' st_three_hooks).
Proof.
  apply (removed_hook_installed_again_runs_first E_plain 5 0 7 (HookFn 2) msgA
           st_three_hooks).
  apply hooks_distinct_st_three_hooks.
Defined.


(** ** No hook twice *)

(** X12. From the initial state on, whatever the application, the user
    code and the host do, no hook is in two slots of the array of a handler,
    and a send calls no hook twice. *)
Theorem no_hook_is_called_twice_in_a_send
    (E : Env) (fuel f d h : nat) (m : Message) (steps : list step) :
  let st := runSteps E fuel steps initial in
  hooks_distinct st ∧
  ∃ new,
    trace (fst (sendMessage E (runScript E f) d h m st)) = trace st ++ new ∧
    NoDup (hook_calls (at_depth d new)).
Proof.
  intros st.
  assert (Hd : hooks_distinct st)
    by apply hooks_distinct_runSteps, hooks_distinct_initial.
  split; [done|].
  destruct (sendMessage E (runScript E f) d h m st) as [st2 r2] eqn:Hrun.
  destruct (sendMessage_top E f d h m st st2 r2 Hrun)
    as (new & ks & Ht & Hsub & Htr & _).
  destruct (send_trace_reading _ _ _ _ _ _ Htr) as (Hk & _).
  exists new. split; [done|]. rewrite Hk.
  eapply sublist_NoDup; [|exact Hsub].
  unfold newest_first. rewrite reverse_Permutation.
  destruct (messageHooks st !! h) as [arr|] eqn:Ha; [by apply (Hd h)|].
  constructor.
Qed.

(** ** [clearData] twice, and the other handlers *)

Lemma clearPosted_idemp h p : clearPosted h (clearPosted h p) = clearPosted h p.
Proof.
  unfold clearPosted. destruct (decide (handler p = Some h)) as [Hp|Hp]; simpl.
  - done.
  - by rewrite decide_False.
Qed.

Lemma set_add_idemp h s : set_add h (set_add h s) = set_add h s.
Proof.
  unfold set_add at 1. by rewrite decide_True by apply set_add_elem.
Qed.

Lemma live_entries_cons p q :
  live_entries (p :: q)
    = match handler p, msg p with
      | Some h, Some m => (h, m) :: live_entries q
      | _, _ => live_entries q
      end.
Proof. unfold live_entries. simpl. by destruct (handler p), (msg p). Qed.

Lemma live_entries_clearData h q :
  live_entries (map (clearPosted h) q)
    = filter (λ hm, hm.1 ≠ h) (live_entries q).
Proof.
  induction q as [|p q IH]; [done|].
  change (map (clearPosted h) (p :: q))
    with (clearPosted h p :: map (clearPosted h) q).
  rewrite !live_entries_cons, IH. destruct p as [e hp mp].
  unfold clearPosted. simpl.
  destruct (decide (hp = Some h)) as [->|Hne]; simpl.
  - destruct mp; [|done].
    by rewrite filter_cons_False by (simpl; intros H; by apply H).
  - destruct hp as [h'|]; [|done]. destruct mp; [|done].
    by rewrite filter_cons_True by (simpl; congruence).
Qed.

Lemma set_messageQueue_same q st : messageQueue st = q → set_messageQueue q st = st.
Proof. intros <-. by destruct st. Qed.

Lemma set_messageHooks_same mh st :
  messageHooks st = mh → set_messageHooks mh st = st.
Proof. intros <-. by destruct st. Qed.

Lemma scheduleCleanup_dirty h st : h ∈ dirtySet st → scheduleCleanup h st = st.
Proof.
  intros Hin. unfold scheduleCleanup.
  destruct (dirtySet st) as [|x r] eqn:Hd; [by apply elem_of_nil in Hin|].
  rewrite Hd. unfold set_add. rewrite decide_True by done.
  rewrite <- Hd. by destruct st.
Qed.

Lemma clearData_untouched h st :
  (∀ x r, messageHooks st !! h ≠ Some (x :: r)) →
  clearData h st = set_messageQueue (map (clearPosted h) (messageQueue st)) st.
Proof.
  intros Hh. unfold clearData.
  destruct (messageHooks st !! h) as [[|x r]|]; try done.
  by destruct (Hh x r).
Qed.

Lemma clearData_touched h st x r :
  messageHooks st !! h = Some (x :: r) →
  clearData h st
    = set_messageQueue (map (clearPosted h) (messageQueue st))
        (scheduleCleanup h
           (set_messageHooks
              (<[h := fill_null (x :: r)]> (messageHooks st)) st)).
Proof.
  intros Hh. unfold clearData. rewrite Hh.
  by rewrite messageQueue_scheduleCleanup.
Qed.

Lemma clearData_idemp h st : clearData h (clearData h st) = clearData h st.
Proof.
  assert (Hq : ∀ q, map (clearPosted h) (map (clearPosted h) q)
                    = map (clearPosted h) q).
  { intros q. rewrite <- list_fmap_compose.
    apply list_fmap_ext. intros i y _. apply clearPosted_idemp. }
  destruct (messageHooks st !! h) as [[|x r]|] eqn:Hh.
  - rewrite (clearData_untouched h st) by (by rewrite Hh).
    rewrite clearData_untouched by (cbn [messageHooks set_messageQueue]; by rewrite Hh).
    apply set_messageQueue_same. cbn [messageQueue set_messageQueue].
    by rewrite Hq.
  - rewrite (clearData_touched h st x r Hh).
    set (M1 := <[h := fill_null (x :: r)]> (messageHooks st)).
    set (S1 := scheduleCleanup h (set_messageHooks M1 st)).
    assert (HM : messageHooks S1 = M1)
      by (unfold S1; by rewrite messageHooks_scheduleCleanup).
    assert (HD : h ∈ dirtySet S1)
      by (unfold S1; rewrite dirtySet_scheduleCleanup; apply set_add_elem).
    set (R := set_messageQueue (map (clearPosted h) (messageQueue st)) S1).
    assert (HR : messageHooks R !! h
                 = Some (None :: replicate (length r) None)).
    { change (messageHooks R) with (messageHooks S1). rewrite HM.
      unfold M1. by rewrite lookup_insert_eq. }
    rewrite (clearData_touched h R _ _ HR).
    change (messageHooks R) with (messageHooks S1). rewrite HM.
    assert (Hfill : fill_null (None :: replicate (length r) None)
                    = fill_null (x :: r)).
    { unfold fill_null. simpl. by rewrite length_replicate. }
    rewrite Hfill. unfold M1 at 1. rewrite insert_insert_eq. fold M1.
    rewrite (set_messageHooks_same M1 R) by done.
    rewrite (scheduleCleanup_dirty h R) by done.
    apply set_messageQueue_same. unfold R. cbn [messageQueue set_messageQueue].
    by rewrite Hq.
  - rewrite (clearData_untouched h st) by (by rewrite Hh).
    rewrite clearData_untouched by (cbn [messageHooks set_messageQueue]; by rewrite Hh).
    apply set_messageQueue_same. cbn [messageQueue set_messageQueue].
    by rewrite Hq.
Qed.

Lemma live_hooks_clearData h st : live_hooks h (clearData h st) = [].
Proof.
  unfold live_hooks.
  destruct (messageHooks st !! h) as [[|x r]|] eqn:Hh.
  - rewrite clearData_untouched by (by rewrite Hh).
    cbn [messageHooks set_messageQueue]. by rewrite Hh.
  - rewrite (clearData_touched h st x r Hh).
    cbn [messageHooks set_messageQueue].
    rewrite messageHooks_scheduleCleanup.
    cbn [messageHooks set_messageHooks]. rewrite lookup_insert_eq.
    unfold fill_null, newest_first. cbn [default from_option id].
    by rewrite omap_id_replicate_None.
  - rewrite clearData_untouched by (by rewrite Hh).
    cbn [messageHooks set_messageQueue]. by rewrite Hh.
Qed.

Lemma messageHooks_clearData_other h h' st :
  h' ≠ h → messageHooks (clearData h st) !! h' = messageHooks st !! h'.
Proof.
  intros Hne.
  destruct (messageHooks st !! h) as [[|x r]|] eqn:Hh.
  - by rewrite clearData_untouched by (by rewrite Hh).
  - rewrite (clearData_touched h st x r Hh).
    cbn [messageHooks set_messageQueue].
    rewrite messageHooks_scheduleCleanup.
    cbn [messageHooks set_messageHooks]. by rewrite lookup_insert_ne.
  - by rewrite clearData_untouched by (by rewrite Hh).
Qed.

(** X13. [clearData] a second time changes nothing; after it the handler has
    no live hook and no live entry in the queue, while the live entries
    of the other handlers are all there, in their order, and their hook
    arrays are untouched. *)
Theorem clearData_idempotent_and_confined (h : nat) (st : state) :
  clearData h (clearData h st) = clearData h st ∧
  live_hooks h (clearData h st) = [] ∧
  live_entries (messageQueue (clearData h st))
    = filter (λ hm, hm.1 ≠ h) (live_entries (messageQueue st)) ∧
  (∀ h', h' ≠ h →
     messageHooks (clearData h st) !! h' = messageHooks st !! h').
Proof.
  split; [apply clearData_idemp|]. split; [apply live_hooks_clearData|].
  split; [|intros h' Hne; by apply messageHooks_clearData_other].
  rewrite messageQueue_clearData. apply live_entries_clearData.
Qed.

(** ** Conflation with the message classes of the module *)

Lemma conflationTarget_type h m m' p :
  type m = type m' → conflationTarget h m p = conflationTarget h m' p.
Proof. unfold conflationTarget. by intros ->. Qed.

Lemma conflationTarget_Some h m p pm :
  conflationTarget h m p = Some pm →
  handler p = Some h ∧ msg p = Some pm ∧ isConflatable pm = true.
Proof.
  unfold conflationTarget. destruct (decide (handler p = Some h)); [|done].
  destruct (msg p) as [pm'|]; [|done].
  destruct (String.eqb (type pm') (type m)); [|done]. simpl.
  destruct (isConflatable pm') eqn:Hc; [|done]. by intros [= <-].
Qed.

Lemma stock_conflates E pm m :
  stock_classes E → isConflatable pm = true → conflate E pm m = Return true.
Proof. intros HE Hc. rewrite HE. unfold class_of. by rewrite Hc. Qed.

Lemma postMessage_stock E d h m st :
  stock_classes E → isConflatable m = true →
  postMessage E d h m st
    = match omap (conflationTarget h m) (messageQueue st) with
      | [] => (enqueueMessage h m st, Done tt)
      | pm :: _ => (log (EvConflate d pm m (Return true)) st, Done tt)
      end.
Proof.
  intros HE Hc. unfold postMessage. rewrite Hc. simpl. unfold bind.
  destruct (someConflate_scan E d h m (messageQueue st) st)
    as (declined & rest & Heq & Hdec & Hres).
  assert (Hnil : declined = []).
  { destruct declined as [|pm declined]; [done|].
    apply Forall_cons in Hdec as [Hd _]. unfold declines in Hd.
    assert (Hin : pm ∈ omap (conflationTarget h m) (messageQueue st))
      by (rewrite Heq; by left).
    apply list_elem_of_omap in Hin as (p & _ & Hp).
    apply conflationTarget_Some in Hp as (_ & _ & Hpc).
    by rewrite (stock_conflates E pm m HE Hpc) in Hd. }
  subst declined. simpl in Heq. rewrite Heq.
  destruct rest as [|pm rest].
  - by rewrite Hres.
  - destruct Hres as [_ Hres]. rewrite Hres.
    assert (Hin : pm ∈ omap (conflationTarget h m) (messageQueue st))
      by (rewrite Heq; by left).
    apply list_elem_of_omap in Hin as (p & _ & Hp).
    apply conflationTarget_Some in Hp as (_ & _ & Hpc).
    by rewrite (stock_conflates E pm m HE Hpc).
Qed.

(** X14. With messages of the two classes of the module, however many
    [ConflatableMessage]s of one type are posted in a row to a handler,
    the queue gets one entry for them: none when a live entry of the
    handler with a conflatable message of the type is there already,
    and otherwise the entry of the first one. *)
Theorem conflatable_messages_are_queued_once
    (E : Env) (d h : nat) (ty : string) (ids : list nat) (st : state) :
  stock_classes E →
  let ms := map (λ i, new_message ConflatableMessage i ty) ids in
  let waiting :=
    omap (conflationTarget h (new_message ConflatableMessage 0 ty))
      (messageQueue st) in
  messageQueue (postAll E d h ms st)
    = match waiting, ms with
      | [], m0 :: _ =>
          messageQueue st ++ [mkPosted (nextId st) (Some h) (Some m0)]
      | _, _ => messageQueue st
      end.
Proof.
  intros HE. simpl.
  assert (Hext : ∀ i (q : list PostedMessage),
            omap (conflationTarget h (new_message ConflatableMessage i ty)) q
            = omap (conflationTarget h (new_message ConflatableMessage 0 ty)) q).
  { intros i q. apply list_omap_ext, Forall_Forall2_diag, Forall_forall.
    intros p _. by apply conflationTarget_type. }
  revert st. induction ids as [|i ids IH]; intros st.
  { simpl. by destruct (omap _ _). }
  change (map (λ i, new_message ConflatableMessage i ty) (i :: ids))
    with (new_message ConflatableMessage i ty
            :: map (λ i, new_message ConflatableMessage i ty) ids).
  set (ms := map (λ i, new_message ConflatableMessage i ty) ids) in *.
  unfold postAll. cbn [foldl].
  rewrite (postMessage_stock E d h (new_message ConflatableMessage i ty) st
             HE eq_refl), Hext.
  destruct (omap (conflationTarget h (new_message ConflatableMessage 0 ty))
              (messageQueue st)) as [|pm r] eqn:Hw; cbn [fst];
    match goal with |- context [foldl ?f ?s ms] =>
      change (foldl f s ms) with (postAll E d h ms s) end;
    rewrite (IH _).
  - rewrite messageQueue_enqueueMessage, omap_app, Hw. simpl.
    unfold conflationTarget. simpl.
    rewrite decide_True by done. rewrite String.eqb_refl. simpl. done.
  - cbn [messageQueue log]. rewrite Hw. by destruct ms.
Qed.

Lemma stock_classes_E_stock : stock_classes E_stock.
Proof. by intros pm other. Qed.

(** Three conflatable messages of one type posted to handler 7. *)
Lemma conflatable_messages_are_queued_once_witness :
  messageQueue
    (postAll E_stock 0 7
       (map (λ i, new_message ConflatableMessage i "resize") [1; 2; 3]) initial)
    = [mkPosted 0 (Some 7) (Some (new_message ConflatableMessage 1 "resize"))].
Proof.
  apply (conflatable_messages_are_queued_once E_stock 0 7 "resize" [1; 2; 3]
           initial stock_classes_E_stock).
Defined.

(** Three conflatable messages of one type posted to handler 7, and a
    plain one in between: the loop run delivers the first conflatable
    one and the plain one. *)
Example conflated_messages_are_delivered_once :
  deliveries
    (trace
       (runSteps E_stock 5
          [Call (APost 7 (new_message ConflatableMessage 1 "resize"));
           Call (APost 7 (new_message BaseMessage 2 "resize"));
           Call (APost 7 (new_message ConflatableMessage 3 "resize"));
           Call (APost 7 (new_message ConflatableMessage 4 "resize"));
           Tick]
          initial))
    = [(7, new_message ConflatableMessage 1 "resize");
       (7, new_message BaseMessage 2 "resize")].
Proof. by vm_compute. Qed.

(** ** Hook arrays during a call *)

(** X15. No call of an entry point, whatever the user code it runs
    does, shortens or reorders a hook array: the array of a handler is
    afterwards at least as long, and every slot holds what it held or
    [null]. The slots are taken out by the scheduled clean-up only. *)
Theorem hook_arrays_keep_their_slots_during_a_call
    (E : Env) (f g d h : nat) (a : action) (st : state)
    (arr : list (option MessageHook)) :
  messageHooks st !! h = Some arr →
  tombstoned_from arr h (fst (doAction E (runScript E f) g d a st)).
Proof.
  intros Ha.
  apply (pres_doAction (preserved_tombstoned E d arr h)); [lia|done|].
  by apply tombstoned_from_refl.
Qed.

(** The send during which hook 2 removes itself. *)
Lemma hook_arrays_keep_their_slots_during_a_call_witness :
  tombstoned_from [Some (HookFn 1); Some (HookFn 2); Some (HookFn 3)] 7
    (fst (doAction E_self_remove (runScript E_self_remove 5) 5 0
            (ASend 7 msgA) st_three_hooks)).
Proof.
  apply (hook_arrays_keep_their_slots_during_a_call E_self_remove 5 5 0 7
           (ASend 7 msgA) st_three_hooks).
  reflexivity.
Defined.

(** ** Posted messages have a run scheduled *)

Lemma env_allowed_impl (P Q : action → Prop) E :
  (∀ a, P a → Q a) → env_allowed P E → env_allowed Q E.
Proof.
  intros HPQ (Hh & Hp & Hx). unfold allowed_script in *.
  split; [|split]; intros; (eapply Forall_impl; [|exact HPQ]); auto.
Qed.

Lemma withstands_served : withstands served.
Proof.
  split.
  - by intros st e.
  - intros st h k H. unfold served.
    assert (pending (installMessageHook h k st) = pending st) as ->
      by (by frame).
    by rewrite messageQueue_installMessageHook.
  - intros st h k H. unfold served.
    by rewrite messageQueue_removeMessageHook, pending_removeMessageHook.
  - intros st h H. unfold served.
    rewrite messageQueue_clearData, pending_clearData. intros Hq. apply H.
    intros Hn. by rewrite Hn in Hq.
  - by intros st eh.
  - intros st h m H _. apply pending_enqueueMessage.
Qed.

Lemma withstands_unguarded : withstands (λ st, flushGuard st = false).
Proof. split; intros * H; rewrite <- H; by frame. Qed.

Lemma runMessageLoop_keeps E f g d (K : state → Prop) st :
  (∀ rem h m st0,
     K st0 → in_run (nextId st) rem st0 →
     K (fst (sendMessage E (runScript E f) d h m st0)) ∧
     in_run (nextId st) rem (fst (sendMessage E (runScript E f) d h m st0))) →
  (∀ q st0, K st0 → K (set_messageQueue q st0)) →
  (∀ n st0, K st0 → K (set_nextId n st0)) →
  K (set_pending None st) →
  fresh st →
  K (fst (runMessageLoop E (runScript E f) g d st)).
Proof.
  intros Hsend Hpop Hid HK Hfresh. unfold runMessageLoop. simpl.
  destruct (messageQueue st) as [|p q] eqn:Hq; [done|].
  rewrite <- Hq in *.
  apply (loop_keeps E f d (nextId st) K Hsend Hpop g (messageQueue st) []
           (set_nextId (S (nextId st))
              (set_messageQueue
                 (messageQueue st ++ [mkPosted (nextId st) None None])
                 (set_pending None st)))); auto.
  split; simpl; [|done]. intros _. apply Forall_app. split.
  - eapply Forall_impl; [exact Hfresh|]. simpl. lia.
  - by apply Forall_singleton.
Qed.

Section Settled.
Variable E : Env.
Variable fuel : nat.
Hypothesis HE : env_allowed tame E.

Lemma tame_keeps_handler : env_allowed keeps_handler E.
Proof using HE. apply (env_allowed_impl tame); [by intros a [_ ?]|done]. Qed.

Lemma tame_no_flush : env_allowed (λ a, a ≠ AFlush) E.
Proof using HE. apply (env_allowed_impl tame); [by intros a [? _]|done]. Qed.

Lemma settled_call a st :
  a ≠ AFlush → keeps_handler a → settled st →
  settled (fst (doAction E (runScript E fuel) fuel 0 a st)).
Proof using HE.
  intros Ha Hk (Hs & Hf & Ho & Hg & Hc).
  pose proof (pres_doAction
                (withstands_preserved E 0 _ (λ a, a ≠ AFlush) tame_no_flush
                   ltac:(by intros H)
                   (withstands_and _ _ withstands_served withstands_unguarded))
                fuel fuel 0 a st ltac:(lia) Ha (conj Hs Hg)) as [Hs' Hg'].
  split; [done|]. split; [|split; [|split; [done|]]].
  - by apply (pres_doAction (preserved_fresh E 0)).
  - by apply (pres_doAction (preserved_sched_ok E 0)).
  - by apply (pres_doAction (preserved_handler E 0 ConsoleError tame_keeps_handler)).
Qed.

Lemma settled_flush st :
  snd (flush E (runScript E fuel) fuel 0 st) ≠ OutOfFuel →
  settled st → settled (fst (flush E (runScript E fuel) fuel 0 st)).
Proof using HE.
  intros Hfuel HS. pose proof HS as (Hs & Hf & Ho & Hg & Hc).
  pose proof (console_flush E fuel fuel 0 st tame_keeps_handler Hc Hf) as Hno.
  pose proof (pres_flush (preserved_fresh E 0) fuel fuel 0 st
                ltac:(lia) Logic.I Hf) as Hf'.
  pose proof (pres_flush (preserved_sched_ok E 0) fuel fuel 0 st
                ltac:(lia) Logic.I Ho) as Ho'.
  pose proof (pres_flush (preserved_handler E 0 ConsoleError tame_keeps_handler)
                fuel fuel 0 st ltac:(lia) ltac:(by intros eh) Hc) as Hc'.
  unfold flush in *. rewrite Hg in *.
  destruct (pending st) as [t|] eqn:Hp; [|done].
  set (st0 := set_flushGuard true (set_pending None (cancel t st))) in *.
  unfold bind in *.
  destruct (runMessageLoop E (runScript E fuel) fuel 0 st0)
    as [st1 r1] eqn:Hrun.
  destruct r1 as [[]|e|]; [|by destruct (Hno e)|done].
  simpl in *.
  assert (Hran : ran_to_sentinel 0 st0 st1).
  { apply (runMessageLoop_bounded E fuel fuel 0 (λ s, flushGuard s = true)
             st0 st1); try done.
    intros rem h m s0 Hg0 HR. by apply in_run_sendMessage_guarded. }
  destruct Hran as (new & seen & _ & _ & _ & _ & Hpq).
  split; [|done]. unfold served. simpl. intros Hq Hn. by apply Hq, Hpq.
Qed.

Lemma settled_runMicrotask st :
  snd (runMicrotask E fuel st) ≠ OutOfFuel →
  settled st → settled (fst (runMicrotask E fuel st)).
Proof using HE.
  intros Hfuel HS. pose proof HS as (Hs & Hf & Ho & Hg & Hc).
  pose proof (console_runMicrotask E fuel st tame_keeps_handler tame_no_flush
                Hc Hf) as Hno.
  pose proof (fresh_runMicrotask E fuel st Hf) as Hf'.
  pose proof (sched_ok_runMicrotask E fuel st Ho) as Ho'.
  pose proof (handler_runMicrotask E fuel ConsoleError st tame_keeps_handler Hc)
    as Hc'.
  unfold runMicrotask in *.
  destruct (tasks st) as [|t ts] eqn:Hts; [done|].
  destruct (rejected t); [done|].
  destruct (callback t).
  - destruct (runMessageLoop E (runScript E fuel) fuel 0 (set_tasks ts st))
      as [st1 r1] eqn:Hrun.
    destruct r1 as [[]|e|]; [|by destruct (Hno e)|done].
    cbn [fst] in *.
    assert (Hran : ran_to_sentinel 0 (set_tasks ts st) st1).
    { apply (runMessageLoop_bounded E fuel fuel 0 (λ _, True)
               (set_tasks ts st) st1); try done.
      intros rem h m s0 _ HR. split; [done|].
      apply in_run_sendMessage_no_flush; [apply tame_no_flush|done]. }
    destruct Hran as (new & seen & _ & _ & _ & _ & Hpq).
    split; [|split; [done|split; [done|split; [|done]]]].
    + unfold served. intros Hq Hn. by apply Hq, Hpq.
    + pose proof (runMessageLoop_keeps E fuel fuel 0
                    (λ s, flushGuard s = false) (set_tasks ts st)) as HK.
      rewrite Hrun in HK. apply HK; try done.
      intros rem h m s0 Hg0 HR. split.
      * by apply (pres_sendMessage
                    (withstands_preserved E 0 _ (λ a, a ≠ AFlush) tame_no_flush
                       ltac:(by intros H) withstands_unguarded)).
      * apply in_run_sendMessage_no_flush; [apply tame_no_flush|done].
  - cbn [fst] in *.
    destruct (messageQueue_cleanupDirtySet (set_tasks ts st))
      as (Hq & Hn & Hg' & Hx).
    destruct (cleanupDirtySet_sched (set_tasks ts st)) as [Ht Hp].
    split; [|split; [done|split; [done|split; [|done]]]].
    + unfold served. rewrite Hq, Hp. exact Hs.
    + etrans; [exact Hg'|done].
Qed.

Lemma settled_runSteps steps : ∀ st,
  Forall (λ s, ∀ eh, s ≠ Call (ASetExceptionHandler eh)) steps →
  steps_return E fuel steps st →
  settled st → settled (runSteps E fuel steps st).
Proof using HE.
  induction steps as [|s r IH]; intros st Hs HR HS; [done|].
  apply Forall_cons in Hs as [Hs Hr]. destruct HR as [HR1 HR2].
  simpl. apply IH; [done|done|].
  destruct s as [a|]; simpl in *.
  - assert (Hk : keeps_handler a) by (intros eh ->; by apply (Hs eh)).
    destruct a; try (by apply settled_call). by apply settled_flush.
  - by apply settled_runMicrotask.
Qed.
End Settled.

Lemma settled_initial : settled initial.
Proof.
  split; [intros H; by destruct H|]. split; [constructor|done].
Qed.

(** X16. With [console.error] as the exception handler, user code that
    neither calls [flush()] nor replaces the exception handler, and an
    application that does not replace it either (it may call
    [flush()]): as long as every step comes to an end, whenever the
    queue is not empty between two steps a loop run is scheduled (the
    pending handle is set, and it is the one loop callback that is
    scheduled and not cancelled), and the guard of [flush] is not
    set. No posted message is left without a run to deliver it. *)
Theorem posted_messages_have_a_run_scheduled
    (E : Env) (fuel : nat) (steps : list step) :
  env_allowed tame E →
  Forall (λ s, ∀ eh, s ≠ Call (ASetExceptionHandler eh)) steps →
  steps_return E fuel steps initial →
  let st := runSteps E fuel steps initial in
  (messageQueue st ≠ [] →
   ∃ t, pending st = Some t ∧ live_loops (tasks st) = [t]) ∧
  flushGuard st = false.
Proof.
  intros HE Hs HR st.
  destruct (settled_runSteps E fuel HE steps initial Hs HR settled_initial)
    as (H1 & _ & H3 & H4 & _).
  fold st in H1, H3, H4. split; [|done]. intros Hq.
  specialize (H1 Hq). unfold sched_ok in H3.
  destruct (pending st) as [t|]; [|done]. by exists t.
Qed.

Lemma env_allowed_tame_E_post_inside : env_allowed tame E_post_inside.
Proof.
  repeat split; intros; unfold allowed_script; simpl;
    repeat case_match; repeat constructor; (discriminate || by intros eh).
Qed.

(** A post, a send whose handler posts two messages, a [flush()], the
    turn of the cancelled callback and a post. *)
Lemma posted_messages_have_a_run_scheduled_witness :
  let st := runSteps E_post_inside 5
              [Call (APost 7 msgB); Call (ASend 7 msgA); Call AFlush; Tick;
               Call (APost 8 msgA)]
              initial in
  (messageQueue st ≠ [] →
   ∃ t, pending st = Some t ∧ live_loops (tasks st) = [t]) ∧
  flushGuard st = false.
Proof.
  apply (posted_messages_have_a_run_scheduled E_post_inside 5).
  - apply env_allowed_tame_E_post_inside.
  - repeat (apply Forall_cons_2; [by intros eh'|]). apply Forall_nil_2.
  - repeat split; by vm_compute.
Defined.

(** The states this run goes through. *)
Example posts_flush_and_turns :
  let run steps := runSteps E_post_inside 5 steps initial in
  let s1 := [Call (APost 7 msgB); Call (ASend 7 msgA)] in
  let s2 := s1 ++ [Call AFlush] in
  let s3 := s2 ++ [Tick] in
  (map msg (messageQueue (run s1)), pending (run s1))
    = ([Some msgB; Some msgB; Some msgC], Some 1) ∧
  (map msg (messageQueue (run s2)), pending (run s2)) = ([], None) ∧
  (map msg (messageQueue (run s3)), pending (run s3)) = ([], None) ∧
  deliveries (trace (run s3)) = [(7, msgA); (7, msgB); (7, msgB); (7, msgC)].
Proof. by vm_compute. Qed.
